(** * Instagram DM campaign: send history, quota counts and the two runners

    The repository has two implementations of the messaging stage:
    - [steps/src/send-dm.ts], a stand-alone script whose main function walks
      every location of [restaurants.json] (module [Script] below);
    - [steps/send-dm.step.ts], an event step whose [handler] serves one
      location per event (module [Step] below).
    Both keep their send history in [output/messaged_restaurants.json], a
    nested object  day -> hour key -> restaurant name -> boolean. *)

From Stdlib Require Import Ascii String Qcanon.
From stdpp Require Import gmap strings list fin_maps pretty sorting.

(** ** Persisted state *)

(** The parsed content of [messaged_restaurants.json]
    ([Record<string, Record<string, Record<string, boolean>>>]).  The code
    only looks keys up, enumerates them and counts them, so the objects are
    finite maps of their own entries; the dates and the hour keys are no
    property names of [Object.prototype], restaurant names may be. *)
Abbreviation HourBucket := (gmap string bool).
Abbreviation DayBucket := (gmap string (gmap string bool)).
Abbreviation History := (gmap string (gmap string (gmap string bool))).

(** What the file system holds at the history path. *)
Inductive HistoryFile : Type :=
| Missing                  (* fs.existsSync(...) is false *)
| Unreadable               (* the file exists, fs.readFileSync throws *)
| InvalidJSON              (* the file is read, JSON.parse throws *)
| Parsed (data : History). (* the file holds this object *)

(** The two readings of the wall clock the history functions take:
    [new Date().toISOString().split('T')[0]] and [new Date().getHours()]. *)
Record Now : Type := { today : string; currentHour : nat }.

(** [`${currentHour}h`] *)
Definition hourKey (h : nat) : string := pretty h +:+ "h".
Definition currentHourKey (now : Now) : string := hourKey (currentHour now).

(** [{ hourly: number; daily: number }] *)
Record Counts : Type := { hourly : nat; daily : nat }.

Definition HOURLY_LIMIT : nat := 25.
Definition DAILY_LIMIT : nat := 100.

(** ** The bodies of the [try] blocks

    The three history functions have the same [try] body in both files; the
    files differ in their [catch] clauses.  A body returns [None] when one of
    its statements throws. *)

(** The loop of [getMessageCounts] over the hour buckets of today:
<<
    let dailyCount = 0
    for (const hour in data[today]) {
      const hourMessages = Object.keys(data[today][hour]).length
      dailyCount += hourMessages
      if (hour === currentHourKey) { result.hourly = hourMessages }
    }
    result.daily = dailyCount
>> *)
Definition tallyHour (key : string) (acc : Counts) (entry : string * HourBucket) : Counts :=
  let hourMessages := size entry.2 in
  {| hourly := if decide (entry.1 = key) then hourMessages else hourly acc;
     daily := daily acc + hourMessages |}.

Definition tallyDay (day : DayBucket) (key : string) : Counts :=
  foldl (tallyHour key) {| hourly := 0; daily := 0 |} (map_to_list day).

Definition getMessageCounts_try (disk : HistoryFile) (now : Now) : option Counts :=
  match disk with
  | Missing => Some {| hourly := 0; daily := 0 |}
  | Unreadable | InvalidJSON => None
  | Parsed data =>
      match data !! today now with
      | Some day => Some (tallyDay day (currentHourKey now))
      | None => Some {| hourly := 0; daily := 0 |}
      end
  end.

(** The property names every object inherits from [Object.prototype]; their
    values are functions, or the prototype itself, all of them truthy. *)
Definition inheritedKeys : list string :=
  [ "constructor"; "hasOwnProperty"; "isPrototypeOf"; "propertyIsEnumerable";
    "toLocaleString"; "toString"; "valueOf"; "__proto__";
    "__defineGetter__"; "__defineSetter__"; "__lookupGetter__"; "__lookupSetter__" ].

Definition inherited (key : string) : bool :=
  bool_decide (key ∈ inheritedKeys).

(** [if (messagedData[day][hour][restaurantName])]: an own flag decides by
    its value; without an own entry the look-up goes to the prototype. *)
Definition flagged (names : HourBucket) (restaurantName : string) : bool :=
  match names !! restaurantName with
  | Some flag => flag
  | None => inherited restaurantName
  end.

(** The nested [for ... in] scan of [isRestaurantMessaged] over all days and
    all hours, returning at the first hit. *)
Definition scanHistory (data : History) (restaurantName : string) : bool :=
  existsb (λ day : string * DayBucket,
    existsb (λ hour : string * HourBucket, flagged hour.2 restaurantName)
            (map_to_list day.2))
    (map_to_list data).

Definition isRestaurantMessaged_try (disk : HistoryFile) (restaurantName : string) : option bool :=
  match disk with
  | Missing => Some false
  | Unreadable | InvalidJSON => None
  | Parsed data => Some (scanHistory data restaurantName)
  end.

(** [names[restaurantName] = true]: the key [__proto__] names an own entry
    only when the bucket already owns one (as [JSON.parse] can create);
    otherwise the assignment goes to the setter of [Object.prototype], which
    ignores a boolean, and the bucket gets no entry. *)
Definition setFlag (names : HourBucket) (restaurantName : string) : HourBucket :=
  match names !! restaurantName with
  | Some _ => <[restaurantName := true]> names
  | None =>
      if decide (restaurantName = "__proto__") then names
      else <[restaurantName := true]> names
  end.

(** The in-memory update of [saveMessagedRestaurant]:
<<
    if (!data[today]) { data[today] = {} }
    if (!data[today][currentHourKey]) { data[today][currentHourKey] = {} }
    data[today][currentHourKey][restaurantName] = true
>> *)
Definition markMessaged (data : History) (now : Now) (restaurantName : string) : History :=
  let day : DayBucket := default ∅ (data !! today now) in
  let names : HourBucket := default ∅ (day !! currentHourKey now) in
  <[today now := <[currentHourKey now := setFlag names restaurantName]> day]> data.

(** [writable] tells whether [fs.writeFileSync] (and, in the step, the
    [mkdirSync] before it) goes through; a failed write leaves the file as it
    was.  The result is the new content of the file. *)
Definition saveMessagedRestaurant_try
    (writable : bool) (disk : HistoryFile) (now : Now) (restaurantName : string)
    : option HistoryFile :=
  match disk with
  | Unreadable | InvalidJSON => None
  | Missing => if writable then Some (Parsed (markMessaged ∅ now restaurantName)) else None
  | Parsed data =>
      if writable then Some (Parsed (markMessaged data now restaurantName)) else None
  end.

(** ** Leads *)

(** [interface Restaurant] of send-dm.ts; the step reads the same JSON as
    [Record<string, any>]. *)
Record SocialMedia : Type := {
  facebook : option string;
  instagram : option string;
  twitter : option string;
  linkedin : option string
}.

Record Restaurant : Type := {
  name : string;
  address : option string;
  phoneNumber : option string;
  website : option string;
  googleReviews : option string;
  menu : option string;
  socialMedia : option SocialMedia
}.

(** A JS object whose enumeration order matters is kept as the list
    [Object.entries] yields. *)
Abbreviation Restaurants := (list (string * Restaurant)).
Abbreviation LocationData := (list (string * list (string * Restaurant))).

(** The value of [restaurant.socialMedia?.instagram] when it is truthy (a
    non-empty string). *)
Definition instagramLink (restaurant : Restaurant) : option string :=
  match socialMedia restaurant with
  | Some sm =>
      match instagram sm with
      | Some url => if decide (url = "") then None else Some url
      | None => None
      end
  | None => None
  end.

(** ** Strings: [split(' ')[0]] and the profile URL patterns

    Strings are sequences of 8-bit code units, so of the line terminators
    that [.] refuses only LF and CR occur. *)

(** [s.split(' ')[0]] *)
Fixpoint firstWord (s : string) : string :=
  match s with
  | EmptyString => EmptyString
  | String c rest => if Ascii.eqb c " "%char then EmptyString else String c (firstWord rest)
  end.

(** The character class [[A-Za-z0-9_\.]] *)
Definition handleChar (c : ascii) : bool :=
  let n := nat_of_ascii c in
  (Nat.leb 65 n && Nat.leb n 90) || (Nat.leb 97 n && Nat.leb n 122)
  || (Nat.leb 48 n && Nat.leb n 57) || Nat.eqb n 95 || Nat.eqb n 46.

(** The longest prefix of class characters, and what follows it. *)
Fixpoint handleRun (s : string) : string * string :=
  match s with
  | EmptyString => (EmptyString, EmptyString)
  | String c rest =>
      if handleChar c then let '(run, tl) := handleRun rest in (String c run, tl)
      else (EmptyString, s)
  end.

Fixpoint dropPrefix (p s : string) : option string :=
  match p, s with
  | EmptyString, _ => Some s
  | String a p', String b s' => if Ascii.eqb a b then dropPrefix p' s' else None
  | String _ _, EmptyString => None
  end.

(** Every character is matched by [.] *)
Fixpoint noLineTerminator (s : string) : bool :=
  match s with
  | EmptyString => true
  | String c rest =>
      negb (Nat.eqb (nat_of_ascii c) 10) && negb (Nat.eqb (nat_of_ascii c) 13)
      && noLineTerminator rest
  end.

Definition nonEmpty (s : string) : bool :=
  match s with EmptyString => false | String _ _ => true end.

(** An unanchored pattern is tried at every position, leftmost first. *)
Fixpoint firstMatch (here : string → option string) (s : string) : option string :=
  match here s with
  | Some group => Some group
  | None =>
      match s with
      | EmptyString => None
      | String _ rest => firstMatch here rest
      end
  end.

(** [url.replace(/\/+$/, '')] *)
Fixpoint stripSlashes (s : string) : string :=
  match s with
  | EmptyString => EmptyString
  | String c rest =>
      let rest' := stripSlashes rest in
      if Ascii.eqb c "/"%char && negb (nonEmpty rest') then EmptyString else String c rest'
  end.

(** [s] without its last character, when that character is a slash. *)
Fixpoint dropFinalSlash (s : string) : option string :=
  match s with
  | EmptyString => None
  | String c EmptyString => if Ascii.eqb c "/"%char then Some EmptyString else None
  | String c rest => String c <$> dropFinalSlash rest
  end.

(** ** The outside world of a run *)

(** [instagram.init()] launches the browser first and opens a context and a
    page after; it may throw before or after the browser exists. *)
Inductive InitResult : Type := InitDone | InitThrows (launched : bool).
Inductive LoginResult : Type := LoginDone | LoginThrows.

(** What a run meets outside the messaging code.  [delivered], [clock] and
    [writable] are asked with the number of delivery attempts made so far:
    [delivered k username] is whether the browser automation gets attempt
    number [k] (counted from 0) through, [clock k] is the wall clock once [k]
    attempts have been made, [writable k] whether the history file can be
    written at that time. *)
Record World : Type := {
  initResult : InitResult;
  loginResult : LoginResult;
  delivered : nat → string → bool;
  clock : nat → Now;
  writable : nat → bool
}.

(** [private browser: Browser | null] *)
Inductive Browser : Type := NotLaunched | Open | Closed.

(** [async close() { if (this.browser) { await this.browser.close() } }] *)
Definition closeBrowser (b : Browser) : Browser :=
  match b with
  | NotLaunched => NotLaunched
  | Open | Closed => Closed
  end.

(** One call of [instagram.sendMessage] that reached the browser, with the
    restaurant it was made for. *)
Record Attempt : Type := {
  forRestaurant : string;
  toUsername : string;
  text : string;
  went : bool
}.

Definition pitch (firstWord : string) : string :=
  "Hello from Zoe! I help restaurants like " +:+ firstWord +:+
  " handle up to 100 calls a day, 30 at once, and send orders straight to your CRM, POS, or kitchen printer. Would you like to see a 60-second demo?".

(** ** send-dm.ts *)

Module Script.

(** [const messagedRestaurantsPath] is declared on the last line of the
    module, below the call of the main function.  That function runs without
    interruption up to its first [await] (line 660), so its call of
    [getMessageCounts] (line 640) reads the constant before it is initialised:
    the access throws a ReferenceError inside the [try] of the callee.  Every
    later access comes after an [await], when the module has been evaluated
    to its end. *)
Inductive PathBinding : Type := Uninitialised | Bound.

(** Lines 537-572; the [catch] logs and returns [{ hourly: 0, daily: 0 }]. *)
Definition getMessageCounts (path : PathBinding) (disk : HistoryFile) (now : Now) : Counts :=
  match path with
  | Uninitialised => {| hourly := 0; daily := 0 |}
  | Bound => default {| hourly := 0; daily := 0 |} (getMessageCounts_try disk now)
  end.

(** Lines 575-605; the [catch] logs and returns.  The result is the file
    after the call. *)
Definition saveMessagedRestaurant
    (path : PathBinding) (writable : bool) (disk : HistoryFile) (now : Now)
    (restaurantName : string) : HistoryFile :=
  match path with
  | Uninitialised => disk
  | Bound => default disk (saveMessagedRestaurant_try writable disk now restaurantName)
  end.

(** Lines 608-628; the [catch] logs and returns [false]. *)
Definition isRestaurantMessaged
    (path : PathBinding) (disk : HistoryFile) (restaurantName : string) : bool :=
  match path with
  | Uninitialised => false
  | Bound => default false (isRestaurantMessaged_try disk restaurantName)
  end.

(** Lines 106-127: three anchored patterns, tried in this order on the URL
    without its trailing slashes. *)
Definition regularProfile (s : string) : option string :=
  after ← dropPrefix "instagram.com/" s;
  let '(run, tl) := handleRun after in
  if nonEmpty run && (negb (nonEmpty tl) || String.eqb tl "/") then Some run else None.

Definition profileWithLanguage (s : string) : option string :=
  after ← dropPrefix "instagram.com/" s;
  let '(run, tl) := handleRun after in
  value ← dropPrefix "/?hl=" tl;
  if nonEmpty run && nonEmpty value && noLineTerminator value then Some run else None.

Definition locationPage (s : string) : option string :=
  after ← dropPrefix "instagram.com/explore/locations/" s;
  place ← dropFinalSlash after;
  if nonEmpty place && noLineTerminator place then Some place else None.

Definition extractInstagramUsername (url : string) : option string :=
  if nonEmpty url then
    let url := stripSlashes url in
    match firstMatch regularProfile url with
    | Some username => Some username
    | None =>
        match firstMatch profileWithLanguage url with
        | Some username => Some username
        | None => firstMatch locationPage url
        end
    end
  else None.

(** Lines 130-139; [variants] has one element, so the random index is 0. *)
Definition generateMessage (restaurant : Restaurant) : string :=
  pitch (firstWord (name restaurant)).

(** The [InstagramAutomation] object together with the history file. *)
Record Session : Type := {
  disk : HistoryFile;
  browser : Browser;
  dailyMessageCount : nat;
  attempts : list Attempt
}.

Definition MAX_DAILY_MESSAGES : nat := 100.

(** Lines 275-527.  Past the guard on [dailyMessageCount] the body is one
    [try] whose [catch] returns [false]; [this.page] is set once [init] has
    returned. *)
Definition sendMessage (w : World) (s : Session) (restaurantName username message : string)
    : bool * Session :=
  if decide (MAX_DAILY_MESSAGES ≤ dailyMessageCount s) then (false, s)
  else
    let success := delivered w (length (attempts s)) username in
    (success,
     {| disk := disk s;
        browser := browser s;
        dailyMessageCount := if success then S (dailyMessageCount s) else dailyMessageCount s;
        attempts := attempts s ++ [ {| forRestaurant := restaurantName; toUsername := username;
                                       text := message; went := success |} ] |}).

(** Lines 714-725:
<<
    let success = false; let retryCount = 0
    while (!success && retryCount < 2) { ...; success = await instagram.sendMessage(...); retryCount++ }
>>
    [remaining] is [2 - retryCount]. *)
Fixpoint sendWithRetries (w : World) (remaining : nat) (s : Session)
    (restaurantName username message : string) : bool * Session :=
  match remaining with
  | 0 => (false, s)
  | S remaining' =>
      let '(success, s') := sendMessage w s restaurantName username message in
      if success then (true, s')
      else sendWithRetries w remaining' s' restaurantName username message
  end.

(** The counters declared inside the loop over the locations (lines 668-669). *)
Record Tally : Type := { locationDMCount : nat; currentHourlyCount : nat }.

(** Lines 727-732: on success the restaurant is saved and both counters go
    up. *)
Definition recordSuccess (w : World) (t : Tally) (s : Session) (restaurantName : string)
    : Tally * Session :=
  let k := length (attempts s) in
  ({| locationDMCount := S (locationDMCount t);
      currentHourlyCount := S (currentHourlyCount t) |},
   {| disk := saveMessagedRestaurant Bound (writable w k) (disk s) (clock w k) restaurantName;
      browser := browser s;
      dailyMessageCount := dailyMessageCount s;
      attempts := attempts s |}).

(** Lines 672-739, the loop over the restaurants of one location. *)
Fixpoint messageRestaurants (w : World) (batchLimit : nat) (restaurants : Restaurants)
    (t : Tally) (s : Session) : Tally * Session :=
  match restaurants with
  | [] => (t, s)
  | (restaurantName, restaurant) :: rest =>
      if decide (25 ≤ currentHourlyCount t) then (t, s)
      else if decide (batchLimit ≤ locationDMCount t) then (t, s)
      else
        match instagramLink restaurant with
        | None => messageRestaurants w batchLimit rest t s
        | Some instagramURL =>
            if isRestaurantMessaged Bound (disk s) restaurantName
            then messageRestaurants w batchLimit rest t s
            else
              match extractInstagramUsername instagramURL with
              | None => messageRestaurants w batchLimit rest t s
              | Some username =>
                  let message := generateMessage restaurant in
                  let '(success, s1) := sendWithRetries w 2 s restaurantName username message in
                  let '(t2, s2) :=
                    if success then recordSuccess w t s1 restaurantName else (t, s1) in
                  messageRestaurants w batchLimit rest t2 s2
              end
        end
  end.

(** Lines 664-742, the loop over the locations: both counters start afresh
    for every location. *)
Fixpoint messageLocations (w : World) (hourly batchLimit : nat) (restaurantData : LocationData)
    (s : Session) : Session :=
  match restaurantData with
  | [] => s
  | (location, restaurants) :: rest =>
      let '(_, s') :=
        messageRestaurants w batchLimit restaurants
          {| locationDMCount := 0; currentHourlyCount := hourly |} s in
      messageLocations w hourly batchLimit rest s'
  end.

(** How the main function ends. *)
Inductive Ending : Type :=
| ExitedAtLimit   (* process.exit(0) before the browser is created *)
| Completed       (* the last line is reached *)
| Rejected.       (* an exception leaves the async function *)

Definition withBrowser (s : Session) (b : Browser) : Session :=
  {| disk := disk s; browser := b; dailyMessageCount := dailyMessageCount s;
     attempts := attempts s |}.

(** Lines 631-748. *)
Definition main (w : World) (restaurantData : LocationData) (onDisk : HistoryFile)
    : Ending * Session :=
  let s0 := {| disk := onDisk; browser := NotLaunched; dailyMessageCount := 0; attempts := [] |} in
  let counts := getMessageCounts Uninitialised onDisk (clock w 0) in
  if decide (25 ≤ hourly counts) then (ExitedAtLimit, s0)
  else if decide (100 ≤ daily counts) then (ExitedAtLimit, s0)
  else
    let hourlyRemaining := 25 - hourly counts in
    let dailyRemaining := 100 - daily counts in
    let batchLimit := hourlyRemaining `min` dailyRemaining in
    match initResult w with
    | InitThrows launched => (Rejected, withBrowser s0 (if launched then Open else NotLaunched))
    | InitDone =>
        let s1 := withBrowser s0 Open in
        match loginResult w with
        | LoginThrows => (Rejected, s1)
        | LoginDone =>
            let s2 := messageLocations w (hourly counts) batchLimit restaurantData s1 in
            (Completed, withBrowser s2 (closeBrowser (browser s2)))
        end
    end.

End Script.

(** ** send-dm.step.ts *)

Module Step.

Inductive Thrown : Type :=
| ReferenceError (identifier : string)
| BrowserInitializationFailed
| LoginFailed.

Inductive Completion (A : Type) : Type :=
| Normal (value : A)
| Throw (e : Thrown).
Arguments Normal {A} value.
Arguments Throw {A} e.

(** [logger] is bound only as a parameter: of [handler] (line 653), of
    [login] and of [sendMessage].  The three history functions are declared
    at module level, where the identifier resolves to nothing, so evaluating
    [logger.error(...)] in their [catch] clauses throws a ReferenceError
    before the [return] that follows it is reached. *)
Definition loggerUnbound : Thrown := ReferenceError "logger".

(** Lines 560-593. *)
Definition getMessageCounts (disk : HistoryFile) (now : Now) : Completion Counts :=
  match getMessageCounts_try disk now with
  | Some result => Normal result
  | None => Throw loggerUnbound
  end.

(** Lines 595-627.  The result is the file after the call. *)
Definition saveMessagedRestaurant
    (writable : bool) (disk : HistoryFile) (now : Now) (restaurantName : string)
    : Completion HistoryFile :=
  match saveMessagedRestaurant_try writable disk now restaurantName with
  | Some disk' => Normal disk'
  | None => Throw loggerUnbound
  end.

(** Lines 630-649. *)
Definition isRestaurantMessaged (disk : HistoryFile) (restaurantName : string)
    : Completion bool :=
  match isRestaurantMessaged_try disk restaurantName with
  | Some answer => Normal answer
  | None => Throw loggerUnbound
  end.

(** Lines 553-557: one pattern, not anchored at the end. *)
Definition profile (s : string) : option string :=
  after ← dropPrefix "instagram.com/" s;
  let '(run, _) := handleRun after in
  if nonEmpty run then Some run else None.

Definition extractInstagramUsername (url : string) : option string :=
  if nonEmpty url then firstMatch profile url else None.

(** Lines 548-551. *)
Definition generateMessage (restaurantName : string) : string :=
  pitch (firstWord restaurantName).

(** An element of [restaurantsToMessage]. *)
Record Candidate : Type := { name : string; instagramUrl : string }.

(** Lines 718-729: the loop that pushes the eligible restaurants onto
    [restaurantsToMessage]; [isRestaurantMessaged] is called for every entry. *)
Fixpoint collectCandidates (disk : HistoryFile) (entries : Restaurants)
    (restaurantsToMessage : list Candidate) : Completion (list Candidate) :=
  match entries with
  | [] => Normal restaurantsToMessage
  | (name, restaurant) :: rest =>
      let hasInstagram := instagramLink restaurant in
      match isRestaurantMessaged disk name with
      | Throw e => Throw e
      | Normal messaged =>
          match hasInstagram with
          | Some url =>
              if negb messaged
              then collectCandidates disk rest
                     (restaurantsToMessage ++ [ {| name := name; instagramUrl := url |} ])
              else collectCandidates disk rest restaurantsToMessage
          | None => collectCandidates disk rest restaurantsToMessage
          end
      end
  end.

(** The [InstagramAutomation] object together with the history file. *)
Record Session : Type := {
  disk : HistoryFile;
  browser : Browser;
  attempts : list Attempt
}.

(** Lines 291-539: the body is one [try] whose [catch] returns [false]. *)
Definition sendMessage (w : World) (s : Session) (restaurantName username message : string)
    : bool * Session :=
  let success := delivered w (length (attempts s)) username in
  (success,
   {| disk := disk s;
      browser := browser s;
      attempts := attempts s ++ [ {| forRestaurant := restaurantName; toUsername := username;
                                     text := message; went := success |} ] |}).

(** [let successCount = 0; let hourlyCount = hourly] (lines 795-796). *)
Record Progress : Type := { successCount : nat; hourlyCount : nat }.

(** Lines 798-839.  An exception of [saveMessagedRestaurant] is caught by the
    [catch (messageError)] of line 826, past the two increments. *)
Fixpoint sendAll (w : World) (messagesToSend : list Candidate) (p : Progress) (s : Session)
    : Progress * Session :=
  match messagesToSend with
  | [] => (p, s)
  | restaurant :: rest =>
      if decide (25 ≤ hourlyCount p) then (p, s)
      else
        match extractInstagramUsername (instagramUrl restaurant) with
        | None => sendAll w rest p s
        | Some username =>
            let message := generateMessage (name restaurant) in
            let '(success, s1) := sendMessage w s (name restaurant) username message in
            if success then
              let k := length (attempts s1) in
              match saveMessagedRestaurant (writable w k) (disk s1) (clock w k) (name restaurant) with
              | Normal disk' =>
                  sendAll w rest
                    {| successCount := S (successCount p); hourlyCount := S (hourlyCount p) |}
                    {| disk := disk'; browser := browser s1; attempts := attempts s1 |}
              | Throw _ => sendAll w rest p s1
              end
            else sendAll w rest p s1
        end
  end.

(** The data of the [dm.status.updated] event the handler emits. *)
Inductive Reason : Type :=
| HourlyLimitReached     (* 'Hourly DM limit reached' *)
| DailyLimitReached      (* 'Daily DM limit reached' *)
| Raised (e : Thrown).   (* the message of the exception caught at line 850 *)

Inductive Emitted : Type :=
| Summary (count : nat) (message : string)
| Failure (error : Reason) (count : nat).

Definition withBrowser (s : Session) (b : Browser) : Session :=
  {| disk := disk s; browser := b; attempts := attempts s |}.

(** Lines 664-849, the [try] block of the handler.  [locationRestaurants] is
    [allRestaurants[input.location.toLowerCase()] || {}]. *)
Definition campaign (w : World) (locationRestaurants : Restaurants) (s0 : Session)
    : Completion Emitted * Session :=
  match getMessageCounts (disk s0) (clock w 0) with
  | Throw e => (Throw e, s0)
  | Normal counts =>
      if decide (25 ≤ hourly counts) then (Normal (Failure HourlyLimitReached 0), s0)
      else if decide (100 ≤ daily counts) then (Normal (Failure DailyLimitReached 0), s0)
      else
        let hourlyRemaining := 25 - hourly counts in
        let dailyRemaining := 100 - daily counts in
        let batchLimit := hourlyRemaining `min` dailyRemaining in
        match collectCandidates (disk s0) locationRestaurants [] with
        | Throw e => (Throw e, s0)
        | Normal restaurantsToMessage =>
            match restaurantsToMessage with
            | [] => (Normal (Summary 0 "No restaurants to message"), s0)
            | _ :: _ =>
                let messagesToSend := take batchLimit restaurantsToMessage in
                match initResult w with
                | InitThrows launched =>
                    (Throw BrowserInitializationFailed,
                     withBrowser s0 (if launched then Open else NotLaunched))
                | InitDone =>
                    let s1 := withBrowser s0 Open in
                    match loginResult w with
                    | LoginThrows => (Throw LoginFailed, s1)
                    | LoginDone =>
                        let '(p, s2) :=
                          sendAll w messagesToSend
                            {| successCount := 0; hourlyCount := hourly counts |} s1 in
                        (Normal (Summary (successCount p)
                                   ("Successfully sent " +:+ pretty (successCount p) +:+ " DMs")),
                         s2)
                    end
                end
            end
        end
  end.

(** Lines 651-890: [try], the [catch] that reports the error with count 0,
    and the [finally] that closes the browser. *)
Definition handler (w : World) (locationRestaurants : Restaurants) (onDisk : HistoryFile)
    : Emitted * Session :=
  let s0 := {| disk := onDisk; browser := NotLaunched; attempts := [] |} in
  let '(outcome, s) := campaign w locationRestaurants s0 in
  let emitted :=
    match outcome with
    | Normal e => e
    | Throw e => Failure (Raised e) 0
    end in
  (emitted, withBrowser s (closeBrowser (browser s))).

End Step.

(** ** Vocabulary of the statements *)

(** The flag of [restaurantName] is set in the bucket of day [d], hour [h]. *)
Definition recordedAt (data : History) (d h restaurantName : string) : Prop :=
  ∃ (day : DayBucket) (names : HourBucket),
    data !! d = Some day ∧ day !! h = Some names ∧ names !! restaurantName = Some true.

(** The scan of [isRestaurantMessaged] finds [restaurantName] in the bucket
    of day [d], hour [h]: by its own flag or, without one, by an inherited
    property of that name. *)
Definition heldAt (data : History) (d h restaurantName : string) : Prop :=
  ∃ (day : DayBucket) (names : HourBucket),
    data !! d = Some day ∧ day !! h = Some names ∧ flagged names restaurantName = true.

(** The history file can be read and holds a record of [restaurantName]. *)
Definition messagedOn (disk : HistoryFile) (restaurantName : string) : Prop :=
  isRestaurantMessaged_try disk restaurantName = Some true.

(** No restaurant is flagged in two buckets. *)
Definition recordedOnce (disk : HistoryFile) : Prop :=
  match disk with
  | Parsed data =>
      ∀ restaurantName d1 h1 d2 h2,
        recordedAt data d1 h1 restaurantName → recordedAt data d2 h2 restaurantName →
        d1 = d2 ∧ h1 = h2
  | _ => True
  end.

(** The history file is absent or holds an object: the [try] blocks of the
    readers run to their end. *)
Definition readable (disk : HistoryFile) : bool :=
  match disk with
  | Missing | Parsed _ => true
  | Unreadable | InvalidJSON => false
  end.

(** The sum of the sizes of the hour buckets of a day. *)
Definition dayTotal (day : DayBucket) : nat :=
  sum_list_with (λ entry : string * HourBucket, size entry.2) (map_to_list day).

(** The hour bucket a save at time [now] writes into, as the file holds it. *)
Definition bucketOf (disk : HistoryFile) (now : Now) : HourBucket :=
  match disk with
  | Parsed data => default ∅ (default ∅ (data !! today now) !! currentHourKey now)
  | _ => ∅
  end.

(** The file changes only through writes of [saveMessagedRestaurant] that go
    through. *)
Inductive evolves : HistoryFile → HistoryFile → Prop :=
| evolves_refl disk : evolves disk disk
| evolves_save disk disk1 disk2 writable now restaurantName :
    evolves disk disk1 →
    saveMessagedRestaurant_try writable disk1 now restaurantName = Some disk2 →
    evolves disk disk2.

(** Candidate selection in the words of the specification: the leads with a
    profile link that the history does not hold, in the order of the input. *)
Definition eligible (disk : HistoryFile) (lead : string * Restaurant) : bool :=
  bool_decide (is_Some (instagramLink lead.2))
  && negb (default false (isRestaurantMessaged_try disk lead.1)).

Definition selectEligible_spec (disk : HistoryFile) (leads : Restaurants) : Restaurants :=
  filter (λ lead, eligible disk lead = true) leads.

Definition toCandidate (lead : string * Restaurant) : Step.Candidate :=
  {| Step.name := lead.1; Step.instagramUrl := default "" (instagramLink lead.2) |}.

(** Each name twice: the script may attempt a restaurant two times. *)
Definition twice (leads : Restaurants) : list string :=
  flat_map (λ lead : string * Restaurant, [lead.1; lead.1]) leads.

Definition failedAttempt (restaurantName username message : string) : Attempt :=
  {| forRestaurant := restaurantName; toUsername := username; text := message; went := false |}.

(** The session with further attempts in its log and nothing else changed. *)
Definition scriptLogged (s : Script.Session) (more : list Attempt) : Script.Session :=
  {| Script.disk := Script.disk s; Script.browser := Script.browser s;
     Script.dailyMessageCount := Script.dailyMessageCount s;
     Script.attempts := Script.attempts s ++ more |}.

Definition stepLogged (s : Step.Session) (more : list Attempt) : Step.Session :=
  {| Step.disk := Step.disk s; Step.browser := Step.browser s;
     Step.attempts := Step.attempts s ++ more |}.

Definition bumped (t : Script.Tally) : Script.Tally :=
  {| Script.locationDMCount := S (Script.locationDMCount t);
     Script.currentHourlyCount := S (Script.currentHourlyCount t) |}.

(** The sessions in which the loops start: the browser is open, nothing has
    been attempted. *)
Definition freshScriptSession (onDisk : HistoryFile) : Script.Session :=
  {| Script.disk := onDisk; Script.browser := Open; Script.dailyMessageCount := 0;
     Script.attempts := [] |}.

Definition freshStepSession (onDisk : HistoryFile) : Step.Session :=
  {| Step.disk := onDisk; Step.browser := Open; Step.attempts := [] |}.

(** ** Sample data *)

Definition lead (restaurantName url : string) : string * Restaurant :=
  (restaurantName,
   {| name := restaurantName; address := None; phoneNumber := None; website := None;
      googleReviews := None; menu := None;
      socialMedia := Some {| facebook := None; instagram := Some url; twitter := None;
                             linkedin := None |} |}).

Definition noLink (restaurantName : string) : string * Restaurant :=
  (restaurantName,
   {| name := restaurantName; address := None; phoneNumber := None; website := None;
      googleReviews := None; menu := None; socialMedia := None |}).

Definition tacoStand : string * Restaurant :=
  lead "Taco Stand" "https://www.instagram.com/tacostand".
Definition noodleBar : string * Restaurant :=
  lead "Noodle Bar" "https://www.instagram.com/noodlebar".

(** [n] leads named after [prefix], each with its own profile. *)
Definition leadsOf (prefix : string) (n : nat) : Restaurants :=
  (λ i, lead (prefix +:+ pretty i) ("https://www.instagram.com/" +:+ prefix +:+ pretty i))
    <$> seq 0 n.

(** Three leads A, B and C. *)
Definition leadsABC : Restaurants :=
  [lead "A" "https://www.instagram.com/a"; lead "B" "https://www.instagram.com/b";
   lead "C" "https://www.instagram.com/c"].

(** A location whose second restaurant has a number for a name. *)
Definition tacosAndSeven : Restaurants :=
  [tacoStand; lead "7" "https://www.instagram.com/seven"].

(** Two locations that list the same restaurant. *)
Definition twoCities : LocationData := [("austin", [tacoStand]); ("boston", [tacoStand])].

(** Twenty-five leads in one location and one more in a second location. *)
Definition twentySix : LocationData := [("austin", leadsOf "a" 25); ("boston", leadsOf "b" 1)].

Definition afternoon : Now := {| today := "2025-03-10"; currentHour := 14 |}.

(** Every delivery goes through, every write goes through, the clock stays
    within one hour. *)
Definition smoothWorld : World :=
  {| initResult := InitDone; loginResult := LoginDone; delivered := λ _ _, true;
     clock := λ _, afternoon; writable := λ _, true |}.

(** No delivery goes through. *)
Definition deafWorld : World :=
  {| initResult := InitDone; loginResult := LoginDone; delivered := λ _ _, false;
     clock := λ _, afternoon; writable := λ _, true |}.

(** The first write of the history file fails. *)
Definition fullDiskWorld : World :=
  {| initResult := InitDone; loginResult := LoginDone; delivered := λ _ _, true;
     clock := λ _, afternoon; writable := λ k, negb (Nat.eqb k 1) |}.

(** Logging in throws an error that is not a timeout. *)
Definition lockedOutWorld : World :=
  {| initResult := InitDone; loginResult := LoginThrows; delivered := λ _ _, true;
     clock := λ _, afternoon; writable := λ _, true |}.

(** A history whose only bucket is today's "14h", holding 25 names. *)
Definition fullHour : HourBucket :=
  list_to_map ((λ i, ("r" +:+ pretty i, true)) <$> seq 0 25).
Definition fullAfternoonDay : DayBucket := {[ "14h" := fullHour ]}.
Definition fullAfternoon : History := {[ "2025-03-10" := fullAfternoonDay ]}.

(** [n] names from number [start] on, each flagged. *)
Definition namesFrom (start n : nat) : HourBucket :=
  list_to_map ((λ i, ("r" +:+ pretty i, true)) <$> seq start n).

(** A history with 100 sends on one day: 25 under each of "10h" to "13h". *)
Definition fullDay : History :=
  {[ "2025-03-10" :=
       list_to_map [("10h", namesFrom 0 25); ("11h", namesFrom 25 25);
                    ("12h", namesFrom 50 25); ("13h", namesFrom 75 25)] ]}.

(** A history whose current hour bucket holds 23 names. *)
Definition almostFullHour : History :=
  {[ "2025-03-10" := {[ "14h" := namesFrom 0 23 ]} ]}.

(** 15 o'clock on the same day; every delivery and every write goes through. *)
Definition at15 : Now := {| today := "2025-03-10"; currentHour := 15 |}.
Definition laterWorld : World :=
  {| initResult := InitDone; loginResult := LoginDone; delivered := λ _ _, true;
     clock := λ _, at15; writable := λ _, true |}.

(** Deliveries to the account [a0] fail, all others go through. *)
Definition firstFailsWorld : World :=
  {| initResult := InitDone; loginResult := LoginDone;
     delivered := λ _ username, negb (String.eqb username "a0");
     clock := λ _, afternoon; writable := λ _, true |}.

(** A history with one earlier send in the current hour. *)
Definition oneSent : History := {[ "2025-03-10" := {[ "14h" := {[ "Old Diner" := true ]} ]} ]}.

(** A history that holds B. *)
Definition historyWithB : History := markMessaged ∅ afternoon "B".

(** ** Further vocabulary: strings *)

(** Every character is in the class [[A-Za-z0-9_\.]]. *)
Fixpoint allHandle (s : string) : bool :=
  match s with
  | EmptyString => true
  | String c rest => handleChar c && allHandle rest
  end.

(** The character [c] does not occur in [s]. *)
Fixpoint lacks (c : ascii) (s : string) : bool :=
  match s with
  | EmptyString => true
  | String d rest => negb (Ascii.eqb c d) && lacks c rest
  end.

(** [n] slashes. *)
Fixpoint slashes (n : nat) : string :=
  match n with
  | 0 => EmptyString
  | S n' => String "/"%char (slashes n')
  end.

(** The last character is a slash. *)
Fixpoint endsWithSlash (s : string) : bool :=
  match s with
  | EmptyString => false
  | String c EmptyString => Ascii.eqb c "/"%char
  | String _ rest => endsWithSlash rest
  end.

(** The string is empty or starts outside the class. *)
Definition stopsRun (s : string) : bool :=
  match s with
  | EmptyString => true
  | String c _ => negb (handleChar c)
  end.

(** The attempts that went through. *)
Definition successes (attempts : list Attempt) : nat :=
  length (filter (λ a, went a = true) attempts).

(** The attempts that did not. *)
Definition failures (attempts : list Attempt) : nat :=
  length (filter (λ a, went a = false) attempts).

(** The history after a sequence of saves into an empty file. *)
Definition replay (saves : list (Now * string)) : History :=
  foldl (λ data save, markMessaged data save.1 save.2) ∅ saves.

(** ** The order of [Object.entries]

    The members of a JSON object become own properties in the order in which
    the file lists them.  [Object.entries] and [Object.keys] enumerate the
    own keys that are array indices first, in ascending numeric order, and
    the other keys after them in the order of their creation. *)

(** The value of a string of decimal digits. *)
Fixpoint readDigits (s : string) (acc : N) : option N :=
  match s with
  | EmptyString => Some acc
  | String c rest =>
      let n := nat_of_ascii c in
      if Nat.leb 48 n && Nat.leb n 57
      then readDigits rest (acc * 10 + N.of_nat (n - 48))%N
      else None
  end.

(** [key] is an array index: the canonical decimal form of an integer from 0
    to 2^32 - 2. *)
Definition arrayIndex (key : string) : option N :=
  match readDigits key 0 with
  | Some n =>
      if bool_decide (pretty n = key) && bool_decide (n < 4294967295)%N then Some n else None
  | None => None
  end.

Definition indexOf {A : Type} (entry : string * A) : N := default 0%N (arrayIndex entry.1).

(** The entries of the object parsed from the members [written], whose names
    are pairwise distinct: those with an array index sorted by it, then the
    others as written. *)
Definition byIndex {A : Type} (a b : string * A) : Prop := (indexOf a ≤ indexOf b)%N.

#[global] Instance byIndex_dec {A : Type} (a b : string * A) : Decision (byIndex a b) :=
  decide (indexOf a ≤ indexOf b)%N.

Definition objectEntries {A : Type} (written : list (string * A)) : list (string * A) :=
  merge_sort byIndex
    (filter (λ entry : string * A, is_Some (arrayIndex entry.1)) written)
  ++ filter (λ entry : string * A, ¬ is_Some (arrayIndex entry.1)) written.

(** ** send-dm.step.ts: the daily counter file *)

Module DailyCount.

(** What the file system holds at [output/daily_dm_count.json], a
    [Record<string, number>] from dates to counts. *)
Inductive CountFile : Type :=
| NoCountFile                        (* fs.existsSync(...) is false *)
| UnreadableCounts                   (* fs.readFileSync throws *)
| InvalidCounts                      (* JSON.parse throws *)
| Counts (data : gmap string N).     (* the file holds this object *)

(** 2^53: below it every integer is a number and [+ 1] is exact. *)
Definition exactBelow : N := 9007199254740992.

(** Lines 97-110: [data[today] || 0]; the [catch] logs and 0 is returned.
    [today] is the date part of [toISOString], which is no name of a
    property of [Object.prototype]. *)
Definition getDailyDMCount (disk : CountFile) (today : string) : N :=
  match disk with
  | Counts data => default 0%N (data !! today)
  | NoCountFile | UnreadableCounts | InvalidCounts => 0%N
  end.

(** Lines 113-136.  The result is the number returned and the file after the
    call; the [catch] logs and returns 0.  At 2^53 the sum
    [currentCount + 1] is rounded back to 2^53.  [None]: the count read is
    above 2^53 and the file is written; the sum is then rounded to a
    neighbouring number, which this model does not compute. *)
Definition incrementDailyDMCount (writable : bool) (disk : CountFile) (today : string)
    : option (N * CountFile) :=
  let go (data : gmap string N) :=
    let currentCount := default 0%N (data !! today) in
    if writable then
      if decide (currentCount < exactBelow)%N
      then Some ((currentCount + 1)%N, Counts (<[today := (currentCount + 1)%N]> data))
      else if decide (currentCount = exactBelow)
      then Some (currentCount, Counts (<[today := currentCount]> data))
      else None
    else Some (0%N, disk) in
  match disk with
  | NoCountFile => go ∅
  | Counts data => go data
  | UnreadableCounts | InvalidCounts => Some (0%N, disk)
  end.

(** [k] calls in a row on the same day, each with a write that goes through:
    the numbers returned, oldest first, and the file at the end. *)
Fixpoint incrementTimes (k : nat) (disk : CountFile) (today : string)
    : option (list N * CountFile) :=
  match k with
  | 0 => Some ([], disk)
  | S k' =>
      '(n, disk') ← incrementDailyDMCount true disk today;
      '(ns, disk'') ← incrementTimes k' disk' today;
      Some (n :: ns, disk'')
  end.

End DailyCount.

(** ** migrate-data.ts *)

Module Migrate.

(** The values of [dm_status] the migration writes. *)
Inductive DmStatus : Type := pending_dm | dm_sent.

(** The object passed to [upsertRestaurant] (lines 28-41). *)
Record Row : Type := {
  name : string;
  location : string;
  address : option string;
  phone_number : option string;
  website : option string;
  google_reviews : option string;
  menu_url : option string;
  instagram_url : option string;
  facebook_url : option string;
  twitter_url : option string;
  linkedin_url : option string;
  dm_status : DmStatus
}.

(** The parsed content of [messaged_restaurants.json] in the two layouts the
    repository writes: the flat [Record<string, boolean>] of
    [saveMessagedRestaurants] (send-dm.step.ts, line 60) and the nested
    day -> hour -> name object of [saveMessagedRestaurant]. *)
Inductive MessagedData : Type :=
| FlatFlags (flags : gmap string bool)
| NestedHistory (data : History).

(** The truth value of [messagedData[name]] (line 39): an own property wins,
    a flag by its value and, in the nested layout, the object of a day as
    true; without an own property the look-up goes to the prototype. *)
Definition listed (messagedData : MessagedData) (restaurantName : string) : bool :=
  match messagedData with
  | FlatFlags flags =>
      match flags !! restaurantName with
      | Some flag => flag
      | None => inherited restaurantName
      end
  | NestedHistory data =>
      match data !! restaurantName with
      | Some _ => true
      | None => inherited restaurantName
      end
  end.

(** [restaurant.socialMedia?.facebook] and the like. *)
Definition social (restaurant : Restaurant) (field : SocialMedia → option string)
    : option string :=
  sm ← socialMedia restaurant; field sm.

(** Lines 28-41. *)
Definition restaurantData (messagedData : MessagedData) (location restaurantName : string)
    (restaurant : Restaurant) : Row :=
  let '(Build_Restaurant _ address phoneNumber website googleReviews menu _) := restaurant in
  {| name := restaurantName;
     location := location;
     address := address;
     phone_number := phoneNumber;
     website := website;
     google_reviews := googleReviews;
     menu_url := menu;
     instagram_url := social restaurant instagram;
     facebook_url := social restaurant facebook;
     twitter_url := social restaurant twitter;
     linkedin_url := social restaurant linkedin;
     dm_status := if listed messagedData restaurantName then dm_sent else pending_dm |}.

(** Lines 26-46, the two nested loops: the rows passed to [upsertRestaurant],
    in the order of the calls, when no call throws. *)
Definition migrateData (restaurantsData : LocationData) (messagedData : MessagedData)
    : list Row :=
  flat_map (λ entry : string * Restaurants,
    (λ lead : string * Restaurant, restaurantData messagedData entry.1 lead.1 lead.2)
      <$> entry.2) restaurantsData.

(** The columns of [onConflict: 'name,location'] in [upsertRestaurant]
    (services/supabase.service.ts), the key under which a row replaces an
    earlier one. *)
Definition conflictKey (row : Row) : string * string := (name row, location row).

End Migrate.

(** ** restaurants.json in the scrape and enrichment steps *)

(** [object[key]] among the own entries of an object. *)
Fixpoint getKey {A : Type} (key : string) (entries : list (string * A)) : option A :=
  match entries with
  | [] => None
  | (k, v) :: rest => if decide (k = key) then Some v else getKey key rest
  end.

(** [object[key] = value] on own entries: an existing key keeps its place, a
    new one goes to the end (the order of [Object.entries] and
    [JSON.stringify] for keys that are no array indices). *)
Fixpoint setKey {A : Type} (key : string) (value : A) (entries : list (string * A))
    : list (string * A) :=
  match entries with
  | [] => [(key, value)]
  | (k, v) :: rest =>
      if decide (k = key) then (key, value) :: rest else (k, v) :: setKey key value rest
  end.

(** [object[key] = value] for a key taken from data: the key [__proto__]
    names an own entry only when the object already owns one (as
    [JSON.parse] can create); otherwise the assignment goes to the setter of
    [Object.prototype] and creates no entry. *)
Definition assign {A : Type} (key : string) (value : A) (entries : list (string * A))
    : list (string * A) :=
  match getKey key entries with
  | Some _ => setKey key value entries
  | None => if decide (key = "__proto__") then entries else setKey key value entries
  end.

(** [output/restaurants.json] on disk. *)
Inductive StoreFile : Type :=
| NoStore | UnreadableStore | InvalidStore | Stored (data : LocationData).

(** [loadRestaurants] (scrape-restaurants.step.ts, lines 43-53; the
    enrichment step has the same function): the empty object when the file
    is absent, unreadable or does not parse. *)
Definition loadRestaurants (disk : StoreFile) : LocationData :=
  match disk with
  | Stored data => data
  | NoStore | UnreadableStore | InvalidStore => []
  end.

(** [saveRestaurants] (lines 56-65): a failed write is logged and leaves the
    file as it was. *)
Definition saveRestaurants (writable : bool) (disk : StoreFile) (restaurants : LocationData)
    : StoreFile :=
  if writable then Stored restaurants else disk.

(** Every entry is stored under the name it carries. *)
Definition keyedByName (entries : Restaurants) : Prop :=
  ∀ key restaurant, (key, restaurant) ∈ entries → name restaurant = key.

(** The keys of the file are pairwise distinct at both levels, as those of
    parsed objects are, and every restaurant is stored under its name. *)
Definition wellKeyed (data : LocationData) : Prop :=
  NoDup data.*1
  ∧ ∀ location entries, (location, entries) ∈ data → NoDup entries.*1 ∧ keyedByName entries.

(** ** scrape-restaurants.step.ts *)

(** A JavaScript number as the step uses [maxRestaurants]: compared with a
    count and diminished by a count.  A finite double is the rational it
    stands for.  The difference [x - n] is taken exactly: the difference of
    the doubles is exact when [0 <= n < x < 2^53], it has the sign of the
    exact one always, and for [x >= 2^53] both exceed every length an array
    can have, the count [n] being such a length. *)
Inductive JsNumber : Type := NaN | MinusInfinity | Finite (q : Qc) | PlusInfinity.

Definition ofCount (n : nat) : Qc := Qc_of_Z (Z.of_nat n).

(** [n < x] for a count [n] *)
Definition countBelow (n : nat) (x : JsNumber) : bool :=
  match x with
  | NaN | MinusInfinity => false
  | Finite q => bool_decide (ofCount n < q)%Qc
  | PlusInfinity => true
  end.

(** [x - n] for a count [n] *)
Definition minusCount (x : JsNumber) (n : nat) : JsNumber :=
  match x with
  | Finite q => Finite (q - ofCount n)%Qc
  | other => other
  end.

(** [x <= 0] *)
Definition notPositive (x : JsNumber) : bool :=
  match x with
  | NaN | PlusInfinity => false
  | MinusInfinity => true
  | Finite q => bool_decide (q ≤ ofCount 0)%Qc
  end.

(** [x <= n] for a count [n] *)
Definition atMostCount (x : JsNumber) (n : nat) : bool :=
  match x with
  | NaN | PlusInfinity => false
  | MinusInfinity => true
  | Finite q => bool_decide (q ≤ ofCount n)%Qc
  end.

(** The number that an integer literal denotes. *)
Definition integer (n : Z) : JsNumber := Finite (Qc_of_Z n).

Module Scrape.

(** How the start of the handler goes: [chromium.launch] is outside the
    [try], [newContext] and [newPage] are inside. *)
Inductive BrowserStart : Type := LaunchThrows | ContextThrows | PageReady.

(** The data of the event [restaurants.scraped]. *)
Inductive Emitted : Type :=
| Scraped (count : nat) (message : string)
| ScrapeError (count : nat).

Inductive Ending : Type :=
| Emits (event : Emitted)
| Rejects.   (* the exception of [chromium.launch] leaves the handler *)

Section WithLowerCase.

(** [String.prototype.toLowerCase] *)
Variable toLowerCase : string → string.

(** Lines 68-71.  Without an own entry the value is [{}] or a member of
    [Object.prototype], which has no own enumerable keys either. *)
Definition getRestaurantsByLocation (disk : StoreFile) (location : string) : Restaurants :=
  default [] (getKey (toLowerCase location) (loadRestaurants disk)).

(** Lines 74-87.  [None]: the location key is an inherited property, so that
    the restaurant is assigned to a built-in object of the process, which
    this model does not follow. *)
Definition addRestaurant (writable : bool) (disk : StoreFile) (restaurant : Restaurant)
    (location : string) : option StoreFile :=
  let allRestaurants := loadRestaurants disk in
  let locationKey := toLowerCase location in
  match getKey locationKey allRestaurants with
  | Some entries =>
      Some (saveRestaurants writable disk
              (setKey locationKey (assign (name restaurant) restaurant entries) allRestaurants))
  | None =>
      if inherited locationKey then None
      else
        Some (saveRestaurants writable disk
                (setKey locationKey (assign (name restaurant) restaurant []) allRestaurants))
  end.

(** Lines 191-264.  [outcomes] are the results of [extractRestaurantDetails]
    for the result elements in the order the loops click them, as far as the
    page and the fifteen scroll attempts provide them ([None]: [null], or the
    click threw); every push is guarded by
    [restaurants.length < maxRestaurants]. *)
Fixpoint searchRestaurants (outcomes : list (option Restaurant)) (maxRestaurants : JsNumber)
    (restaurants : list Restaurant) : list Restaurant :=
  match outcomes with
  | [] => restaurants
  | outcome :: rest =>
      if countBelow (length restaurants) maxRestaurants then
        match outcome with
        | Some restaurant =>
            if decide (name restaurant = "Unknown Restaurant")
            then searchRestaurants rest maxRestaurants restaurants
            else searchRestaurants rest maxRestaurants (restaurants ++ [restaurant])
        | None => searchRestaurants rest maxRestaurants restaurants
        end
      else restaurants
  end.

(** Lines 300-302; [writable k] tells whether the write of call number [k]
    goes through. *)
Fixpoint addAll (writable : nat → bool) (k : nat) (disk : StoreFile)
    (restaurants : list Restaurant) (location : string) : option StoreFile :=
  match restaurants with
  | [] => Some disk
  | restaurant :: rest =>
      disk' ← addRestaurant (writable k) disk restaurant location;
      addAll writable (S k) disk' rest location
  end.

(** Lines 266-328.  [maxRestaurants] is whatever number the event carries:
    the schema asks for [z.number()] only. *)
Definition handler (start : BrowserStart) (outcomes : list (option Restaurant))
    (writable : nat → bool) (disk : StoreFile) (location : string)
    (maxRestaurants : JsNumber) : option (Ending * StoreFile) :=
  match start with
  | LaunchThrows => Some (Rejects, disk)
  | ContextThrows => Some (Emits (ScrapeError 0), disk)
  | PageReady =>
      let existingRestaurants := getRestaurantsByLocation disk location in
      let existingCount := length existingRestaurants in
      let restaurantsNeeded := minusCount maxRestaurants existingCount in
      if notPositive restaurantsNeeded then
        Some (Emits (Scraped existingCount "No new restaurants needed"), disk)
      else
        let restaurants := searchRestaurants outcomes restaurantsNeeded [] in
        disk' ← addAll writable 0 disk restaurants location;
        Some (Emits (Scraped (length restaurants)
                       ("Successfully scraped " +:+ pretty (length restaurants)
                        +:+ " restaurants")),
              disk')
  end.

End WithLowerCase.

End Scrape.

(** ** The enrichment step (steps/enrich-leads.step.ts) *)

Module Enrich.

(** The parts of the search answer that the step reads. *)
Record SearchResult : Type := { link : option string; snippet : option string }.
Record Profile : Type := { profileName : option string; profileLink : option string }.
Record SearchData : Type := {
  organic_results : option (list SearchResult);
  social_profiles : option (list Profile)   (* knowledge_graph?.social_profiles *)
}.

(** What a call of [findSocialMediaLinks] meets: no API key in the
    environment, a request that throws or is not ok, or a parsed answer. *)
Inductive Response : Type := NoApiKey | RequestFails | Answer (data : SearchData).

(** [/instagram\.com\/([a-zA-Z0-9._]+)/] at the start of [s]: the matched
    text, [match[0]]. *)
Definition instagramAt (s : string) : option string :=
  after ← dropPrefix "instagram.com/" s;
  let '(run, _) := handleRun after in
  if nonEmpty run then Some ("instagram.com/" +:+ run) else None.

Definition instagramRegex (s : string) : option string := firstMatch instagramAt s.

(** [s.includes(needle)] *)
Definition includes (needle s : string) : bool :=
  match firstMatch (dropPrefix needle) s with
  | Some _ => true
  | None => false
  end.

(** [text?.match(instagramRegex)] *)
Definition matchIn (text : option string) : option string :=
  t ← text; instagramRegex t.

(** Lines 95-108, the loop over the organic results. *)
Fixpoint fromOrganic (results : list SearchResult) : option string :=
  match results with
  | [] => None
  | result :: rest =>
      match matchIn (link result) with
      | Some _ => link result
      | None =>
          match matchIn (snippet result) with
          | Some matched => Some ("https://" +:+ matched)
          | None => fromOrganic rest
          end
      end
  end.

(** The predicate of [social_profiles.find] (line 113). *)
Definition isInstagramProfile (profile : Profile) : bool :=
  bool_decide (profileName profile = Some "Instagram")
  || match profileLink profile with
     | Some url => includes "instagram.com" url
     | None => false
     end.

(** Lines 111-119. *)
Definition fromKnowledgeGraph (profiles : list Profile) : option string :=
  match List.find isInstagramProfile profiles with
  | Some profile =>
      match profileLink profile with
      | Some url => if nonEmpty url then Some url else None
      | None => None
      end
  | None => None
  end.

(** Lines 69-137: the object returned has at most the property [instagram]. *)
Definition findSocialMediaLinks (response : Response) : SocialMedia :=
  let found :=
    match response with
    | Answer data =>
        let organic :=
          match organic_results data with
          | Some results => fromOrganic results
          | None => None
          end in
        match organic with
        | Some url => Some url
        | None =>
            match social_profiles data with
            | Some profiles => fromKnowledgeGraph profiles
            | None => None
            end
        end
    | NoApiKey | RequestFails => None
    end in
  {| facebook := None; instagram := found; twitter := None; linkedin := None |}.

(** The data of the event [restaurants.enriched]. *)
Record Emitted : Type := { count : nat; message : string }.

(** [!restaurant.socialMedia] *)
Definition needsEnrichment (entry : string * Restaurant) : bool :=
  match socialMedia entry.2 with
  | Some _ => false
  | None => true
  end.

(** [restaurant.socialMedia = socialMedia] *)
Definition withSocialMedia (restaurant : Restaurant) (found : SocialMedia) : Restaurant :=
  let '(Build_Restaurant name address phoneNumber website googleReviews menu _) := restaurant in
  Build_Restaurant name address phoneNumber website googleReviews menu (Some found).

(** Lines 176-189, the loop over [restaurantsToEnrich].  [entries] is the
    object [allRestaurants[locationKey]], which the loop updates in place;
    [search k restaurantName] is what call number [k] of
    [findSocialMediaLinks] meets.  The stored restaurant is addressed by the
    name it carries: without an entry of that name the assignment throws and
    the [catch] goes on to the next restaurant.  [None]: the name is an
    inherited property, so that the links are assigned to a built-in object
    of the process, which this model does not follow. *)
Fixpoint enrichAll (search : nat → string → Response) (k : nat)
    (restaurantsToEnrich : list Restaurant) (entries : Restaurants) (enrichedCount : nat)
    : option (Restaurants * nat) :=
  match restaurantsToEnrich with
  | [] => Some (entries, enrichedCount)
  | restaurant :: rest =>
      let found := findSocialMediaLinks (search k (name restaurant)) in
      match getKey (name restaurant) entries with
      | Some stored =>
          enrichAll search (S k) rest
            (setKey (name restaurant) (withSocialMedia stored found) entries)
            (S enrichedCount)
      | None =>
          if inherited (name restaurant) then None
          else enrichAll search (S k) rest entries enrichedCount
      end
  end.

Section WithLowerCase.

Variable toLowerCase : string → string.

(** Lines 139-212.  The restaurants pushed onto [restaurantsToEnrich] are
    [{ name, location, ...restaurant }], where the name the stored object
    carries replaces the key.  Without an own entry for the location there
    is nothing to enrich. *)
Definition handler (search : nat → string → Response) (writable : bool) (disk : StoreFile)
    (location : string) : option (Emitted * StoreFile) :=
  let allRestaurants := loadRestaurants disk in
  let locationKey := toLowerCase location in
  let locationRestaurants := default [] (getKey locationKey allRestaurants) in
  let restaurantsToEnrich := snd <$> filter (λ entry, needsEnrichment entry = true)
                                       locationRestaurants in
  if decide (length restaurantsToEnrich = 0) then
    Some ({| count := 0; message := "No restaurants to enrich" |}, disk)
  else
    '(entries, enrichedCount) ← enrichAll search 0 restaurantsToEnrich locationRestaurants 0;
    Some ({| count := enrichedCount;
             message := "Successfully enriched " +:+ pretty enrichedCount +:+ " restaurants" |},
          saveRestaurants writable disk (setKey locationKey entries allRestaurants)).

End WithLowerCase.

End Enrich.

(** ** scrape-restaurants.ts *)

Module ScrapeScript.

Section WithLowerCase.

Variable toLowerCase : string → string.

(** Lines 83-98: the empty object when the file is absent, unreadable or
    does not parse, or has no entry for the location. *)
Definition getExistingRestaurants (disk : StoreFile) (location : string) : Restaurants :=
  default [] (getKey (toLowerCase location) (loadRestaurants disk)).

(** Lines 533-539: the restaurants by name, those without a name left out. *)
Definition formattedData (restaurants : list Restaurant) : Restaurants :=
  foldl (λ formatted restaurant,
           if nonEmpty (name restaurant)
           then assign (name restaurant) restaurant formatted
           else formatted)
        [] restaurants.

(** Lines 516-566.  An unreadable or malformed file counts as empty (the
    inner [catch]); a failure to create the directory or to write is logged
    by the outer [catch] and leaves the file as it was. *)
Definition saveResults (writable : bool) (disk : StoreFile) (location : string)
    (restaurants : list Restaurant) : StoreFile :=
  let allData := loadRestaurants disk in
  if writable
  then Stored (assign (toLowerCase location) (formattedData restaurants) allData)
  else disk.

End WithLowerCase.

End ScrapeScript.

(** ** Sample data of the store *)

(** Lower case for the letters A to Z. *)
Fixpoint asciiLower (s : string) : string :=
  match s with
  | EmptyString => EmptyString
  | String c rest =>
      let n := nat_of_ascii c in
      String (if Nat.leb 65 n && Nat.leb n 90 then ascii_of_nat (n + 32) else c)
             (asciiLower rest)
  end.

Definition scraped (restaurantName : string) : Restaurant :=
  (noLink restaurantName).2.

(** * Properties *)

(** ** The history object *)

Lemma flagged_own (names : HourBucket) N : names !! N = Some true → flagged names N = true.
Proof. unfold flagged. by intros ->. Qed.

Lemma flagged_true (names : HourBucket) N :
  inherited N = false → flagged names N = true ↔ names !! N = Some true.
Proof. unfold flagged. intros ->. destruct (names !! N) as [[]|]; split; congruence. Qed.

Lemma scanHistory_true (data : History) N :
  scanHistory data N = true ↔ ∃ d h, heldAt data d h N.
Proof.
  unfold scanHistory, heldAt. rewrite existsb_exists. split.
  - intros [[d day] [Hd Hex]]. apply existsb_exists in Hex as [[h names] [Hh Hf]].
    simpl in *. apply list_elem_of_In, elem_of_map_to_list in Hd, Hh. eauto 10.
  - intros (d & h & day & names & Hd & Hh & Hn).
    exists (d, day). split; [by apply list_elem_of_In, elem_of_map_to_list|].
    apply existsb_exists. exists (h, names).
    split; [by apply list_elem_of_In, elem_of_map_to_list | done].
Qed.

Lemma recordedAt_heldAt data d h N : recordedAt data d h N → heldAt data d h N.
Proof.
  intros (day & names & Hd & Hh & Hn). exists day, names.
  split; [done|]. split; [done | by apply flagged_own].
Qed.

Lemma heldAt_recordedAt data d h N :
  inherited N = false → heldAt data d h N → recordedAt data d h N.
Proof.
  intros Hown (day & names & Hd & Hh & Hn). exists day, names.
  split; [done|]. split; [done | by apply flagged_true].
Qed.

(** What [names[restaurantName] = true] does to a bucket. *)
Lemma setFlag_insert (names : HourBucket) N :
  N ≠ "__proto__" → setFlag names N = <[N := true]> names.
Proof. intros Hne. unfold setFlag. destruct (names !! N); [done|]. by rewrite decide_False. Qed.

Lemma setFlag_cases (names : HourBucket) N :
  setFlag names N = <[N := true]> names
  ∨ (setFlag names N = names ∧ N = "__proto__" ∧ names !! N = None).
Proof.
  unfold setFlag. destruct (names !! N) eqn:E; [by left|].
  case_decide; [by right | by left].
Qed.

Lemma setFlag_other (names : HourBucket) N M :
  M ≠ N → setFlag names N !! M = names !! M.
Proof.
  intros Hne. destruct (setFlag_cases names N) as [->|[-> _]]; [|done].
  by rewrite lookup_insert_ne.
Qed.

Lemma setFlag_flagged (names : HourBucket) N : flagged (setFlag names N) N = true.
Proof.
  destruct (setFlag_cases names N) as [->|(-> & -> & Hnone)]; unfold flagged.
  - by rewrite lookup_insert_eq.
  - by rewrite Hnone.
Qed.

Lemma setFlag_keeps_flagged (names : HourBucket) N M :
  flagged names M = true → flagged (setFlag names N) M = true.
Proof.
  intros Hm. destruct (decide (M = N)) as [->|Hne]; [apply setFlag_flagged|].
  unfold flagged. by rewrite setFlag_other.
Qed.

Lemma setFlag_keeps_own (names : HourBucket) N M :
  names !! M = Some true → setFlag names N !! M = Some true.
Proof.
  intros Hm. destruct (decide (M = N)) as [->|Hne]; [|by rewrite setFlag_other].
  unfold setFlag. rewrite Hm. by rewrite lookup_insert_eq.
Qed.

Lemma setFlag_only (names : HourBucket) N M :
  setFlag names N !! M = Some true → M = N ∨ names !! M = Some true.
Proof.
  destruct (decide (M = N)) as [->|Hne]; [by left|]. rewrite setFlag_other by done. by right.
Qed.

Lemma setFlag_size (names : HourBucket) N :
  size names ≤ size (setFlag names N) ≤ S (size names).
Proof.
  destruct (setFlag_cases names N) as [->|[-> _]]; [|lia].
  destruct (names !! N) eqn:E.
  - rewrite map_size_insert_Some by (by rewrite E). lia.
  - rewrite map_size_insert_None by done. lia.
Qed.

Lemma setFlag_size_new (names : HourBucket) N :
  N ≠ "__proto__" → names !! N = None → size (setFlag names N) = S (size names).
Proof. intros Hne Hnew. rewrite setFlag_insert by done. by rewrite map_size_insert_None. Qed.

Lemma markMessaged_today data now N :
  markMessaged data now N !! today now
  = Some (<[currentHourKey now :=
              setFlag (default ∅ (default ∅ (data !! today now) !! currentHourKey now)) N]>
            (default ∅ (data !! today now))).
Proof. unfold markMessaged. apply lookup_insert_eq. Qed.

Lemma markMessaged_holds data now N :
  heldAt (markMessaged data now N) (today now) (currentHourKey now) N.
Proof.
  eexists _, _. rewrite markMessaged_today. split; [done|].
  rewrite lookup_insert_eq. split; [done | apply setFlag_flagged].
Qed.

Lemma markMessaged_records data now N :
  N ≠ "__proto__" → recordedAt (markMessaged data now N) (today now) (currentHourKey now) N.
Proof.
  intros Hne. eexists _, _. rewrite markMessaged_today. split; [done|].
  rewrite lookup_insert_eq. split; [done|]. rewrite setFlag_insert by done.
  apply lookup_insert_eq.
Qed.

(** A save keeps what a bucket held: the buckets other than the current one
    are untouched, the current one gets [setFlag]. *)
Lemma markMessaged_bucket data now N d h day names :
  data !! d = Some day → day !! h = Some names →
  ∃ day' names', markMessaged data now N !! d = Some day' ∧ day' !! h = Some names'
    ∧ (names' = names ∨ names' = setFlag names N).
Proof.
  intros Hd Hh. unfold markMessaged.
  destruct (decide (today now = d)) as [->|Hne].
  - rewrite lookup_insert_eq, Hd. simpl.
    destruct (decide (currentHourKey now = h)) as [->|Hne'].
    + eexists _, _. split; [done|]. rewrite lookup_insert_eq, Hh. simpl. by eauto.
    + eexists _, _. split; [done|]. rewrite lookup_insert_ne by done. eauto.
  - rewrite lookup_insert_ne by done. eauto 10.
Qed.

Lemma markMessaged_keeps data now N d h M :
  recordedAt data d h M → recordedAt (markMessaged data now N) d h M.
Proof.
  intros (day & names & Hd & Hh & Hn).
  destruct (markMessaged_bucket data now N d h day names Hd Hh)
    as (day' & names' & Hd' & Hh' & Hcase); exists day', names'.
  split; [done|]. split; [done|]. destruct Hcase as [->| ->]; [done|].
  by apply setFlag_keeps_own.
Qed.

Lemma markMessaged_keeps_held data now N d h M :
  heldAt data d h M → heldAt (markMessaged data now N) d h M.
Proof.
  intros (day & names & Hd & Hh & Hn).
  destruct (markMessaged_bucket data now N d h day names Hd Hh)
    as (day' & names' & Hd' & Hh' & Hcase); exists day', names'.
  split; [done|]. split; [done|]. destruct Hcase as [->| ->]; [done|].
  by apply setFlag_keeps_flagged.
Qed.

Lemma markMessaged_only data now N d h M :
  recordedAt (markMessaged data now N) d h M →
  (d = today now ∧ h = currentHourKey now ∧ M = N) ∨ recordedAt data d h M.
Proof.
  unfold recordedAt, markMessaged. intros (day & names & Hd & Hh & Hn).
  destruct (decide (today now = d)) as [<-|Hne]; [|rewrite lookup_insert_ne in Hd by done; eauto 10].
  rewrite lookup_insert_eq in Hd. injection Hd as <-.
  destruct (decide (currentHourKey now = h)) as [<-|Hne'].
  - rewrite lookup_insert_eq in Hh. injection Hh as <-.
    apply setFlag_only in Hn as [->|Hn]; [by left|].
    right. destruct (data !! today now) as [day|] eqn:E; simpl in *; [|by rewrite lookup_empty in Hn].
    destruct (day !! currentHourKey now) as [names|] eqn:E'; simpl in *; [|by rewrite lookup_empty in Hn].
    eauto 10.
  - rewrite lookup_insert_ne in Hh by done. right.
    destruct (data !! today now) as [day|] eqn:E; simpl in *; [|by rewrite lookup_empty in Hh].
    eauto 10.
Qed.

(** ** Counting *)

(** The loop over the hour buckets, for a fixed key of the current hour. *)
Section Tally.
Variable key : string.

Lemma tally_fold (l : list (string * HourBucket)) : ∀ acc,
  daily (foldl (tallyHour key) acc l) = daily acc + sum_list_with (λ e, size e.2) l.
Proof.
  induction l as [|e l IH]; intros acc; simpl; [lia|]. rewrite IH. simpl. lia.
Qed.

Lemma tally_fold_absent (l : list (string * HourBucket)) : ∀ acc,
  key ∉ l.*1 → hourly (foldl (tallyHour key) acc l) = hourly acc.
Proof.
  induction l as [|[k v] l IH]; intros acc Hk; simpl; [done|].
  rewrite fmap_cons, not_elem_of_cons in Hk. destruct Hk as [Hne Hk].
  rewrite IH by done. simpl. by rewrite decide_False by done.
Qed.

Lemma tally_fold_present (l : list (string * HourBucket)) v : ∀ acc,
  NoDup l.*1 → (key, v) ∈ l → hourly (foldl (tallyHour key) acc l) = size v.
Proof.
  induction l as [|[k w] l IH]; intros acc Hnd Hin; [by apply not_elem_of_nil in Hin|].
  rewrite fmap_cons in Hnd. apply NoDup_cons in Hnd as [Hk Hnd].
  apply elem_of_cons in Hin as [Heq|Hin]; simpl.
  - injection Heq as <- <-. rewrite tally_fold_absent by done. simpl. by rewrite decide_True.
  - by apply IH.
Qed.

End Tally.

Lemma tallyDay_daily day key : daily (tallyDay day key) = dayTotal day.
Proof. unfold tallyDay. by rewrite tally_fold. Qed.

Lemma tallyDay_hourly (day : gmap string (gmap string bool)) key :
  hourly (tallyDay day key) = from_option size 0 (day !! key).
Proof.
  unfold tallyDay. destruct (day !! key) as [v|] eqn:E; simpl.
  - apply tally_fold_present; [apply NoDup_fst_map_to_list | by apply elem_of_map_to_list].
  - rewrite tally_fold_absent; [done|].
    intros ([k v] & -> & Hin)%list_elem_of_fmap. apply elem_of_map_to_list in Hin. simpl in *. congruence.
Qed.

Lemma dayTotal_insert (day : gmap string (gmap string bool)) key v :
  dayTotal (<[key := v]> day) + from_option size 0 (day !! key) = dayTotal day + size v.
Proof.
  unfold dayTotal. destruct (day !! key) as [old|] eqn:E; simpl.
  - rewrite <-(insert_delete_eq day key v).
    rewrite map_to_list_insert by apply lookup_delete_eq.
    rewrite <-(map_to_list_delete day key old E). simpl. lia.
  - rewrite map_to_list_insert by done. simpl. lia.
Qed.

Lemma dayTotal_bucket (day : gmap string (gmap string bool)) key names :
  day !! key = Some names → size names ≤ dayTotal day.
Proof.
  intros E. unfold dayTotal. rewrite <-(map_to_list_delete day key names E). simpl. lia.
Qed.

Lemma counts_of_day (data : History) now day :
  data !! today now = Some day →
  getMessageCounts_try (Parsed data) now
  = Some {| hourly := from_option size 0 (day !! currentHourKey now); daily := dayTotal day |}.
Proof.
  intros E. simpl. rewrite E. f_equal.
  rewrite <-(tallyDay_hourly day), <-(tallyDay_daily day (currentHourKey now)).
  by destruct (tallyDay day (currentHourKey now)).
Qed.

(** Bucket rollover in the counting function.  When the day bucket of the
    current date holds 25 names under "14h" and nothing under "15h", the
    counts taken at 15 o'clock report 0 for the hour, so that the whole
    hourly allowance of 25 remains, while the daily count is the same as at
    14 o'clock and still includes the 25 sends: in the step, and in the
    script's function once its path constant is bound. *)
Lemma rollover_resets_hour_keeps_day
    (data : History) (date : string) (day : DayBucket) (sent : HourBucket) :
  data !! date = Some day →
  day !! "14h" = Some sent →
  day !! "15h" = None →
  size sent = 25 →
  let at14 := {| today := date; currentHour := 14 |} in
  let at15 := {| today := date; currentHour := 15 |} in
  Step.getMessageCounts (Parsed data) at14
    = Step.Normal {| hourly := 25; daily := dayTotal day |}
  ∧ Step.getMessageCounts (Parsed data) at15
    = Step.Normal {| hourly := 0; daily := dayTotal day |}
  ∧ Script.getMessageCounts Script.Bound (Parsed data) at14
    = {| hourly := 25; daily := dayTotal day |}
  ∧ Script.getMessageCounts Script.Bound (Parsed data) at15
    = {| hourly := 0; daily := dayTotal day |}
  ∧ HOURLY_LIMIT - hourly (Script.getMessageCounts Script.Bound (Parsed data) at15) = 25
  ∧ 25 ≤ dayTotal day.
Proof.
  intros Hday H14 H15 Hsize at14 at15.
  assert (E14 : getMessageCounts_try (Parsed data) at14
                = Some {| hourly := 25; daily := dayTotal day |}).
  { rewrite (counts_of_day data at14 day Hday).
    change (currentHourKey at14) with "14h". by rewrite H14, <-Hsize. }
  assert (E15 : getMessageCounts_try (Parsed data) at15
                = Some {| hourly := 0; daily := dayTotal day |}).
  { rewrite (counts_of_day data at15 day Hday).
    change (currentHourKey at15) with "15h". by rewrite H15. }
  unfold Step.getMessageCounts, Script.getMessageCounts. rewrite E14, E15. simpl.
  repeat split; try done. rewrite <-Hsize. by apply (dayTotal_bucket day "14h").
Qed.

(** ** Reading a history that cannot be read *)

(** C9 — degraded reads.  In send-dm.ts a missing, unreadable or malformed
    history file makes [isRestaurantMessaged] answer false for every name and
    [getMessageCounts] return 0 and 0.  In send-dm.step.ts this holds for a
    missing file only: on an unreadable or malformed file the [catch] clauses
    of the two readers throw a ReferenceError for [logger] instead of
    returning the empty result. *)
Theorem step_readers_throw_on_corrupt_history :
  (∀ path restaurantName,
     Script.isRestaurantMessaged path Missing restaurantName = false
     ∧ Script.isRestaurantMessaged path Unreadable restaurantName = false
     ∧ Script.isRestaurantMessaged path InvalidJSON restaurantName = false)
  ∧ (∀ path now,
     Script.getMessageCounts path Missing now = {| hourly := 0; daily := 0 |}
     ∧ Script.getMessageCounts path Unreadable now = {| hourly := 0; daily := 0 |}
     ∧ Script.getMessageCounts path InvalidJSON now = {| hourly := 0; daily := 0 |})
  ∧ (∀ restaurantName now,
     Step.isRestaurantMessaged Missing restaurantName = Step.Normal false
     ∧ Step.getMessageCounts Missing now = Step.Normal {| hourly := 0; daily := 0 |})
  ∧ (∀ restaurantName now,
     Step.isRestaurantMessaged Unreadable restaurantName = Step.Throw (Step.ReferenceError "logger")
     ∧ Step.isRestaurantMessaged InvalidJSON restaurantName = Step.Throw (Step.ReferenceError "logger")
     ∧ Step.getMessageCounts Unreadable now = Step.Throw (Step.ReferenceError "logger")
     ∧ Step.getMessageCounts InvalidJSON now = Step.Throw (Step.ReferenceError "logger")).
Proof.
  repeat split; try by destruct path.
Qed.

(** On a malformed history file the script messages as if nobody had been
    messaged, while the step ends with an error report and sends nothing. *)
Example runs_on_a_malformed_history :
  forRestaurant <$> Script.attempts (Script.main smoothWorld [("austin", [tacoStand])] InvalidJSON).2
  = ["Taco Stand"]
  ∧ Step.handler smoothWorld [tacoStand] InvalidJSON
    = (Step.Failure (Step.Raised (Step.ReferenceError "logger")) 0,
       {| Step.disk := InvalidJSON; Step.browser := NotLaunched; Step.attempts := [] |}).
Proof. vm_compute. by split. Qed.

(** ** One restaurant of the script's loop *)

Lemma script_sendMessage_failed w s restaurantName username message :
  Script.dailyMessageCount s < Script.MAX_DAILY_MESSAGES →
  delivered w (length (Script.attempts s)) username = false →
  Script.sendMessage w s restaurantName username message
  = (false, scriptLogged s [failedAttempt restaurantName username message]).
Proof.
  intros Hcap Hfail. unfold Script.sendMessage.
  rewrite decide_False by lia. by rewrite Hfail.
Qed.

Lemma script_sendMessage_keeps w s restaurantName username message :
  let s' := (Script.sendMessage w s restaurantName username message).2 in
  Script.disk s' = Script.disk s ∧ Script.browser s' = Script.browser s
  ∧ ∃ more, Script.attempts s' = Script.attempts s ++ more
      ∧ length more ≤ 1
      ∧ Forall (λ a, forRestaurant a = restaurantName) more.
Proof.
  unfold Script.sendMessage. case_decide; simpl; (split; [done|split; [done|]]).
  - exists []. rewrite app_nil_r. split; [done|]. split; [simpl; lia | constructor].
  - eexists [_]. split; [done|]. split; [simpl; lia | by repeat constructor].
Qed.

Lemma script_sendWithRetries_keeps w n : ∀ s restaurantName username message,
  let s' := (Script.sendWithRetries w n s restaurantName username message).2 in
  Script.disk s' = Script.disk s ∧ Script.browser s' = Script.browser s
  ∧ ∃ more, Script.attempts s' = Script.attempts s ++ more
      ∧ length more ≤ n
      ∧ Forall (λ a, forRestaurant a = restaurantName) more.
Proof.
  induction n as [|n IH]; intros s restaurantName username message; simpl.
  - split; [done|split; [done|]]. exists []. rewrite app_nil_r.
    split; [done|]. split; [simpl; lia | constructor].
  - destruct (script_sendMessage_keeps w s restaurantName username message)
      as (D1 & B1 & m1 & E1 & L1 & F1).
    destruct (Script.sendMessage w s restaurantName username message) as [success s1].
    simpl in D1, B1, E1. destruct success; simpl.
    + split; [done|split; [done|]]. exists m1. split; [done|]. split; [lia | done].
    + destruct (IH s1 restaurantName username message) as (D2 & B2 & m2 & E2 & L2 & F2).
      simpl in D2, B2, E2. split; [congruence|split; [congruence|]].
      exists (m1 ++ m2). rewrite E2, E1, app_assoc.
      split; [done|]. split; [rewrite length_app; lia | by apply Forall_app].
Qed.

Lemma script_sendWithRetries_failed w s restaurantName username message :
  Script.dailyMessageCount s < Script.MAX_DAILY_MESSAGES →
  (∀ k, delivered w k username = false) →
  Script.sendWithRetries w 2 s restaurantName username message
  = (false, scriptLogged s [failedAttempt restaurantName username message;
                            failedAttempt restaurantName username message]).
Proof.
  intros Hcap Hfail. simpl.
  rewrite script_sendMessage_failed by done.
  rewrite script_sendMessage_failed by done.
  unfold scriptLogged. simpl. by rewrite <-app_assoc.
Qed.

(** One turn of the loop for a restaurant that passes the two limit checks
    and the three skip checks. *)
Lemma script_turn w batchLimit restaurantName restaurant rest t s url username :
  Script.currentHourlyCount t < 25 →
  Script.locationDMCount t < batchLimit →
  instagramLink restaurant = Some url →
  Script.isRestaurantMessaged Script.Bound (Script.disk s) restaurantName = false →
  Script.extractInstagramUsername url = Some username →
  Script.messageRestaurants w batchLimit ((restaurantName, restaurant) :: rest) t s
  = let '(success, s1) :=
      Script.sendWithRetries w 2 s restaurantName username (Script.generateMessage restaurant) in
    let '(t2, s2) :=
      if success then Script.recordSuccess w t s1 restaurantName else (t, s1) in
    Script.messageRestaurants w batchLimit rest t2 s2.
Proof.
  intros Hh Hb Hlink Hnew Huser. cbn [Script.messageRestaurants].
  rewrite decide_False by lia. rewrite decide_False by lia.
  by rewrite Hlink, Hnew, Huser.
Qed.

Lemma step_turn w candidate rest p s username :
  Step.hourlyCount p < 25 →
  Step.extractInstagramUsername (Step.instagramUrl candidate) = Some username →
  Step.sendAll w (candidate :: rest) p s
  = let '(success, s1) :=
      Step.sendMessage w s (Step.name candidate) username
        (Step.generateMessage (Step.name candidate)) in
    if success then
      let k := length (Step.attempts s1) in
      match Step.saveMessagedRestaurant (writable w k) (Step.disk s1) (clock w k)
              (Step.name candidate) with
      | Step.Normal disk' =>
          Step.sendAll w rest
            {| Step.successCount := S (Step.successCount p);
               Step.hourlyCount := S (Step.hourlyCount p) |}
            {| Step.disk := disk'; Step.browser := Step.browser s1;
               Step.attempts := Step.attempts s1 |}
      | Step.Throw _ => Step.sendAll w rest p s1
      end
    else Step.sendAll w rest p s1.
Proof.
  intros Hh Huser. cbn [Step.sendAll].
  rewrite decide_False by lia. by rewrite Huser.
Qed.

(** ** Retries *)

(** The retry bound the code has.  For a candidate whose delivery always
    fails the script, while its object has delivered fewer than 100 messages,
    calls [sendMessage] twice (one retry) and the step once; either loop then
    goes on to the next candidate with the history file and its counters as
    they were. *)
Lemma failing_candidate_is_tried_then_passed_over :
  (∀ w batchLimit restaurantName restaurant rest t s url username,
     Script.currentHourlyCount t < 25 →
     Script.locationDMCount t < batchLimit →
     instagramLink restaurant = Some url →
     Script.isRestaurantMessaged Script.Bound (Script.disk s) restaurantName = false →
     Script.extractInstagramUsername url = Some username →
     Script.dailyMessageCount s < Script.MAX_DAILY_MESSAGES →
     (∀ k, delivered w k username = false) →
     Script.messageRestaurants w batchLimit ((restaurantName, restaurant) :: rest) t s
     = Script.messageRestaurants w batchLimit rest t
         (scriptLogged s
            [failedAttempt restaurantName username (Script.generateMessage restaurant);
             failedAttempt restaurantName username (Script.generateMessage restaurant)]))
  ∧ (∀ w candidate rest p s username,
     Step.hourlyCount p < 25 →
     Step.extractInstagramUsername (Step.instagramUrl candidate) = Some username →
     (∀ k, delivered w k username = false) →
     Step.sendAll w (candidate :: rest) p s
     = Step.sendAll w rest p
         (stepLogged s
            [failedAttempt (Step.name candidate) username
               (Step.generateMessage (Step.name candidate))])).
Proof.
  split.
  - intros w batchLimit restaurantName restaurant rest t s url username
      Hh Hb Hlink Hnew Huser Hcap Hfail.
    rewrite (script_turn w batchLimit restaurantName restaurant rest t s url username) by done.
    by rewrite script_sendWithRetries_failed.
  - intros w candidate rest p s username Hh Huser Hfail.
    rewrite (step_turn w candidate rest p s username) by done.
    unfold Step.sendMessage. by rewrite Hfail.
Qed.

(** C3, on the failing input — retry bound.  With one candidate whose
    delivery never goes through, a run of the script makes two delivery
    attempts for it (the loop guard is [retryCount < 2]) and a run of the
    step makes one (it has no retry loop), not the three of the claim and of
    the README; neither run writes a record. *)
Theorem always_failing_candidate_gets_two_attempts :
  let script := Script.main deafWorld [("austin", [tacoStand])] Missing in
  let step := Step.handler deafWorld [tacoStand] Missing in
  script.1 = Script.Completed
  ∧ Script.attempts script.2
    = [failedAttempt "Taco Stand" "tacostand" (pitch "Taco");
       failedAttempt "Taco Stand" "tacostand" (pitch "Taco")]
  ∧ length (Script.attempts script.2) ≠ 3
  ∧ Script.disk script.2 = Missing
  ∧ step.1 = Step.Summary 0 "Successfully sent 0 DMs"
  ∧ Step.attempts step.2 = [failedAttempt "Taco Stand" "tacostand" (pitch "Taco")]
  ∧ length (Step.attempts step.2) ≠ 3
  ∧ Step.disk step.2 = Missing.
Proof. vm_compute. repeat split; congruence. Qed.

(** ** What a save does to the counts *)

Lemma counts_markMessaged_size (data : History) now restaurantName :
  ∃ c c', getMessageCounts_try (Parsed data) now = Some c
     ∧ getMessageCounts_try (Parsed (markMessaged data now restaurantName)) now = Some c'
     ∧ hourly c = size (bucketOf (Parsed data) now)
     ∧ hourly c' = size (setFlag (bucketOf (Parsed data) now) restaurantName)
     ∧ daily c' + size (bucketOf (Parsed data) now)
       = daily c + size (setFlag (bucketOf (Parsed data) now) restaurantName).
Proof.
  unfold bucketOf.
  set (day := default (∅ : gmap string (gmap string bool)) (data !! today now)).
  set (names := default (∅ : gmap string bool) (day !! currentHourKey now)).
  assert (Hs : from_option size 0 (day !! currentHourKey now) = size names).
  { subst names. destruct (day !! currentHourKey now); simpl; [done | by rewrite map_size_empty]. }
  exists {| hourly := size names; daily := dayTotal day |},
         {| hourly := size (setFlag names restaurantName);
            daily := dayTotal (<[currentHourKey now := setFlag names restaurantName]> day) |}.
  split; [|split; [|split; [done|split; [done|]]]].
  - destruct (data !! today now) as [d|] eqn:E.
    + rewrite (counts_of_day data now d E). subst names day. simpl.
      by destruct (d !! currentHourKey now).
    + simpl. rewrite E. subst names day. simpl. rewrite lookup_empty. simpl.
      by rewrite map_size_empty.
  - rewrite (counts_of_day _ now (<[currentHourKey now := setFlag names restaurantName]> day))
      by apply markMessaged_today.
    by rewrite lookup_insert_eq.
  - simpl.
    pose proof (dayTotal_insert day (currentHourKey now) (setFlag names restaurantName)) as Ht.
    rewrite Hs in Ht. lia.
Qed.

Lemma counts_markMessaged (data : History) now restaurantName :
  restaurantName ≠ "__proto__" →
  default ∅ (default ∅ (data !! today now) !! currentHourKey now) !! restaurantName = None →
  ∃ c, getMessageCounts_try (Parsed data) now = Some c
     ∧ getMessageCounts_try (Parsed (markMessaged data now restaurantName)) now
       = Some {| hourly := S (hourly c); daily := S (daily c) |}.
Proof.
  intros Hne Hnew.
  destruct (counts_markMessaged_size data now restaurantName)
    as (c & c' & Hc & Hc' & Hh & Hh' & Hd).
  unfold bucketOf in Hh, Hh', Hd. rewrite setFlag_size_new in Hh', Hd by done.
  exists c. split; [done|]. rewrite Hc'. destruct c'. simpl in *. do 2 f_equal; lia.
Qed.

Lemma counts_after_save disk now restaurantName disk' :
  saveMessagedRestaurant_try true disk now restaurantName = Some disk' →
  restaurantName ≠ "__proto__" →
  bucketOf disk now !! restaurantName = None →
  ∃ c, getMessageCounts_try disk now = Some c
     ∧ getMessageCounts_try disk' now = Some {| hourly := S (hourly c); daily := S (daily c) |}.
Proof.
  destruct disk as [| | |data]; simpl; intros Hsave Hne Hnew; try discriminate.
  - injection Hsave as <-.
    destruct (counts_markMessaged ∅ now restaurantName Hne) as (c & Hc & Hc').
    { by rewrite lookup_empty. }
    simpl in Hc. rewrite lookup_empty in Hc. injection Hc as <-. eauto.
  - injection Hsave as <-. by apply counts_markMessaged.
Qed.


(** ** A send that cannot be recorded *)

Lemma script_session_eta (s : Script.Session) :
  {| Script.disk := Script.disk s; Script.browser := Script.browser s;
     Script.dailyMessageCount := Script.dailyMessageCount s;
     Script.attempts := Script.attempts s |} = s.
Proof. by destruct s. Qed.

(** C5, as the code has it — a failed write of the history is not fatal.  When
    a delivery has succeeded and the record cannot be written (the file is
    unreadable or malformed, or the write fails), [saveMessagedRestaurant]
    catches the error, the history file stays as it was, and the loop goes on
    to the next restaurant with that send unrecorded; the script counts the
    send in its two counters, and in the step the counters are as they were
    or one higher. *)
Theorem failed_save_is_passed_over :
  (∀ w batchLimit restaurantName restaurant rest t s url username s1,
     Script.currentHourlyCount t < 25 →
     Script.locationDMCount t < batchLimit →
     instagramLink restaurant = Some url →
     Script.isRestaurantMessaged Script.Bound (Script.disk s) restaurantName = false →
     Script.extractInstagramUsername url = Some username →
     Script.sendWithRetries w 2 s restaurantName username (Script.generateMessage restaurant)
       = (true, s1) →
     saveMessagedRestaurant_try (writable w (length (Script.attempts s1))) (Script.disk s1)
       (clock w (length (Script.attempts s1))) restaurantName = None →
     Script.messageRestaurants w batchLimit ((restaurantName, restaurant) :: rest) t s
       = Script.messageRestaurants w batchLimit rest (bumped t) s1
     ∧ Script.disk s1 = Script.disk s)
  ∧ (∀ w candidate rest p s username s1,
     Step.hourlyCount p < 25 →
     Step.extractInstagramUsername (Step.instagramUrl candidate) = Some username →
     Step.sendMessage w s (Step.name candidate) username
       (Step.generateMessage (Step.name candidate)) = (true, s1) →
     saveMessagedRestaurant_try (writable w (length (Step.attempts s1))) (Step.disk s1)
       (clock w (length (Step.attempts s1))) (Step.name candidate) = None →
     (∃ p', Step.sendAll w (candidate :: rest) p s = Step.sendAll w rest p' s1
            ∧ Step.successCount p ≤ Step.successCount p' ≤ S (Step.successCount p)
            ∧ Step.hourlyCount p ≤ Step.hourlyCount p' ≤ S (Step.hourlyCount p))
     ∧ Step.disk s1 = Step.disk s
     ∧ Step.attempts s1
       = Step.attempts s
         ++ [ {| forRestaurant := Step.name candidate; toUsername := username;
                 text := Step.generateMessage (Step.name candidate); went := true |} ]).
Proof.
  split.
  - intros w batchLimit restaurantName restaurant rest t s url username s1
      Hh Hb Hlink Hnew Huser Hsend Hsave.
    rewrite (script_turn w batchLimit restaurantName restaurant rest t s url username) by done.
    rewrite Hsend. unfold Script.recordSuccess, Script.saveMessagedRestaurant.
    rewrite Hsave. simpl. rewrite script_session_eta. split; [done|].
    destruct (script_sendWithRetries_keeps w 2 s restaurantName username
                (Script.generateMessage restaurant)) as (Hd & _).
    by rewrite Hsend in Hd.
  - intros w candidate rest p s username s1 Hh Huser Hsend Hsave.
    rewrite (step_turn w candidate rest p s username) by done.
    rewrite Hsend. unfold Step.saveMessagedRestaurant. rewrite Hsave.
    split; [exists p; split; [done|lia]|].
    unfold Step.sendMessage in Hsend. injection Hsend as Hok <-. simpl.
    by rewrite Hok.
Qed.

Lemma failed_save_is_passed_over_witness :
  Script.messageRestaurants fullDiskWorld 25 [tacoStand; noodleBar]
    {| Script.locationDMCount := 0; Script.currentHourlyCount := 0 |}
    (freshScriptSession Missing)
  = Script.messageRestaurants fullDiskWorld 25 [noodleBar]
      {| Script.locationDMCount := 1; Script.currentHourlyCount := 1 |}
      (Script.sendMessage fullDiskWorld (freshScriptSession Missing) "Taco Stand" "tacostand"
         (pitch "Taco")).2.
Proof.
  apply (proj1 failed_save_is_passed_over fullDiskWorld 25 "Taco Stand" tacoStand.2
           [noodleBar] {| Script.locationDMCount := 0; Script.currentHourlyCount := 0 |}
           (freshScriptSession Missing) "https://www.instagram.com/tacostand" "tacostand");
    first [reflexivity | vm_compute; lia].
Defined.

(** C5, as stated, fails: when the write of the first record fails, the run
    is not aborted.  The script and the step both go on to message the second
    restaurant and end normally, and the first restaurant is left out of the
    history. *)
Lemma failed_save_does_not_abort_the_run :
  let script := Script.main fullDiskWorld [("austin", [tacoStand; noodleBar])] Missing in
  let step := Step.handler fullDiskWorld [tacoStand; noodleBar] Missing in
  script.1 = Script.Completed
  ∧ (λ a, (forRestaurant a, went a)) <$> Script.attempts script.2
    = [("Taco Stand", true); ("Noodle Bar", true)]
  ∧ Script.isRestaurantMessaged Script.Bound (Script.disk script.2) "Taco Stand" = false
  ∧ Script.isRestaurantMessaged Script.Bound (Script.disk script.2) "Noodle Bar" = true
  ∧ (∃ count message, step.1 = Step.Summary count message)
  ∧ (λ a, (forRestaurant a, went a)) <$> Step.attempts step.2
    = [("Taco Stand", true); ("Noodle Bar", true)]
  ∧ Step.isRestaurantMessaged (Step.disk step.2) "Taco Stand" = Step.Normal false
  ∧ Step.isRestaurantMessaged (Step.disk step.2) "Noodle Bar" = Step.Normal true.
Proof.
  vm_compute. do 4 (split; [reflexivity|]). split; [by eexists _, _|]. by repeat split.
Qed.

(** ** Records persist *)

Lemma messagedOn_held disk restaurantName :
  messagedOn disk restaurantName ↔
  ∃ data d h, disk = Parsed data ∧ heldAt data d h restaurantName.
Proof.
  unfold messagedOn. destruct disk as [| | |data]; simpl.
  1-3: split; [discriminate | by intros (? & ? & ? & ? & ?)].
  split.
  - intros [= H]. apply scanHistory_true in H as (d & h & H). eauto.
  - intros (data' & d & h & [= <-] & H). f_equal. apply scanHistory_true. eauto.
Qed.

Lemma recorded_messagedOn data d h restaurantName :
  recordedAt data d h restaurantName → messagedOn (Parsed data) restaurantName.
Proof. intros H. apply messagedOn_held. eexists _, d, h. split; [done|]. by apply recordedAt_heldAt. Qed.

Lemma messagedOn_recorded disk restaurantName :
  inherited restaurantName = false →
  messagedOn disk restaurantName ↔
  ∃ data d h, disk = Parsed data ∧ recordedAt data d h restaurantName.
Proof.
  intros Hown. rewrite messagedOn_held. split.
  - intros (data & d & h & -> & H). eexists _, d, h. split; [done|]. by apply heldAt_recordedAt.
  - intros (data & d & h & -> & H). eexists _, d, h. split; [done|]. by apply recordedAt_heldAt.
Qed.

Lemma save_records writable disk now restaurantName disk' :
  saveMessagedRestaurant_try writable disk now restaurantName = Some disk' →
  messagedOn disk' restaurantName.
Proof.
  intros Hsave. apply messagedOn_held.
  destruct disk as [| | |data]; simpl in Hsave; try discriminate;
    destruct writable; try discriminate; injection Hsave as <-;
    eexists _, _, _; (split; [done|]); apply markMessaged_holds.
Qed.

Lemma save_keeps_messaged writable disk now restaurantName disk' other :
  messagedOn disk other →
  saveMessagedRestaurant_try writable disk now restaurantName = Some disk' →
  messagedOn disk' other.
Proof.
  intros (data & d & h & -> & Hrec)%messagedOn_held Hsave.
  simpl in Hsave. destruct writable; [|discriminate]. injection Hsave as <-.
  apply messagedOn_held. eexists _, d, h. split; [done|]. by apply markMessaged_keeps_held.
Qed.

Lemma evolves_keeps_messaged disk disk' restaurantName :
  evolves disk disk' → messagedOn disk restaurantName → messagedOn disk' restaurantName.
Proof.
  induction 1 as [|disk disk1 disk2 writable now other _ IH Hsave]; [done|].
  intros H. eapply save_keeps_messaged; [by apply IH | done].
Qed.

Lemma evolves_trans disk1 disk2 disk3 :
  evolves disk1 disk2 → evolves disk2 disk3 → evolves disk1 disk3.
Proof.
  intros H12 H23. induction H23 as [|disk2 disk disk3 writable now other _ IH Hsave]; [done|].
  eapply evolves_save; [by apply IH | done].
Qed.

Lemma script_save_evolves writable disk now restaurantName :
  evolves disk (Script.saveMessagedRestaurant Script.Bound writable disk now restaurantName).
Proof.
  unfold Script.saveMessagedRestaurant.
  destruct (saveMessagedRestaurant_try writable disk now restaurantName) as [disk'|] eqn:E; simpl.
  - eapply evolves_save; [apply evolves_refl | done].
  - apply evolves_refl.
Qed.

Lemma script_messaged_answer disk restaurantName :
  Script.isRestaurantMessaged Script.Bound disk restaurantName = true ↔
  messagedOn disk restaurantName.
Proof.
  unfold Script.isRestaurantMessaged, messagedOn.
  destruct (isRestaurantMessaged_try disk restaurantName) as [[]|]; simpl; split; congruence.
Qed.

(** ** The script's loops: what they keep *)

(** A session that is left alone. *)
Lemma script_nothing_sent (s : Script.Session) :
  evolves (Script.disk s) (Script.disk s)
  ∧ Script.browser s = Script.browser s
  ∧ ∃ more, Script.attempts s = Script.attempts s ++ more
      ∧ ∀ restaurantName, messagedOn (Script.disk s) restaurantName →
          restaurantName ∉ forRestaurant <$> more.
Proof.
  split; [apply evolves_refl|]. split; [done|]. exists [].
  rewrite app_nil_r. split; [done|]. intros ? _. apply not_elem_of_nil.
Qed.

(** The file only evolves, the browser is not touched, the log only grows,
    and a restaurant on record gets no attempt. *)
Lemma script_messageRestaurants_keeps w batchLimit restaurants : ∀ t s,
  let s' := (Script.messageRestaurants w batchLimit restaurants t s).2 in
  evolves (Script.disk s) (Script.disk s')
  ∧ Script.browser s' = Script.browser s
  ∧ ∃ more, Script.attempts s' = Script.attempts s ++ more
      ∧ ∀ restaurantName, messagedOn (Script.disk s) restaurantName →
          restaurantName ∉ forRestaurant <$> more.
Proof.
  induction restaurants as [|[restaurantName restaurant] rest IH]; intros t s.
  { apply script_nothing_sent. }
  cbn [Script.messageRestaurants]. cbv zeta.
  case_decide; [apply script_nothing_sent|]. case_decide; [apply script_nothing_sent|].
  destruct (instagramLink restaurant) as [url|]; [|apply IH].
  destruct (Script.isRestaurantMessaged Script.Bound (Script.disk s) restaurantName) eqn:Hnew;
    [apply IH|].
  destruct (Script.extractInstagramUsername url) as [username|]; [|apply IH].
  destruct (script_sendWithRetries_keeps w 2 s restaurantName username
              (Script.generateMessage restaurant)) as (Hd & Hb & m1 & Ha & _ & Hfor).
  destruct (Script.sendWithRetries w 2 s restaurantName username
              (Script.generateMessage restaurant)) as [success s1].
  simpl in Hd, Hb, Ha.
  set (next := if success then Script.recordSuccess w t s1 restaurantName else (t, s1)).
  assert (Hnext : evolves (Script.disk s) (Script.disk next.2)
                  ∧ Script.browser next.2 = Script.browser s
                  ∧ Script.attempts next.2 = Script.attempts s ++ m1).
  { subst next. destruct success; simpl.
    - rewrite <-Hd at 1. split; [apply script_save_evolves|done].
    - rewrite Hd. split; [apply evolves_refl|done]. }
  destruct next as [t2 s2]. simpl in Hnext. destruct Hnext as (He & Hb2 & Ha2).
  destruct (IH t2 s2) as (He' & Hb' & m2 & Ha' & Hspare).
  split; [by eapply evolves_trans|]. split; [congruence|].
  exists (m1 ++ m2). split; [by rewrite Ha', Ha2, app_assoc|].
  intros other Hother. rewrite fmap_app, not_elem_of_app. split.
  - intros (a & -> & Hin)%list_elem_of_fmap.
    rewrite Forall_forall in Hfor. rewrite (Hfor a Hin) in Hother.
    apply script_messaged_answer in Hother. congruence.
  - apply Hspare. by eapply evolves_keeps_messaged.
Qed.

Lemma script_messageLocations_keeps w hourly batchLimit restaurantData : ∀ s,
  let s' := Script.messageLocations w hourly batchLimit restaurantData s in
  evolves (Script.disk s) (Script.disk s')
  ∧ Script.browser s' = Script.browser s
  ∧ ∃ more, Script.attempts s' = Script.attempts s ++ more
      ∧ ∀ restaurantName, messagedOn (Script.disk s) restaurantName →
          restaurantName ∉ forRestaurant <$> more.
Proof.
  induction restaurantData as [|[location restaurants] rest IH]; intros s.
  { apply script_nothing_sent. }
  cbn [Script.messageLocations].
  destruct (script_messageRestaurants_keeps w batchLimit restaurants
              {| Script.locationDMCount := 0; Script.currentHourlyCount := hourly |} s)
    as (He & Hb & m1 & Ha & Hspare).
  destruct (Script.messageRestaurants w batchLimit restaurants
              {| Script.locationDMCount := 0; Script.currentHourlyCount := hourly |} s)
    as [t1 s1].
  simpl in He, Hb, Ha.
  destruct (IH s1) as (He' & Hb' & m2 & Ha' & Hspare').
  split; [by eapply evolves_trans|]. split; [congruence|].
  exists (m1 ++ m2). split; [by rewrite Ha', Ha, app_assoc|].
  intros other Hother. rewrite fmap_app, not_elem_of_app. split; [by apply Hspare|].
  apply Hspare'. by eapply evolves_keeps_messaged.
Qed.

Lemma script_main_keeps w restaurantData onDisk :
  let s' := (Script.main w restaurantData onDisk).2 in
  evolves onDisk (Script.disk s')
  ∧ ∀ restaurantName, messagedOn onDisk restaurantName →
      restaurantName ∉ forRestaurant <$> Script.attempts s'.
Proof.
  unfold Script.main. cbv zeta.
  assert (Hnone :
    evolves onDisk onDisk
    ∧ ∀ restaurantName, messagedOn onDisk restaurantName →
        restaurantName ∉ forRestaurant <$> @nil Attempt).
  { split; [apply evolves_refl|]. intros ? _. apply not_elem_of_nil. }
  case_decide; [exact Hnone|]. case_decide; [exact Hnone|].
  destruct (initResult w); [|exact Hnone].
  destruct (loginResult w); [|exact Hnone].
  match goal with
  | |- context [Script.messageLocations w ?h ?b restaurantData ?s] =>
      destruct (script_messageLocations_keeps w h b restaurantData s)
        as (He & _ & more & Ha & Hspare);
      destruct (Script.messageLocations w h b restaurantData s) as [d br n a]
  end.
  simpl in *. split; [done|]. subst a. done.
Qed.

(** ** The step's loops: what they keep *)

Lemma step_messaged_answer disk restaurantName :
  Step.isRestaurantMessaged disk restaurantName = Step.Normal true ↔
  messagedOn disk restaurantName.
Proof.
  unfold Step.isRestaurantMessaged, messagedOn.
  destruct (isRestaurantMessaged_try disk restaurantName) as [[]|]; simpl; split; congruence.
Qed.

(** The candidates collected are the eligible leads, in their order, behind
    what had been collected before. *)
Lemma step_collectCandidates_readable disk leads : ∀ collected,
  readable disk = true →
  Step.collectCandidates disk leads collected
  = Step.Normal (collected ++ (toCandidate <$> selectEligible_spec disk leads)).
Proof.
  intros collected Hread. revert collected.
  induction leads as [|[restaurantName restaurant] rest IH]; intros collected.
  { simpl. by rewrite app_nil_r. }
  cbn [Step.collectCandidates]. cbv zeta. unfold Step.isRestaurantMessaged.
  unfold selectEligible_spec.
  destruct (isRestaurantMessaged_try disk restaurantName) as [messaged|] eqn:E.
  2:{ destruct disk; simpl in *; discriminate. }
  assert (Helig : eligible disk (restaurantName, restaurant)
                  = bool_decide (is_Some (instagramLink restaurant)) && negb messaged).
  { unfold eligible. simpl. by rewrite E. }
  destruct (instagramLink restaurant) as [url|] eqn:Hlink.
  - destruct messaged; simpl.
    + rewrite filter_cons_False by (rewrite Helig, andb_false_r; discriminate). apply IH.
    + rewrite filter_cons_True by (rewrite Helig; by apply andb_true_intro).
      rewrite IH. rewrite <-app_assoc. simpl. unfold toCandidate at 2. simpl.
      by rewrite Hlink.
  - rewrite filter_cons_False; [apply IH|]. rewrite Helig.
    rewrite bool_decide_eq_false_2; [discriminate|]. by intros [? ?].
Qed.

Lemma step_sendAll_keeps w candidates : ∀ p s,
  let s' := (Step.sendAll w candidates p s).2 in
  evolves (Step.disk s) (Step.disk s')
  ∧ Step.browser s' = Step.browser s
  ∧ ∃ more, Step.attempts s' = Step.attempts s ++ more
      ∧ forRestaurant <$> more `sublist_of` Step.name <$> candidates.
Proof.
  induction candidates as [|candidate rest IH]; intros p s.
  { simpl. split; [apply evolves_refl|]. split; [done|]. exists [].
    by rewrite app_nil_r. }
  assert (Hstop :
    evolves (Step.disk s) (Step.disk s) ∧ Step.browser s = Step.browser s
    ∧ ∃ more, Step.attempts s = Step.attempts s ++ more
        ∧ forRestaurant <$> more `sublist_of` Step.name <$> (candidate :: rest)).
  { split; [apply evolves_refl|]. split; [done|]. exists [].
    rewrite app_nil_r. split; [done|]. apply sublist_nil_l. }
  assert (Hskip : ∀ p' s', Step.disk s' = Step.disk s → Step.browser s' = Step.browser s →
    Step.attempts s' = Step.attempts s →
    let s'' := (Step.sendAll w rest p' s').2 in
    evolves (Step.disk s) (Step.disk s'') ∧ Step.browser s'' = Step.browser s
    ∧ ∃ more, Step.attempts s'' = Step.attempts s ++ more
        ∧ forRestaurant <$> more `sublist_of` Step.name <$> (candidate :: rest)).
  { intros p' s' Hd Hb Ha. destruct (IH p' s') as (He & Hb' & more & Ha' & Hsub).
    rewrite Hd in He. split; [done|]. split; [congruence|]. exists more.
    split; [congruence|]. rewrite fmap_cons. by apply sublist_cons. }
  cbn [Step.sendAll]. cbv zeta. case_decide; [exact Hstop|].
  destruct (Step.extractInstagramUsername (Step.instagramUrl candidate)) as [username|];
    [|by apply Hskip].
  unfold Step.sendMessage.
  set (a := {| forRestaurant := Step.name candidate; toUsername := username;
               text := Step.generateMessage (Step.name candidate);
               went := delivered w (length (Step.attempts s)) username |}).
  set (s1 := {| Step.disk := Step.disk s; Step.browser := Step.browser s;
                Step.attempts := Step.attempts s ++ [a] |}).
  assert (Hgo : ∀ p' disk', evolves (Step.disk s) disk' →
    let s'' := (Step.sendAll w rest p'
                  {| Step.disk := disk'; Step.browser := Step.browser s1;
                     Step.attempts := Step.attempts s1 |}).2 in
    evolves (Step.disk s) (Step.disk s'') ∧ Step.browser s'' = Step.browser s
    ∧ ∃ more, Step.attempts s'' = Step.attempts s ++ more
        ∧ forRestaurant <$> more `sublist_of` Step.name <$> (candidate :: rest)).
  { intros p' disk' Hev.
    destruct (IH p' {| Step.disk := disk'; Step.browser := Step.browser s1;
                       Step.attempts := Step.attempts s1 |})
      as (He & Hb' & more & Ha' & Hsub).
    simpl in He, Hb', Ha' |- *. split; [by eapply evolves_trans|]. split; [done|].
    exists (a :: more). split; [by rewrite Ha', <-app_assoc|].
    rewrite !fmap_cons. by apply sublist_skip. }
  assert (Hs1 : s1 = {| Step.disk := Step.disk s1; Step.browser := Step.browser s1;
                        Step.attempts := Step.attempts s1 |}) by done.
  destruct (delivered w (length (Step.attempts s)) username) eqn:Hok.
  - unfold Step.saveMessagedRestaurant.
    destruct (saveMessagedRestaurant_try _ _ _ _) as [disk'|] eqn:Hsave.
    + apply Hgo. eapply evolves_save; [apply evolves_refl | exact Hsave].
    + rewrite Hs1. apply Hgo. apply evolves_refl.
  - rewrite Hs1. apply Hgo. apply evolves_refl.
Qed.

Lemma closeBrowser_not_open b : closeBrowser b ≠ Open.
Proof. by destruct b. Qed.

Lemma readable_counts disk now :
  readable disk = true ↔ ∃ c, getMessageCounts_try disk now = Some c.
Proof.
  destruct disk as [| | |data]; simpl; split; try done; try by intros [? ?].
  - eauto.
  - intros _. destruct (data !! today now); eauto.
Qed.

Lemma messaged_not_eligible disk leads restaurantName :
  messagedOn disk restaurantName → restaurantName ∉ (selectEligible_spec disk leads).*1.
Proof.
  intros Hm ([n r] & -> & Hin)%list_elem_of_fmap.
  apply list_elem_of_filter in Hin as [Helig _]. unfold eligible in Helig. simpl in *.
  unfold messagedOn in Hm. rewrite Hm in Helig. simpl in Helig.
  by rewrite andb_false_r in Helig.
Qed.

Lemma toCandidate_names leads : Step.name <$> (toCandidate <$> leads) = leads.*1.
Proof. induction leads as [|[] ? IH]; [done|]. rewrite !fmap_cons. by f_equal. Qed.


(** The paths of the handler: either nothing is sent, or the loop runs over
    the first [batchLimit] eligible leads in a freshly opened browser. *)
Lemma step_handler_cases w leads onDisk :
  let s' := (Step.handler w leads onDisk).2 in
  (Step.disk s' = onDisk ∧ Step.attempts s' = [] ∧ Step.browser s' ≠ Open)
  ∨ ∃ counts,
      getMessageCounts_try onDisk (clock w 0) = Some counts
      ∧ hourly counts < 25 ∧ daily counts < 100
      ∧ let batchLimit := (25 - hourly counts) `min` (100 - daily counts) in
        let loop :=
          Step.sendAll w (take batchLimit (toCandidate <$> selectEligible_spec onDisk leads))
            {| Step.successCount := 0; Step.hourlyCount := hourly counts |}
            (freshStepSession onDisk) in
        Step.disk s' = Step.disk loop.2
        ∧ Step.attempts s' = Step.attempts loop.2
        ∧ Step.browser s' = closeBrowser (Step.browser loop.2).
Proof.
  unfold Step.handler. cbv zeta.
  destruct (Step.campaign w leads _) as [outcome s] eqn:Hrun. simpl.
  revert Hrun. unfold Step.campaign, Step.getMessageCounts. simpl.
  destruct (getMessageCounts_try onDisk (clock w 0)) as [counts|] eqn:Hc;
    [|intros [= <- <-]; by left].
  case_decide; [intros [= <- <-]; by left|].
  case_decide; [intros [= <- <-]; by left|].
  rewrite step_collectCandidates_readable by (apply (readable_counts _ (clock w 0)); eauto).
  simpl.
  destruct (toCandidate <$> selectEligible_spec onDisk leads) as [|c cs] eqn:Hsel;
    [intros [= <- <-]; by left|].
  destruct (initResult w) as [|[]]; [|intros [= <- <-]; by left..].
  destruct (loginResult w); [|intros [= <- <-]; by left].
  unfold Step.withBrowser. simpl. fold (freshStepSession onDisk).
  destruct (Step.sendAll w _ _ (freshStepSession onDisk)) as [p s2] eqn:Hloop.
  intros [= <- <-]. right. exists counts. simpl.
  split; [done|]. split; [lia|]. split; [lia|]. by rewrite Hloop.
Qed.

(** A run of the step: the file only evolves, the browser is not left open,
    and the attempts follow the eligible leads in their order. *)
Lemma step_handler_keeps w leads onDisk :
  let s' := (Step.handler w leads onDisk).2 in
  evolves onDisk (Step.disk s')
  ∧ Step.browser s' ≠ Open
  ∧ forRestaurant <$> Step.attempts s' `sublist_of` (selectEligible_spec onDisk leads).*1.
Proof.
  cbv zeta.
  destruct (step_handler_cases w leads onDisk)
    as [(Hd & Ha & Hb)|(counts & _ & _ & _ & Hd & Ha & Hb)].
  { rewrite Hd, Ha. split; [apply evolves_refl|]. split; [done | apply sublist_nil_l]. }
  cbv zeta in Hd, Ha, Hb.
  match type of Hd with
  | _ = Step.disk (Step.sendAll w ?l ?p ?s0).2 =>
      destruct (step_sendAll_keeps w l p s0) as (He & _ & more & Hmore & Hsub)
  end.
  rewrite Hd, Ha, Hb, Hmore. split; [exact He|].
  split; [apply closeBrowser_not_open|]. simpl. etrans; [exact Hsub|].
  rewrite <-toCandidate_names. apply fmap_sublist, sublist_take.
Qed.

(** ** Idempotence *)

(** C2 — once messaged, always messaged.  After a send to a restaurant has
    been recorded, under whatever date and hour, the restaurant stays on
    record however the file evolves through later saves: both versions of
    [isRestaurantMessaged] answer true, the step never collects it as a
    candidate, and no later run of the step or of the script makes an attempt
    for it; after such a run the file has again only evolved. *)
Theorem once_messaged_always_messaged
    (writable : bool) (disk : HistoryFile) (now : Now) (restaurantName : string)
    (recorded final : HistoryFile) :
  saveMessagedRestaurant_try writable disk now restaurantName = Some recorded →
  evolves recorded final →
  Script.isRestaurantMessaged Script.Bound final restaurantName = true
  ∧ Step.isRestaurantMessaged final restaurantName = Step.Normal true
  ∧ (∀ leads, ∃ candidates,
       Step.collectCandidates final leads [] = Step.Normal candidates
       ∧ restaurantName ∉ (Step.name <$> candidates))
  ∧ (∀ w leads,
       (restaurantName ∉ forRestaurant <$> Step.attempts (Step.handler w leads final).2)
       ∧ evolves recorded (Step.disk (Step.handler w leads final).2))
  ∧ (∀ w restaurantData,
       (restaurantName ∉ forRestaurant <$> Script.attempts (Script.main w restaurantData final).2)
       ∧ evolves recorded (Script.disk (Script.main w restaurantData final).2)).
Proof.
  intros Hsave Hev.
  assert (Hm : messagedOn final restaurantName).
  { eapply evolves_keeps_messaged; [exact Hev | by eapply save_records]. }
  assert (Hread : readable final = true).
  { apply messagedOn_held in Hm as (? & ? & ? & -> & _). done. }
  split; [by apply script_messaged_answer|]. split; [by apply step_messaged_answer|].
  split; [|split].
  - intros leads. eexists. split; [by apply step_collectCandidates_readable|].
    simpl. rewrite toCandidate_names. by apply messaged_not_eligible.
  - intros w leads. destruct (step_handler_keeps w leads final) as (He & _ & Hsub).
    split; [|by eapply evolves_trans].
    intros Hin. eapply (messaged_not_eligible final leads); [exact Hm|].
    by eapply elem_of_sublist.
  - intros w restaurantData. destruct (script_main_keeps w restaurantData final) as (He & Hsp).
    split; [by apply Hsp | by eapply evolves_trans].
Qed.

Lemma once_messaged_always_messaged_witness :
  Script.isRestaurantMessaged Script.Bound
    (Parsed (markMessaged (markMessaged ∅ afternoon "Taco Stand")
               {| today := "2025-03-11"; currentHour := 9 |} "Noodle Bar")) "Taco Stand" = true.
Proof.
  refine (proj1 (once_messaged_always_messaged true Missing afternoon "Taco Stand"
                   (Parsed (markMessaged ∅ afternoon "Taco Stand")) _ _ _)).
  - reflexivity.
  - eapply (evolves_save _ _ _ true {| today := "2025-03-11"; currentHour := 9 |} "Noodle Bar");
      [apply evolves_refl | reflexivity].
Defined.

(** ** Order of selection *)

Lemma script_eligible disk restaurantName restaurant :
  eligible disk (restaurantName, restaurant)
  = bool_decide (is_Some (instagramLink restaurant))
    && negb (Script.isRestaurantMessaged Script.Bound disk restaurantName).
Proof. done. Qed.

Lemma eligible_earlier disk disk' lead :
  evolves disk disk' → eligible disk' lead = true → eligible disk lead = true.
Proof.
  intros Hev. unfold eligible. intros [Hl Hn]%andb_prop. rewrite Hl. simpl.
  destruct (isRestaurantMessaged_try disk lead.1) as [[]|] eqn:E; simpl; try done.
  assert (Hm : messagedOn disk' lead.1) by (by eapply evolves_keeps_messaged).
  unfold messagedOn in Hm. by rewrite Hm in Hn.
Qed.

Lemma selectEligible_earlier disk disk' leads :
  evolves disk disk' →
  selectEligible_spec disk' leads `sublist_of` selectEligible_spec disk leads.
Proof.
  intros Hev. unfold selectEligible_spec.
  induction leads as [|x leads IH]; [done|].
  destruct (eligible disk' x) eqn:E'.
  - rewrite filter_cons_True by done.
    rewrite filter_cons_True by (by eapply eligible_earlier). by apply sublist_skip.
  - rewrite filter_cons_False by congruence. rewrite filter_cons.
    case_decide; [by apply sublist_cons | done].
Qed.

Lemma twice_sublist leads1 leads2 :
  leads1 `sublist_of` leads2 → twice leads1 `sublist_of` twice leads2.
Proof.
  unfold twice. induction 1 as [|x l1 l2 _ IH|x l1 l2 _ IH]; simpl.
  - done.
  - by do 2 apply sublist_skip.
  - by do 2 apply sublist_cons.
Qed.

Lemma at_most_two_names restaurantName (more : list Attempt) :
  Forall (λ a, forRestaurant a = restaurantName) more → length more ≤ 2 →
  forRestaurant <$> more `sublist_of` [restaurantName; restaurantName].
Proof.
  intros Hfor Hlen. destruct more as [|a [|b [|c more]]]; simpl in *; try lia.
  - apply sublist_nil_l.
  - apply Forall_cons in Hfor as [-> _]. apply sublist_skip, sublist_nil_l.
  - apply Forall_cons in Hfor as [-> Hfor]. apply Forall_cons in Hfor as [-> _]. done.
Qed.

(** The attempts of the script's loop follow the eligible leads in their
    order, each at most twice. *)
Lemma script_messageRestaurants_order w batchLimit restaurants : ∀ t s,
  ∃ more,
    Script.attempts (Script.messageRestaurants w batchLimit restaurants t s).2
    = Script.attempts s ++ more
    ∧ forRestaurant <$> more
      `sublist_of` twice (selectEligible_spec (Script.disk s) restaurants).
Proof.
  induction restaurants as [|[restaurantName restaurant] rest IH]; intros t s.
  { exists []. simpl. by rewrite app_nil_r. }
  assert (Hstop : ∃ more, Script.attempts s = Script.attempts s ++ more
    ∧ forRestaurant <$> more
      `sublist_of` twice (selectEligible_spec (Script.disk s)
                            ((restaurantName, restaurant) :: rest))).
  { exists []. rewrite app_nil_r. split; [done | apply sublist_nil_l]. }
  assert (Hskip : ∃ more,
    Script.attempts (Script.messageRestaurants w batchLimit rest t s).2
    = Script.attempts s ++ more
    ∧ forRestaurant <$> more
      `sublist_of` twice (selectEligible_spec (Script.disk s)
                            ((restaurantName, restaurant) :: rest))).
  { destruct (IH t s) as (more & Ha & Hsub). exists more. split; [done|].
    etrans; [exact Hsub|]. apply twice_sublist. unfold selectEligible_spec.
    rewrite filter_cons. case_decide; [by apply sublist_cons | done]. }
  cbn [Script.messageRestaurants]. cbv zeta.
  case_decide; [exact Hstop|]. case_decide; [exact Hstop|].
  destruct (instagramLink restaurant) as [url|] eqn:Hlink; [|exact Hskip].
  destruct (Script.isRestaurantMessaged Script.Bound (Script.disk s) restaurantName) eqn:Hnew;
    [exact Hskip|].
  destruct (Script.extractInstagramUsername url) as [username|]; [|exact Hskip].
  assert (Helig : eligible (Script.disk s) (restaurantName, restaurant) = true).
  { rewrite script_eligible, Hlink, Hnew. apply andb_true_intro. split; [|done].
    by apply bool_decide_eq_true_2. }
  destruct (script_sendWithRetries_keeps w 2 s restaurantName username
              (Script.generateMessage restaurant)) as (Hd & _ & m1 & Ha & Hlen & Hfor).
  destruct (Script.sendWithRetries w 2 s restaurantName username
              (Script.generateMessage restaurant)) as [success s1].
  simpl in Hd, Ha.
  set (next := if success then Script.recordSuccess w t s1 restaurantName else (t, s1)).
  assert (Hnext : evolves (Script.disk s) (Script.disk next.2)
                  ∧ Script.attempts next.2 = Script.attempts s ++ m1).
  { subst next. destruct success; simpl.
    - rewrite <-Hd at 1. split; [apply script_save_evolves|done].
    - rewrite Hd. split; [apply evolves_refl|done]. }
  destruct next as [t2 s2]. simpl in Hnext. destruct Hnext as (He & Ha2).
  destruct (IH t2 s2) as (m2 & Ha' & Hsub).
  exists (m1 ++ m2). split; [by rewrite Ha', Ha2, app_assoc|].
  rewrite fmap_app. unfold selectEligible_spec. rewrite filter_cons_True by done.
  change (twice ((restaurantName, restaurant) :: ?l))
    with ([restaurantName; restaurantName] ++ twice l).
  apply sublist_app; [by apply at_most_two_names|].
  etrans; [exact Hsub|]. by apply twice_sublist, selectEligible_earlier.
Qed.

(** A lead without a profile link is passed over without any call of
    [sendMessage], by the step and by the script. *)
Example lead_without_link_is_never_attempted :
  forRestaurant <$> Step.attempts (Step.handler smoothWorld [noLink "Corner Cafe"; tacoStand] Missing).2
  = ["Taco Stand"]
  ∧ forRestaurant
      <$> Script.attempts (Script.main smoothWorld [("austin", [noLink "Corner Cafe"; tacoStand])]
                             Missing).2
    = ["Taco Stand"].
Proof. vm_compute. by split. Qed.

(** ** One record per name *)

Lemma save_keeps_recordedOnce writable disk now restaurantName disk' :
  recordedOnce disk →
  (∀ data d h, disk = Parsed data → ¬ recordedAt data d h restaurantName) →
  saveMessagedRestaurant_try writable disk now restaurantName = Some disk' →
  recordedOnce disk'.
Proof.
  intros Honce Hnew Hsave.
  assert (∃ data, disk' = Parsed (markMessaged data now restaurantName)
                  ∧ (∀ other d h, recordedAt data d h other →
                       other ≠ restaurantName ∧ ∀ d' h', recordedAt data d' h' other →
                                                 d = d' ∧ h = h'))
    as (data & -> & Hold).
  { destruct disk as [| | |data]; simpl in Hsave; try discriminate;
      destruct writable; try discriminate; injection Hsave as <-.
    - exists ∅. split; [done|]. intros other d h (? & ? & H & _).
      by rewrite lookup_empty in H.
    - exists data. split; [done|]. intros other d h Hrec. split.
      + intros ->. by eapply Hnew.
      + intros d' h' Hrec'. by eapply Honce. }
  intros other d1 h1 d2 h2 H1 H2.
  apply markMessaged_only in H1 as [(E1 & E1' & E1'')|H1];
    apply markMessaged_only in H2 as [(E2 & E2' & E2'')|H2].
  - by subst.
  - by destruct (Hold _ _ _ H2).
  - by destruct (Hold _ _ _ H1).
  - by apply (Hold _ _ _ H1).
Qed.

Lemma unmessaged_unrecorded disk restaurantName :
  ¬ messagedOn disk restaurantName →
  ∀ data d h, disk = Parsed data → ¬ recordedAt data d h restaurantName.
Proof. intros Hnew data d h -> Hrec. by eapply Hnew, recorded_messagedOn. Qed.

Lemma save_keeps_unrecorded writable disk now restaurantName disk' other :
  (∀ data d h, disk = Parsed data → ¬ recordedAt data d h other) →
  other ≠ restaurantName →
  saveMessagedRestaurant_try writable disk now restaurantName = Some disk' →
  ∀ data d h, disk' = Parsed data → ¬ recordedAt data d h other.
Proof.
  intros Hnew Hne Hsave data' d h -> Hrec.
  destruct disk as [| | |data]; simpl in Hsave; try discriminate;
    destruct writable; try discriminate; injection Hsave as <-;
    apply markMessaged_only in Hrec as [(_ & _ & ->)|Hrec]; try done.
  - destruct Hrec as (? & ? & H & _). by rewrite lookup_empty in H.
  - by eapply Hnew.
Qed.

Lemma save_keeps_unmessaged writable disk now restaurantName disk' other :
  inherited other = false →
  ¬ messagedOn disk other →
  other ≠ restaurantName →
  saveMessagedRestaurant_try writable disk now restaurantName = Some disk' →
  ¬ messagedOn disk' other.
Proof.
  intros Hown Hnew Hne Hsave (data' & d & h & -> & Hrec)%messagedOn_recorded; [|done].
  eapply (save_keeps_unrecorded writable disk now restaurantName _ other); try done.
  by apply unmessaged_unrecorded.
Qed.

Lemma script_messageRestaurants_once w batchLimit restaurants : ∀ t s,
  recordedOnce (Script.disk s) →
  recordedOnce (Script.disk (Script.messageRestaurants w batchLimit restaurants t s).2).
Proof.
  induction restaurants as [|[restaurantName restaurant] rest IH]; intros t s Honce; [done|].
  cbn [Script.messageRestaurants]. cbv zeta.
  case_decide; [done|]. case_decide; [done|].
  destruct (instagramLink restaurant) as [url|]; [|by apply IH].
  destruct (Script.isRestaurantMessaged Script.Bound (Script.disk s) restaurantName) eqn:Hnew;
    [by apply IH|].
  destruct (Script.extractInstagramUsername url) as [username|]; [|by apply IH].
  destruct (script_sendWithRetries_keeps w 2 s restaurantName username
              (Script.generateMessage restaurant)) as (Hd & _).
  destruct (Script.sendWithRetries w 2 s restaurantName username
              (Script.generateMessage restaurant)) as [success s1].
  simpl in Hd. destruct success; simpl; [|apply IH; by rewrite Hd].
  apply IH. simpl. unfold Script.saveMessagedRestaurant.
  destruct (saveMessagedRestaurant_try _ _ _ _) as [disk'|] eqn:Hsave; simpl;
    [|by rewrite Hd].
  rewrite Hd in Hsave. eapply save_keeps_recordedOnce; [exact Honce | | exact Hsave].
  apply unmessaged_unrecorded. intros Hm%script_messaged_answer. congruence.
Qed.

Lemma script_messageLocations_once w hourly batchLimit restaurantData : ∀ s,
  recordedOnce (Script.disk s) →
  recordedOnce (Script.disk (Script.messageLocations w hourly batchLimit restaurantData s)).
Proof.
  induction restaurantData as [|[location restaurants] rest IH]; intros s Hs; [done|].
  cbn [Script.messageLocations].
  pose proof (script_messageRestaurants_once w batchLimit restaurants
                {| Script.locationDMCount := 0; Script.currentHourlyCount := hourly |} s Hs)
    as H1.
  destruct (Script.messageRestaurants w batchLimit restaurants _ s) as [t1 s1]. by apply IH.
Qed.

Lemma script_main_once w restaurantData onDisk :
  recordedOnce onDisk → recordedOnce (Script.disk (Script.main w restaurantData onDisk).2).
Proof.
  intros Honce. unfold Script.main. cbv zeta.
  case_decide; [done|]. case_decide; [done|].
  destruct (initResult w); [|done]. destruct (loginResult w); [|done]. simpl.
  by apply script_messageLocations_once.
Qed.

Lemma step_sendAll_once w candidates : ∀ p s,
  recordedOnce (Step.disk s) →
  NoDup (Step.name <$> candidates) →
  (∀ c, c ∈ candidates →
     ∀ data d h, Step.disk s = Parsed data → ¬ recordedAt data d h (Step.name c)) →
  recordedOnce (Step.disk (Step.sendAll w candidates p s).2).
Proof.
  induction candidates as [|candidate rest IH]; intros p s Honce Hnd Hnew; [done|].
  rewrite fmap_cons in Hnd. apply NoDup_cons in Hnd as [Hhead Hnd].
  assert (Hrest : ∀ c, c ∈ rest →
            ∀ data d h, Step.disk s = Parsed data → ¬ recordedAt data d h (Step.name c)).
  { intros c Hc. apply Hnew. by right. }
  cbn [Step.sendAll]. cbv zeta. case_decide; [done|].
  destruct (Step.extractInstagramUsername (Step.instagramUrl candidate)) as [username|];
    [|by apply IH].
  unfold Step.sendMessage.
  destruct (delivered w (length (Step.attempts s)) username); [|by apply IH].
  unfold Step.saveMessagedRestaurant. simpl.
  destruct (saveMessagedRestaurant_try _ _ _ _) as [disk'|] eqn:Hsave; [|by apply IH].
  apply IH; simpl; [|done|].
  - eapply save_keeps_recordedOnce; [exact Honce | | exact Hsave]. apply Hnew. by left.
  - intros c Hc. eapply save_keeps_unrecorded; [by apply Hrest | | exact Hsave].
    intros Heq. apply Hhead. rewrite <-Heq. by apply list_elem_of_fmap_2.
Qed.

Lemma step_handler_once w leads onDisk :
  NoDup leads.*1 → recordedOnce onDisk →
  recordedOnce (Step.disk (Step.handler w leads onDisk).2).
Proof.
  intros Hnd Honce.
  destruct (step_handler_cases w leads onDisk)
    as [(Hd & _)|(counts & _ & _ & _ & Hd & _)]; rewrite Hd; [done|].
  apply step_sendAll_once; [done| |].
  - eapply sublist_NoDup; [|apply fmap_sublist, sublist_take].
    rewrite toCandidate_names.
    eapply sublist_NoDup; [exact Hnd|]. apply fmap_sublist, sublist_filter.
  - intros c Hin. eapply elem_of_sublist in Hin; [|apply sublist_take].
    apply list_elem_of_fmap in Hin as ([n r] & -> & Hin). simpl.
    apply unmessaged_unrecorded.
    intros Hm. eapply (messaged_not_eligible onDisk leads n Hm).
    by apply (list_elem_of_fmap_2 fst _ (n, r)).
Qed.

(** C10 — the history is keyed by the name alone.  A restaurant on record is
    passed over in every location the script walks through, whatever location
    its record came from; and a run of the script over any number of
    locations, like a run of the step over the restaurants of one location,
    leaves no name on record in two buckets when it found none so. *)
Theorem history_is_keyed_by_name_alone :
  (∀ w hourly batchLimit restaurantData s restaurantName,
     messagedOn (Script.disk s) restaurantName →
     ∃ more,
       Script.attempts (Script.messageLocations w hourly batchLimit restaurantData s)
       = Script.attempts s ++ more
       ∧ restaurantName ∉ forRestaurant <$> more)
  ∧ (∀ w restaurantData onDisk,
     recordedOnce onDisk → recordedOnce (Script.disk (Script.main w restaurantData onDisk).2))
  ∧ (∀ w leads onDisk,
     NoDup leads.*1 → recordedOnce onDisk →
     recordedOnce (Step.disk (Step.handler w leads onDisk).2)).
Proof.
  split; [|split].
  - intros w hourly batchLimit restaurantData s restaurantName Hm.
    destruct (script_messageLocations_keeps w hourly batchLimit restaurantData s)
      as (_ & _ & more & Ha & Hspare).
    exists more. split; [done | by apply Hspare].
  - apply script_main_once.
  - apply step_handler_once.
Qed.

Lemma history_is_keyed_by_name_alone_witness :
  recordedOnce (Script.disk (Script.main smoothWorld twoCities Missing).2).
Proof. apply (proj1 (proj2 history_is_keyed_by_name_alone)). exact I. Defined.

(** The same restaurant listed under two locations is messaged once. *)
Example same_name_in_two_locations :
  forRestaurant <$> Script.attempts (Script.main smoothWorld twoCities Missing).2
  = ["Taco Stand"].
Proof. vm_compute. reflexivity. Qed.

(** ** Closing the browser *)

(** X27 — the step closes the browser on every path of its handler: whatever
    the run meets, the browser is not left open when the handler ends. *)
Lemma step_handler_releases_browser w leads onDisk :
  Step.browser (Step.handler w leads onDisk).2 ≠ Open.
Proof. apply step_handler_keeps. Qed.

(** X28 — the script closes the browser when its main function reaches its
    end. *)
Lemma script_main_completed_closes w restaurantData onDisk :
  (Script.main w restaurantData onDisk).1 = Script.Completed →
  Script.browser (Script.main w restaurantData onDisk).2 = Closed.
Proof.
  unfold Script.main. cbv zeta.
  case_decide; [discriminate|]. case_decide; [discriminate|].
  destruct (initResult w); [|discriminate]. destruct (loginResult w); [|discriminate].
  intros _. simpl.
  match goal with
  | |- context [Script.messageLocations w ?h ?b restaurantData ?s] =>
      destruct (script_messageLocations_keeps w h b restaurantData s) as (_ & Hb & _)
  end.
  simpl in Hb. by rewrite Hb.
Qed.

(** C7, on the failing input — release of the browser.  In the script [close]
    is called on the last line of the main function only: when logging in
    throws an error that is not a timeout, the main function ends by that
    exception with the browser launched and never closed. *)
Theorem script_leaves_browser_open_when_login_throws :
  Script.main lockedOutWorld [("austin", [tacoStand])] Missing
  = (Script.Rejected,
     {| Script.disk := Missing; Script.browser := Open; Script.dailyMessageCount := 0;
        Script.attempts := [] |})
  ∧ Step.browser (Step.handler lockedOutWorld [tacoStand] Missing).2 = Closed.
Proof. vm_compute. by split. Qed.

(** ** The quota *)

Lemma counts_after_save_le writable disk now restaurantName disk' c :
  saveMessagedRestaurant_try writable disk now restaurantName = Some disk' →
  getMessageCounts_try disk now = Some c →
  ∃ c', getMessageCounts_try disk' now = Some c'
      ∧ hourly c' ≤ S (hourly c) ∧ daily c' ≤ S (daily c)
      ∧ hourly c ≤ hourly c' ∧ daily c ≤ daily c'.
Proof.
  intros Hsave Hc.
  assert (∃ data, disk' = Parsed (markMessaged data now restaurantName)
                  ∧ getMessageCounts_try (Parsed data) now = Some c) as (data & -> & Hc0).
  { destruct disk as [| | |data]; simpl in Hsave; try discriminate;
      destruct writable; try discriminate; injection Hsave as <-.
    - exists ∅. split; [done|]. simpl in *. by rewrite lookup_empty.
    - by exists data. }
  destruct (counts_markMessaged_size data now restaurantName)
    as (c0 & c' & Hc0' & Hc' & Hh & Hh' & Hd).
  rewrite Hc0 in Hc0'. injection Hc0' as <-.
  pose proof (setFlag_size (bucketOf (Parsed data) now) restaurantName) as Hsize.
  exists c'. split; [done|]. lia.
Qed.

(** In the step, while the clock stays in one bucket, the loop adds at most
    one to either count per candidate it is given. *)
Lemma step_sendAll_counts w now candidates : ∀ p s c,
  (∀ k, clock w k = now) →
  getMessageCounts_try (Step.disk s) now = Some c →
  ∃ c', getMessageCounts_try (Step.disk (Step.sendAll w candidates p s).2) now = Some c'
      ∧ hourly c' ≤ hourly c + length candidates
      ∧ daily c' ≤ daily c + length candidates.
Proof.
  intros p s c Hclock. revert p s c.
  induction candidates as [|candidate rest IH]; intros p s c Hc.
  { exists c. simpl. split; [done|lia]. }
  assert (Hskip : ∀ p' s', Step.disk s' = Step.disk s →
    ∃ c', getMessageCounts_try (Step.disk (Step.sendAll w rest p' s').2) now = Some c'
      ∧ hourly c' ≤ hourly c + length (candidate :: rest)
      ∧ daily c' ≤ daily c + length (candidate :: rest)).
  { intros p' s' Hd. destruct (IH p' s' c) as (c' & Hc' & Hh & Hdl); [by rewrite Hd|].
    exists c'. simpl. split; [done|lia]. }
  cbn [Step.sendAll]. cbv zeta.
  case_decide; [exists c; simpl; split; [done|lia]|].
  destruct (Step.extractInstagramUsername (Step.instagramUrl candidate)) as [username|];
    [|by apply Hskip].
  unfold Step.sendMessage.
  destruct (delivered w (length (Step.attempts s)) username); [|by apply Hskip].
  unfold Step.saveMessagedRestaurant. simpl. rewrite Hclock.
  destruct (saveMessagedRestaurant_try _ _ _ _) as [disk'|] eqn:Hsave; [|by apply Hskip].
  destruct (counts_after_save_le _ _ _ _ _ _ Hsave Hc) as (c1 & Hc1 & Hh1 & Hd1 & _).
  match goal with
  | |- context [Step.sendAll w rest ?p' ?s'] =>
      destruct (IH p' s' c1 Hc1) as (c' & Hc' & Hh & Hdl)
  end.
  exists c'. simpl. split; [done|lia].
Qed.

(** X26 — the step keeps both limits: when the clock stays in one bucket and
    the counts are within the limits before the run, they are within the
    limits after it. *)
Lemma step_handler_within_limits w leads onDisk now c :
  (∀ k, clock w k = now) →
  getMessageCounts_try onDisk now = Some c →
  hourly c ≤ HOURLY_LIMIT → daily c ≤ DAILY_LIMIT →
  ∃ c', getMessageCounts_try (Step.disk (Step.handler w leads onDisk).2) now = Some c'
      ∧ hourly c' ≤ HOURLY_LIMIT ∧ daily c' ≤ DAILY_LIMIT.
Proof.
  unfold HOURLY_LIMIT, DAILY_LIMIT. intros Hclock Hc Hh Hd.
  destruct (step_handler_cases w leads onDisk)
    as [(Hs & _)|(counts & Hcounts & Hh0 & Hd0 & Hs & _)]; rewrite Hs; [eauto|].
  rewrite Hclock, Hc in Hcounts. injection Hcounts as <-.
  match goal with
  | |- context [Step.sendAll w ?l ?p ?s0] =>
      destruct (step_sendAll_counts w now l p s0 c Hclock Hc) as (c' & Hc' & Hh' & Hd');
      pose proof (length_take (toCandidate <$> selectEligible_spec onDisk leads)
                    ((25 - hourly c) `min` (100 - daily c))) as Hlen
  end.
  exists c'. split; [done|]. lia.
Qed.

(** C1, on the failing input — the quota invariant.  The script keeps its two
    counters per location: with 25 eligible restaurants under one location
    and one more under a second, every delivery going through within one
    hour, a single run records 26 sends in the current hour bucket, one more
    than the hourly limit. *)
Theorem script_exceeds_hourly_limit_across_locations :
  (Script.main smoothWorld twentySix Missing).1 = Script.Completed
  ∧ Step.getMessageCounts (Script.disk (Script.main smoothWorld twentySix Missing).2) afternoon
    = Step.Normal {| hourly := 26; daily := 26 |}
  ∧ HOURLY_LIMIT < 26.
Proof. vm_compute. repeat split. lia. Qed.

(** The counts the script reads on start-up are 0 and 0 whatever the file
    holds, so a run started in an hour that already holds 25 sends adds to
    them. *)
Example script_starts_from_zero_counts :
  Step.getMessageCounts
    (Script.disk (Script.main smoothWorld [("austin", [tacoStand])] (Parsed fullAfternoon)).2)
    afternoon
  = Step.Normal {| hourly := 26; daily := 26 |}.
Proof. vm_compute. reflexivity. Qed.

(** ** The caps of the script *)

Lemma successes_app l m : successes (l ++ m) = successes l + successes m.
Proof. unfold successes. by rewrite filter_app, length_app. Qed.

Lemma successes_length l : successes l ≤ length l.
Proof. unfold successes. apply length_filter. Qed.

(** One call of [sendMessage]: the log and the counter of the object grow
    together, by one when the call succeeds, and a call succeeds only below
    the cap. *)
Lemma script_sendMessage_tally w s restaurantName username message :
  let '(success, s') := Script.sendMessage w s restaurantName username message in
  let k := if success then 1 else 0 in
  successes (Script.attempts s') = successes (Script.attempts s) + k
  ∧ Script.dailyMessageCount s' = Script.dailyMessageCount s + k
  ∧ (success = true → Script.dailyMessageCount s < Script.MAX_DAILY_MESSAGES).
Proof.
  unfold Script.sendMessage. case_decide as Hcap; simpl.
  - split; [lia|]. split; [lia|done].
  - rewrite successes_app. unfold successes at 2. rewrite filter_cons, filter_nil. simpl.
    destruct (delivered w _ username); simpl; (split; [lia|]); (split; [lia|]); [lia|done].
Qed.

Lemma script_sendWithRetries_tally w n : ∀ s restaurantName username message,
  let '(success, s') := Script.sendWithRetries w n s restaurantName username message in
  let k := if success then 1 else 0 in
  successes (Script.attempts s') = successes (Script.attempts s) + k
  ∧ Script.dailyMessageCount s' = Script.dailyMessageCount s + k
  ∧ (success = true → Script.dailyMessageCount s' ≤ Script.MAX_DAILY_MESSAGES).
Proof.
  induction n as [|n IH]; intros s restaurantName username message; simpl.
  { split; [lia|]. split; [lia|done]. }
  pose proof (script_sendMessage_tally w s restaurantName username message) as H1.
  destruct (Script.sendMessage w s restaurantName username message) as [success s1].
  destruct success; simpl in H1.
  - destruct H1 as (Ha & Hd & Hcap). split; [done|]. split; [done|].
    intros _. specialize (Hcap eq_refl). lia.
  - destruct H1 as (Ha & Hd & _).
    pose proof (IH s1 restaurantName username message) as H2.
    destruct (Script.sendWithRetries w n s1 restaurantName username message) as [success s2].
    simpl in *. destruct H2 as (Ha2 & Hd2 & Hcap2). split; [lia|]. split; [lia|done].
Qed.

(** The loop over one location: what was delivered is what the counters
    gained, and once something was delivered the counters are within the
    batch limit, the hourly limit and the cap of the object. *)
Lemma script_messageRestaurants_tally w batchLimit restaurants : ∀ t s,
  let '(t', s') := Script.messageRestaurants w batchLimit restaurants t s in
  ∃ k, successes (Script.attempts s') = successes (Script.attempts s) + k
     ∧ Script.dailyMessageCount s' = Script.dailyMessageCount s + k
     ∧ Script.locationDMCount t' = Script.locationDMCount t + k
     ∧ Script.currentHourlyCount t' = Script.currentHourlyCount t + k
     ∧ (k = 0 ∨ Script.locationDMCount t' ≤ batchLimit
               ∧ Script.currentHourlyCount t' ≤ 25
               ∧ Script.dailyMessageCount s' ≤ Script.MAX_DAILY_MESSAGES).
Proof.
  induction restaurants as [|[restaurantName restaurant] rest IH]; intros t s.
  { simpl. exists 0. repeat (split; [lia|]). by left. }
  assert (Hstop : ∃ k, successes (Script.attempts s) = successes (Script.attempts s) + k
     ∧ Script.dailyMessageCount s = Script.dailyMessageCount s + k
     ∧ Script.locationDMCount t = Script.locationDMCount t + k
     ∧ Script.currentHourlyCount t = Script.currentHourlyCount t + k
     ∧ (k = 0 ∨ Script.locationDMCount t ≤ batchLimit
               ∧ Script.currentHourlyCount t ≤ 25
               ∧ Script.dailyMessageCount s ≤ Script.MAX_DAILY_MESSAGES)).
  { exists 0. repeat (split; [lia|]). by left. }
  cbn [Script.messageRestaurants]. cbv zeta.
  case_decide as Hh; [exact Hstop|]. case_decide as Hb; [exact Hstop|].
  destruct (instagramLink restaurant) as [url|]; [|apply IH].
  destruct (Script.isRestaurantMessaged Script.Bound (Script.disk s) restaurantName); [apply IH|].
  destruct (Script.extractInstagramUsername url) as [username|]; [|apply IH].
  pose proof (script_sendWithRetries_tally w 2 s restaurantName username
                (Script.generateMessage restaurant)) as H1.
  destruct (Script.sendWithRetries w 2 s restaurantName username
              (Script.generateMessage restaurant)) as [success s1].
  destruct success; simpl in H1; destruct H1 as (Ha & Hd & Hcap).
  - unfold Script.recordSuccess.
    match goal with
    | |- context [Script.messageRestaurants w batchLimit rest ?t2 ?s2] =>
        pose proof (IH t2 s2) as H2;
        destruct (Script.messageRestaurants w batchLimit rest t2 s2) as [t' s']
    end.
    simpl in H2. destruct H2 as (k & Ha' & Hd' & Hl' & Hc' & Hk).
    specialize (Hcap eq_refl). exists (S k).
    split; [lia|]. split; [lia|]. split; [lia|]. split; [lia|]. right.
    destruct Hk as [->|Hk]; lia.
  - pose proof (IH t s1) as H2.
    destruct (Script.messageRestaurants w batchLimit rest t s1) as [t' s'].
    destruct H2 as (k & Ha' & Hd' & Hl' & Hc' & Hk).
    exists k. split; [lia|]. split; [lia|]. split; [done|]. split; [done|].
    destruct Hk as [->|Hk]; [by left|right; lia].
Qed.

Lemma script_messageLocations_tally w hourly batchLimit restaurantData : ∀ s,
  Script.dailyMessageCount s = successes (Script.attempts s) →
  Script.dailyMessageCount s ≤ Script.MAX_DAILY_MESSAGES →
  let s' := Script.messageLocations w hourly batchLimit restaurantData s in
  Script.dailyMessageCount s' = successes (Script.attempts s')
  ∧ Script.dailyMessageCount s' ≤ Script.MAX_DAILY_MESSAGES
  ∧ successes (Script.attempts s')
    ≤ successes (Script.attempts s) + length restaurantData * batchLimit.
Proof.
  induction restaurantData as [|[location restaurants] rest IH]; intros s Heq Hcap.
  { simpl. split; [done|]. split; [done|lia]. }
  cbn [Script.messageLocations].
  pose proof (script_messageRestaurants_tally w batchLimit restaurants
                {| Script.locationDMCount := 0; Script.currentHourlyCount := hourly |} s) as H1.
  destruct (Script.messageRestaurants w batchLimit restaurants _ s) as [t1 s1].
  destruct H1 as (k & Ha & Hd & Hl & Hc & Hk). simpl in Hl, Hc.
  destruct (IH s1) as (Heq' & Hcap' & Hle); [lia| destruct Hk as [->|Hk]; lia |].
  split; [done|]. split; [done|]. simpl.
  destruct Hk as [->|Hk]; lia.
Qed.


(** ** The capacity check of the script *)

(** C6, on the failing input — bucket rollover.  The only capacity check of
    the script is the call of [getMessageCounts] on start-up, which runs
    before the path constant of the module is initialised: with 25 sends
    under "14h" it reports, at 15 o'clock, 0 for the hour and 0 for the day,
    where the step reports 0 and 25.  With 100 sends recorded on the day the
    script therefore starts, messages a restaurant and records send number
    101, where the step stops at the daily limit. *)
Theorem script_capacity_check_forgets_the_day :
  Script.getMessageCounts Script.Uninitialised (Parsed fullAfternoon) at15
  = {| hourly := 0; daily := 0 |}
  ∧ Step.getMessageCounts (Parsed fullAfternoon) at15
    = Step.Normal {| hourly := 0; daily := 25 |}
  ∧ Step.getMessageCounts (Parsed fullDay) at15 = Step.Normal {| hourly := 0; daily := 100 |}
  ∧ (Script.main laterWorld [("austin", [tacoStand])] (Parsed fullDay)).1 = Script.Completed
  ∧ forRestaurant <$> Script.attempts
                        (Script.main laterWorld [("austin", [tacoStand])] (Parsed fullDay)).2
    = ["Taco Stand"]
  ∧ Step.getMessageCounts
      (Script.disk (Script.main laterWorld [("austin", [tacoStand])] (Parsed fullDay)).2) at15
    = Step.Normal {| hourly := 1; daily := 101 |}
  ∧ Step.handler laterWorld [tacoStand] (Parsed fullDay)
    = (Step.Failure Step.DailyLimitReached 0,
       {| Step.disk := Parsed fullDay; Step.browser := NotLaunched; Step.attempts := [] |}).
Proof. vm_compute. by repeat split. Qed.

(** ** Quota and failed deliveries *)

Lemma successes_failures (attempts : list Attempt) :
  successes attempts + failures attempts = length attempts.
Proof.
  unfold successes, failures. induction attempts as [|a rest IH]; [done|].
  rewrite !filter_cons. destruct (went a); repeat case_decide; try done; simpl in *; lia.
Qed.

(** The attempts of a run of the step are made for restaurants among the
    first [batchLimit] eligible ones. *)
Lemma step_handler_slots w leads onDisk counts :
  getMessageCounts_try onDisk (clock w 0) = Some counts →
  forRestaurant <$> Step.attempts (Step.handler w leads onDisk).2
  `sublist_of` take ((25 - hourly counts) `min` (100 - daily counts))
                    (selectEligible_spec onDisk leads).*1.
Proof.
  intros Hcounts.
  destruct (step_handler_cases w leads onDisk)
    as [(_ & Ha & _)|(counts' & Hcounts' & _ & _ & _ & Ha & _)]; rewrite Ha.
  { apply sublist_nil_l. }
  rewrite Hcounts in Hcounts'. injection Hcounts' as <-.
  match goal with
  | |- context [Step.sendAll w ?l ?p ?s0] =>
      destruct (step_sendAll_keeps w l p s0) as (_ & _ & more & Hmore & Hsub)
  end.
  rewrite Hmore. simpl. etrans; [exact Hsub|].
  by rewrite fmap_take, toCandidate_names.
Qed.

(** C4, as the code has it — quota is not reserved before delivery.  In the
    script a candidate whose attempts all fail costs nothing: the loop goes
    on with its two counters as they were.  In the step the budget of the
    run is cut before the first attempt, so every attempt, failed or not,
    uses one of its min(25 - hourly, 100 - daily) slots and none is refunded:
    the attempts are made for restaurants among the first that many eligible
    ones, and successes and failures together do not exceed that number.  In
    both files the counts read from the history are unchanged by a failed
    attempt, and a recorded success for a name other than [__proto__] that
    the current hour bucket does not hold raises both by exactly one. *)
Theorem quota_is_not_reserved_before_delivery :
  (∀ w batchLimit restaurantName restaurant rest t s url username s1,
     Script.currentHourlyCount t < 25 →
     Script.locationDMCount t < batchLimit →
     instagramLink restaurant = Some url →
     Script.isRestaurantMessaged Script.Bound (Script.disk s) restaurantName = false →
     Script.extractInstagramUsername url = Some username →
     Script.sendWithRetries w 2 s restaurantName username (Script.generateMessage restaurant)
       = (false, s1) →
     Script.messageRestaurants w batchLimit ((restaurantName, restaurant) :: rest) t s
       = Script.messageRestaurants w batchLimit rest t s1
     ∧ ∀ path now, Script.getMessageCounts path (Script.disk s1) now
                   = Script.getMessageCounts path (Script.disk s) now)
  ∧ (∀ w candidate rest p s username s1,
     Step.hourlyCount p < 25 →
     Step.extractInstagramUsername (Step.instagramUrl candidate) = Some username →
     Step.sendMessage w s (Step.name candidate) username
       (Step.generateMessage (Step.name candidate)) = (false, s1) →
     Step.sendAll w (candidate :: rest) p s = Step.sendAll w rest p s1
     ∧ ∀ now, Step.getMessageCounts (Step.disk s1) now = Step.getMessageCounts (Step.disk s) now)
  ∧ (∀ w leads onDisk counts,
     getMessageCounts_try onDisk (clock w 0) = Some counts →
     let batchLimit := (25 - hourly counts) `min` (100 - daily counts) in
     let sent := Step.attempts (Step.handler w leads onDisk).2 in
     forRestaurant <$> sent `sublist_of` take batchLimit (selectEligible_spec onDisk leads).*1
     ∧ successes sent + failures sent ≤ batchLimit)
  ∧ (∀ disk now restaurantName disk',
     saveMessagedRestaurant_try true disk now restaurantName = Some disk' →
     restaurantName ≠ "__proto__" →
     bucketOf disk now !! restaurantName = None →
     ∃ c, Step.getMessageCounts disk now = Step.Normal c
        ∧ Step.getMessageCounts disk' now
          = Step.Normal {| hourly := S (hourly c); daily := S (daily c) |}
        ∧ Script.getMessageCounts Script.Bound disk now = c
        ∧ Script.getMessageCounts Script.Bound disk' now
          = {| hourly := S (hourly c); daily := S (daily c) |}).
Proof.
  split; [|split; [|split]].
  - intros w batchLimit restaurantName restaurant rest t s url username s1
      Hh Hb Hlink Hnew Huser Hsend.
    rewrite (script_turn w batchLimit restaurantName restaurant rest t s url username) by done.
    rewrite Hsend. split; [done|]. intros path now.
    destruct (script_sendWithRetries_keeps w 2 s restaurantName username
                (Script.generateMessage restaurant)) as (Hd & _).
    rewrite Hsend in Hd. simpl in Hd. by rewrite Hd.
  - intros w candidate rest p s username s1 Hh Huser Hsend.
    rewrite (step_turn w candidate rest p s username) by done.
    rewrite Hsend. split; [done|]. intros now.
    unfold Step.sendMessage in Hsend. injection Hsend as _ <-. done.
  - intros w leads onDisk counts Hcounts. cbv zeta.
    pose proof (step_handler_slots w leads onDisk counts Hcounts) as Hsub.
    split; [exact Hsub|]. rewrite successes_failures.
    apply sublist_length in Hsub. rewrite length_fmap, length_take in Hsub. lia.
  - intros disk now restaurantName disk' Hsave Hne Hnew.
    destruct (counts_after_save disk now restaurantName disk' Hsave Hne Hnew)
      as (c & Hc & Hc').
    exists c. unfold Step.getMessageCounts, Script.getMessageCounts. by rewrite Hc, Hc'.
Qed.

Lemma quota_is_not_reserved_before_delivery_witness :
  forRestaurant <$> Step.attempts
                      (Step.handler firstFailsWorld (leadsOf "a" 4) (Parsed almostFullHour)).2
  `sublist_of` take 2 (selectEligible_spec (Parsed almostFullHour) (leadsOf "a" 4)).*1.
Proof.
  refine (proj1 (proj1 (proj2 (proj2 quota_is_not_reserved_before_delivery))
                   firstFailsWorld (leadsOf "a" 4) (Parsed almostFullHour)
                   {| hourly := 23; daily := 23 |} _)).
  vm_compute. reflexivity.
Defined.

(** With 23 sends in the hour and four eligible restaurants, the step tries
    the first two: the delivery to the first fails, the second is sent and
    recorded, and the third is not tried although the hour then holds 24. *)
Example failed_attempt_uses_up_a_slot :
  let step := Step.handler firstFailsWorld (leadsOf "a" 4) (Parsed almostFullHour) in
  (λ a, (forRestaurant a, went a)) <$> Step.attempts step.2 = [("a0", false); ("a1", true)]
  ∧ Step.getMessageCounts (Step.disk step.2) afternoon
    = Step.Normal {| hourly := 24; daily := 24 |}.
Proof. vm_compute. by split. Qed.

(** C4, as stated, fails: a candidate for whom delivery attempts are made and
    fail leaves the hourly and the daily count where they were, in the script
    and in the step; and in the script a candidate whose retries are
    exhausted does not reduce the budget, 25 deliveries follow it within the
    hour. *)
Lemma failed_attempts_consume_no_quota :
  let before := Parsed oneSent in
  let script := Script.main deafWorld [("austin", [tacoStand])] before in
  let step := Step.handler deafWorld [tacoStand] before in
  let long := Script.main firstFailsWorld [("austin", leadsOf "a" 26)] Missing in
  length (Script.attempts script.2) = 2
  ∧ length (Step.attempts step.2) = 1
  ∧ Step.getMessageCounts before afternoon = Step.Normal {| hourly := 1; daily := 1 |}
  ∧ Step.getMessageCounts (Script.disk script.2) afternoon
    = Step.Normal {| hourly := 1; daily := 1 |}
  ∧ Step.getMessageCounts (Step.disk step.2) afternoon
    = Step.Normal {| hourly := 1; daily := 1 |}
  ∧ Step.getMessageCounts (Step.disk step.2) afternoon
    ≠ Step.Normal {| hourly := 2; daily := 2 |}
  ∧ failures (Script.attempts long.2) = 2
  ∧ successes (Script.attempts long.2) = 25
  ∧ Step.getMessageCounts (Script.disk long.2) afternoon
    = Step.Normal {| hourly := 25; daily := 25 |}.
Proof. vm_compute. repeat split; congruence. Qed.

(** ** The order of selection and the order of the entries *)

Lemma objectEntries_perm {A} (written : list (string * A)) :
  objectEntries written ≡ₚ written.
Proof.
  unfold objectEntries. rewrite merge_sort_Permutation. apply filter_app_complement.
Qed.

Lemma objectEntries_NoDup {A} (written : list (string * A)) :
  NoDup written.*1 → NoDup (objectEntries written).*1.
Proof. intros Hnd. by rewrite objectEntries_perm. Qed.

Lemma objectEntries_plain {A} (written : list (string * A)) :
  (∀ entry, entry ∈ written → arrayIndex entry.1 = None) → objectEntries written = written.
Proof.
  intros Hplain. unfold objectEntries.
  assert (filter (λ entry : string * A, is_Some (arrayIndex entry.1)) written = []
          ∧ filter (λ entry : string * A, ¬ is_Some (arrayIndex entry.1)) written
          = written) as [-> ->]; [|done].
  induction written as [|entry rest IH]; [done|].
  destruct IH as [IH1 IH2]; [by intros e He; apply Hplain; right|].
  assert (Hentry : ¬ is_Some (arrayIndex entry.1)).
  { rewrite (Hplain entry) by left. by intros [? ?]. }
  rewrite filter_cons_False by (by intros ?). rewrite filter_cons_True by done.
  by rewrite IH1, IH2.
Qed.

Lemma objectEntries_front {A} (written : list (string * A)) :
  ∃ front,
    objectEntries written
    = front ++ filter (λ entry : string * A, ¬ is_Some (arrayIndex entry.1)) written
    ∧ front ≡ₚ filter (λ entry : string * A, is_Some (arrayIndex entry.1)) written
    ∧ StronglySorted byIndex front.
Proof.
  eexists. split; [reflexivity|]. split; [apply merge_sort_Permutation|].
  apply StronglySorted_merge_sort.
  - intros a b c. unfold byIndex. lia.
  - intros a b. unfold byIndex. lia.
Qed.

(** ** The script reaches every eligible restaurant *)

Lemma script_sendWithRetries_logs w n s restaurantName username message :
  Script.dailyMessageCount s < Script.MAX_DAILY_MESSAGES →
  ∃ a more,
    Script.attempts (Script.sendWithRetries w (S n) s restaurantName username message).2
    = Script.attempts s ++ a :: more
    ∧ forRestaurant a = restaurantName.
Proof.
  intros Hcap. cbn [Script.sendWithRetries]. unfold Script.sendMessage at 1.
  rewrite decide_False by lia.
  destruct (delivered w (length (Script.attempts s)) username).
  - eexists _, []. simpl. by split.
  - match goal with
    | |- context [Script.sendWithRetries w n ?s1 _ _ _] =>
        destruct (script_sendWithRetries_keeps w n s1 restaurantName username message)
          as (_ & _ & more & Hmore & _)
    end.
    simpl in Hmore. eexists _, more. rewrite Hmore, <-app_assoc. by split.
Qed.

(** When the loop ends below its limits, every restaurant that has a link
    with a username, whose name is no inherited property and which the
    history does not hold when the loop starts, has been attempted. *)
Lemma script_messageRestaurants_reaches w batchLimit leads : ∀ t s,
  NoDup leads.*1 →
  let run := Script.messageRestaurants w batchLimit leads t s in
  Script.currentHourlyCount run.1 < 25 →
  Script.locationDMCount run.1 < batchLimit →
  Script.dailyMessageCount run.2 < Script.MAX_DAILY_MESSAGES →
  ∀ restaurantName restaurant url username,
    (restaurantName, restaurant) ∈ leads →
    instagramLink restaurant = Some url →
    Script.extractInstagramUsername url = Some username →
    inherited restaurantName = false →
    Script.isRestaurantMessaged Script.Bound (Script.disk s) restaurantName = false →
    restaurantName
    ∈ forRestaurant <$> drop (length (Script.attempts s)) (Script.attempts run.2).
Proof.
  induction leads as [|[headName head] rest IH]; intros t s Hnd; cbv zeta.
  { intros _ _ _ n r url u Hin. by apply elem_of_nil in Hin. }
  rewrite fmap_cons in Hnd. apply NoDup_cons in Hnd as [Hfresh Hnd].
  pose proof (script_messageRestaurants_tally w batchLimit ((headName, head) :: rest) t s)
    as Htally.
  destruct (Script.messageRestaurants w batchLimit ((headName, head) :: rest) t s)
    as [t' s'] eqn:Hrun.
  destruct Htally as (k & _ & Hdaily & Hloc & Hhour & _). cbn [fst snd].
  intros Hh Hb Hcap n r url username Hin Hlink Huser Hown Hnew.
  revert Hrun. cbn [Script.messageRestaurants]. cbv zeta.
  rewrite decide_False by lia. rewrite decide_False by lia.
  assert (Hskip : ∀ t0 s0,
            Script.attempts s0 = Script.attempts s →
            Script.disk s0 = Script.disk s →
            (n, r) ∈ rest →
            Script.messageRestaurants w batchLimit rest t0 s0 = (t', s') →
            n ∈ forRestaurant <$> drop (length (Script.attempts s)) (Script.attempts s')).
  { intros t0 s0 Ha Hd Hrest Hrun.
    pose proof (IH t0 s0 Hnd) as Hreach. cbv zeta in Hreach. rewrite Hrun in Hreach.
    rewrite <-Ha. eapply Hreach; try done. by rewrite Hd. }
  apply elem_of_cons in Hin as [[= -> ->]|Hin].
  - rewrite Hlink. rewrite Hnew. rewrite Huser.
    destruct (script_sendWithRetries_logs w 1 s headName username
                (Script.generateMessage head)) as (a & more & Hlog & Hfor); [lia|].
    destruct (Script.sendWithRetries w 2 s headName username (Script.generateMessage head))
      as [success s1].
    simpl in Hlog.
    set (next := if success then Script.recordSuccess w t s1 headName else (t, s1)).
    assert (Hnext : Script.attempts next.2 = Script.attempts s ++ a :: more).
    { subst next. by destruct success. }
    destruct next as [t2 s2]. simpl in Hnext. intros Hrun.
    destruct (script_messageRestaurants_keeps w batchLimit rest t2 s2)
      as (_ & _ & more' & Hmore' & _).
    rewrite Hrun in Hmore'. simpl in Hmore'.
    rewrite Hmore', Hnext, <-app_assoc, drop_app_length.
    rewrite fmap_app, fmap_cons, Hfor. apply elem_of_app. left. apply list_elem_of_here.
  - assert (Hne : n ≠ headName).
    { intros ->. apply Hfresh. apply list_elem_of_fmap. by exists (headName, r). }
    destruct (instagramLink head) as [headUrl|]; [|by apply Hskip].
    destruct (Script.isRestaurantMessaged Script.Bound (Script.disk s) headName);
      [by apply Hskip|].
    destruct (Script.extractInstagramUsername headUrl) as [headUser|]; [|by apply Hskip].
    destruct (script_sendWithRetries_keeps w 2 s headName headUser
                (Script.generateMessage head)) as (Hd & _ & m1 & Ha & _).
    destruct (Script.sendWithRetries w 2 s headName headUser (Script.generateMessage head))
      as [success s1].
    simpl in Hd, Ha.
    set (next := if success then Script.recordSuccess w t s1 headName else (t, s1)).
    assert (Hnext : Script.attempts next.2 = Script.attempts s ++ m1
                    ∧ Script.isRestaurantMessaged Script.Bound (Script.disk next.2) n = false).
    { subst next. destruct success; simpl; [|by rewrite Hd].
      split; [done|]. rewrite Hd. unfold Script.saveMessagedRestaurant.
      destruct (saveMessagedRestaurant_try _ _ _ _) as [disk'|] eqn:Hsave; simpl; [|done].
      destruct (Script.isRestaurantMessaged Script.Bound disk' n) eqn:E; [|done].
      exfalso. apply script_messaged_answer in E.
      eapply (save_keeps_unmessaged _ (Script.disk s) _ headName disk' n); try done.
      intros Hm%script_messaged_answer. congruence. }
    destruct next as [t2 s2]. simpl in Hnext. destruct Hnext as [Ha2 Hnew2]. intros Hrun.
    pose proof (IH t2 s2 Hnd) as Hreach. cbv zeta in Hreach. rewrite Hrun in Hreach.
    specialize (Hreach Hh Hb Hcap n r url username Hin Hlink Huser Hown Hnew2).
    simpl in Hreach. rewrite Ha2, length_app in Hreach.
    apply list_elem_of_fmap in Hreach as (a & -> & Hin').
    apply list_elem_of_fmap. exists a. split; [done|].
    rewrite <-drop_drop in Hin'. eapply elem_of_sublist; [exact Hin'|]. apply sublist_drop.
Qed.

(** C8, as the code has it — selection follows the order of the entries.  The
    loops walk the leads in the order of [Object.entries], which lists the
    names that are array indices first, by ascending index, and the other
    names after them as the file has them; it is the order of the file when
    no name is an array index.  With a history file that is absent or holds
    an object, the candidates the step collects are exactly the entries that
    have a profile link and are not in the history, in that order, and the
    restaurants the step messages follow it.  The loop of the script attempts
    restaurants in that order too, each at most twice, and when it ends below
    its limits it has attempted every such entry whose link holds a username
    and whose name is no inherited property. *)
Theorem selection_follows_the_order_of_entries (disk : HistoryFile) (written : Restaurants) :
  readable disk = true →
  NoDup written.*1 →
  let leads := objectEntries written in
  Step.collectCandidates disk leads []
  = Step.Normal (toCandidate <$> selectEligible_spec disk leads)
  ∧ selectEligible_spec disk leads `sublist_of` leads
  ∧ leads ≡ₚ written
  ∧ (∃ front,
       leads = front ++ filter (λ entry : string * Restaurant,
                                  ¬ is_Some (arrayIndex entry.1)) written
       ∧ front ≡ₚ filter (λ entry : string * Restaurant,
                            is_Some (arrayIndex entry.1)) written
       ∧ StronglySorted byIndex front)
  ∧ ((∀ entry, entry ∈ written → arrayIndex entry.1 = None) → leads = written)
  ∧ (∀ w, forRestaurant <$> Step.attempts (Step.handler w leads disk).2
          `sublist_of` (selectEligible_spec disk leads).*1)
  ∧ (∀ w batchLimit t s, Script.disk s = disk →
       let run := Script.messageRestaurants w batchLimit leads t s in
       ∃ more,
         Script.attempts run.2 = Script.attempts s ++ more
         ∧ forRestaurant <$> more `sublist_of` twice (selectEligible_spec disk leads)
         ∧ (Script.currentHourlyCount run.1 < 25 →
            Script.locationDMCount run.1 < batchLimit →
            Script.dailyMessageCount run.2 < Script.MAX_DAILY_MESSAGES →
            ∀ restaurantName restaurant url username,
              (restaurantName, restaurant) ∈ selectEligible_spec disk leads →
              instagramLink restaurant = Some url →
              Script.extractInstagramUsername url = Some username →
              inherited restaurantName = false →
              restaurantName ∈ forRestaurant <$> more)).
Proof.
  intros Hread Hnd leads.
  split; [by apply step_collectCandidates_readable|].
  split; [apply sublist_filter|]. split; [apply objectEntries_perm|].
  split; [apply objectEntries_front|]. split; [apply objectEntries_plain|]. split.
  - intros w. apply step_handler_keeps.
  - intros w batchLimit t s <- run.
    destruct (script_messageRestaurants_order w batchLimit leads t s) as (more & Hmore & Hsub).
    exists more. fold run in Hmore. split; [done|]. split; [done|].
    intros Hh Hb Hcap restaurantName restaurant url username Hin Hlink Huser Hown.
    apply list_elem_of_filter in Hin as [Helig Hin].
    pose proof (script_messageRestaurants_reaches w batchLimit leads t s
                  (objectEntries_NoDup written Hnd)) as Hreach.
    cbv zeta in Hreach. fold run in Hreach.
    specialize (Hreach Hh Hb Hcap restaurantName restaurant url username Hin Hlink Huser Hown).
    rewrite Hmore, drop_app_length in Hreach. apply Hreach.
    rewrite script_eligible in Helig. apply andb_prop in Helig as [_ Hnew].
    by apply negb_true_iff in Hnew.
Qed.

Lemma selection_follows_the_order_of_entries_witness :
  Step.collectCandidates (Parsed historyWithB) (objectEntries leadsABC) []
  = Step.Normal [ {| Step.name := "A"; Step.instagramUrl := "https://www.instagram.com/a" |};
                  {| Step.name := "C"; Step.instagramUrl := "https://www.instagram.com/c" |} ].
Proof.
  assert (Hnd : NoDup leadsABC.*1) by (apply (bool_decide_unpack _); vm_compute; exact I).
  rewrite (proj1 (selection_follows_the_order_of_entries (Parsed historyWithB) leadsABC
                    eq_refl Hnd)).
  vm_compute. reflexivity.
Defined.

(** C8, as stated, fails: a restaurant whose name is an array index is
    enumerated before the others, wherever the file lists it.  From a file
    that lists "Taco Stand" and then "7", the step selects and messages "7"
    first, and so does the script. *)
Lemma integer_like_names_are_selected_first :
  tacosAndSeven.*1 = ["Taco Stand"; "7"]
  ∧ Step.collectCandidates Missing (objectEntries tacosAndSeven) []
    = Step.Normal
        [ {| Step.name := "7"; Step.instagramUrl := "https://www.instagram.com/seven" |};
          {| Step.name := "Taco Stand";
             Step.instagramUrl := "https://www.instagram.com/tacostand" |} ]
  ∧ forRestaurant
      <$> Step.attempts (Step.handler smoothWorld (objectEntries tacosAndSeven) Missing).2
    = ["7"; "Taco Stand"]
  ∧ forRestaurant
      <$> Script.attempts
            (Script.main smoothWorld [("austin", objectEntries tacosAndSeven)] Missing).2
    = ["7"; "Taco Stand"].
Proof. vm_compute. by repeat split. Qed.

(** * Further properties *)

(** ** Profile URLs *)

Lemma handleChar_slash : handleChar "/" = false.
Proof. reflexivity. Qed.

Lemma append_nil_l (t : string) : EmptyString +:+ t = t.
Proof. reflexivity. Qed.

Lemma append_cons c (s t : string) : String c s +:+ t = String c (s +:+ t).
Proof. reflexivity. Qed.

Lemma handleRun_allHandle s : allHandle (handleRun s).1 = true.
Proof.
  induction s as [|c rest IH]; simpl; [done|].
  destruct (handleChar c) eqn:Hc; [|done].
  destruct (handleRun rest) as [run tl]. simpl in *. by rewrite Hc, IH.
Qed.

Lemma handleRun_app h tl :
  allHandle h = true → stopsRun tl = true → handleRun (h +:+ tl) = (h, tl).
Proof.
  intros Hh Htl. induction h as [|c rest IH]; simpl in *.
  - destruct tl as [|c tl]; [done|]. simpl in *. apply negb_true_iff in Htl. by rewrite Htl.
  - apply andb_prop in Hh as [Hc Hrest]. rewrite Hc, IH by done. done.
Qed.

Lemma allHandle_stops h tl : allHandle h = true → stopsRun tl = true →
  allHandle (h +:+ tl) = true → tl = EmptyString.
Proof.
  intros Hh Htl. induction h as [|c rest IH]; simpl in *.
  - destruct tl as [|c tl]; [done|]. simpl in *. intros [Hc _]%andb_prop.
    by rewrite Hc in Htl.
  - apply andb_prop in Hh as [Hc Hrest]. rewrite Hc. simpl. by apply IH.
Qed.

(** What a pattern returns at some position, [firstMatch] returns for the
    whole string, and nothing else. *)
Lemma firstMatch_some here s u :
  firstMatch here s = Some u → ∃ before at_, s = before +:+ at_ ∧ here at_ = Some u.
Proof.
  induction s as [|c rest IH]; simpl.
  - destruct (here EmptyString) eqn:E; [|done]. intros [= <-]. by exists EmptyString, EmptyString.
  - destruct (here (String c rest)) eqn:E.
    + intros [= <-]. by exists EmptyString, (String c rest).
    + intros (before & at_ & -> & H)%IH. by exists (String c before), at_.
Qed.

Lemma firstMatch_none here s :
  (∀ before at_, s = before +:+ at_ → here at_ = None) → firstMatch here s = None.
Proof.
  induction s as [|c rest IH]; intros Hnone; simpl.
  - by rewrite (Hnone EmptyString EmptyString).
  - rewrite (Hnone EmptyString (String c rest)) by done.
    apply IH. intros before at_ ->. by apply (Hnone (String c before) at_).
Qed.

(** A pattern that starts with the letter i is not found inside a prefix
    without that letter. *)
Lemma firstMatch_skip here p s :
  (∀ c rest, Ascii.eqb "i" c = false → here (String c rest) = None) →
  lacks "i" p = true →
  firstMatch here (p +:+ String "i" s) = firstMatch here (String "i" s).
Proof.
  intros Hhere. induction p as [|c rest IH]; [done|]. simpl.
  intros [Hc Hrest]%andb_prop. apply negb_true_iff in Hc.
  rewrite Hhere by done. by apply IH.
Qed.

Lemma dropPrefix_first p c d s :
  Ascii.eqb c d = false → dropPrefix (String c p) (String d s) = None.
Proof. simpl. by intros ->. Qed.

Lemma dropPrefix_app p s : dropPrefix p (p +:+ s) = Some s.
Proof. induction p as [|c p IH]; simpl; [done|]. by rewrite Ascii.eqb_refl. Qed.

Lemma dropPrefix_some p s after : dropPrefix p s = Some after → s = p +:+ after.
Proof.
  revert s. induction p as [|c p IH]; intros s; simpl; [by intros [= ->]|].
  destruct s as [|d s]; [done|]. destruct (Ascii.eqb c d) eqn:E; [|done].
  apply Ascii.eqb_eq in E as ->. intros H%IH. by rewrite H.
Qed.

(** *** Trailing slashes *)

Lemma stripSlashes_slashes n : stripSlashes (slashes n) = EmptyString.
Proof. induction n as [|n IH]; simpl; [done|]. by rewrite IH. Qed.

Lemma stripSlashes_app_slashes s n : stripSlashes (s +:+ slashes n) = stripSlashes s.
Proof.
  induction s as [|c rest IH]; simpl; [apply stripSlashes_slashes|]. by rewrite IH.
Qed.

Lemma stripSlashes_keeps s : endsWithSlash s = false → stripSlashes s = s.
Proof.
  induction s as [|c rest IH]; [done|]. intros H. simpl.
  destruct rest as [|d rest].
  - simpl in *. by rewrite H.
  - rewrite IH by done. simpl. by rewrite andb_false_r.
Qed.

Lemma stripSlashes_no_slash s : endsWithSlash (stripSlashes s) = false.
Proof.
  induction s as [|c rest IH]; [done|]. simpl.
  destruct (stripSlashes rest) as [|d rest'] eqn:E; simpl.
  - destruct (Ascii.eqb c "/") eqn:Hc; simpl; [done|]. by rewrite Hc.
  - rewrite andb_false_r. done.
Qed.

Lemma endsWithSlash_app s t :
  nonEmpty t = true → endsWithSlash (s +:+ t) = endsWithSlash t.
Proof.
  intros Ht. induction s as [|c rest IH]; [done|]. rewrite <-IH. simpl.
  destruct (rest +:+ t) as [|d u] eqn:E; [|done].
  destruct rest; [rewrite append_nil_l in E; by rewrite E in Ht | discriminate].
Qed.

Lemma allHandle_no_final_slash h : allHandle h = true → endsWithSlash h = false.
Proof.
  induction h as [|c rest IH]; [done|]. simpl. intros [Hc Hrest]%andb_prop.
  destruct rest as [|d rest]; [|by apply IH].
  destruct (Ascii.eqb c "/") eqn:E; [|done].
  apply Ascii.eqb_eq in E as ->. by rewrite handleChar_slash in Hc.
Qed.

Lemma dropFinalSlash_some s place : dropFinalSlash s = Some place → endsWithSlash s = true.
Proof.
  revert place. induction s as [|c rest IH]; intros place; [done|]. simpl.
  destruct rest as [|d rest].
  - destruct (Ascii.eqb c "/"); [done|discriminate].
  - destruct (dropFinalSlash (String d rest)) as [p|] eqn:E; [|discriminate].
    intros _. by apply (IH p).
Qed.

(** *** The three patterns of the script and the pattern of the step *)

Lemma regularProfile_shape s u :
  Script.regularProfile s = Some u → nonEmpty u = true ∧ allHandle u = true.
Proof.
  unfold Script.regularProfile. destruct (dropPrefix _ s) as [after|]; [|done]. simpl.
  pose proof (handleRun_allHandle after) as Hall.
  destruct (handleRun after) as [run tl]. simpl in Hall.
  destruct (nonEmpty run) eqn:Hne; simpl; [|done].
  destruct (_ || _); [|done]. by intros [= <-].
Qed.

Lemma profileWithLanguage_shape s u :
  Script.profileWithLanguage s = Some u → nonEmpty u = true ∧ allHandle u = true.
Proof.
  unfold Script.profileWithLanguage.
  destruct (dropPrefix "instagram.com/" s) as [after|]; [|done]. cbn -[dropPrefix handleRun].
  pose proof (handleRun_allHandle after) as Hall.
  destruct (handleRun after) as [run tl]. simpl in Hall.
  destruct (dropPrefix "/?hl=" tl) as [value|]; [|done]. cbn -[dropPrefix handleRun].
  destruct (nonEmpty run) eqn:Hne; [|done].
  destruct (_ && _); [|done]. by intros [= <-].
Qed.

Lemma profile_shape s u :
  Step.profile s = Some u → nonEmpty u = true ∧ allHandle u = true.
Proof.
  unfold Step.profile. destruct (dropPrefix _ s) as [after|]; [|done]. simpl.
  pose proof (handleRun_allHandle after) as Hall.
  destruct (handleRun after) as [run tl]. simpl in Hall.
  destruct (nonEmpty run) eqn:Hne; [|done]. by intros [= <-].
Qed.

Lemma endsWithSlash_nonEmpty s : endsWithSlash s = true → nonEmpty s = true.
Proof. by destruct s. Qed.

Lemma locationPage_needs_final_slash s u :
  Script.locationPage s = Some u → endsWithSlash s = true.
Proof.
  unfold Script.locationPage. destruct (dropPrefix _ s) as [after|] eqn:Hp; [|done]. simpl.
  destruct (dropFinalSlash after) as [place|] eqn:Hd; [|done]. intros _.
  apply dropPrefix_some in Hp as ->. apply dropFinalSlash_some in Hd.
  rewrite endsWithSlash_app; [done | by apply endsWithSlash_nonEmpty].
Qed.

Lemma locationPage_not_found s :
  endsWithSlash s = false → firstMatch Script.locationPage s = None.
Proof.
  intros Hs. apply firstMatch_none. intros before at_ ->.
  destruct (Script.locationPage at_) as [u|] eqn:E; [|done].
  apply locationPage_needs_final_slash in E.
  rewrite endsWithSlash_app in Hs by (by apply endsWithSlash_nonEmpty). congruence.
Qed.

Lemma regularProfile_other_letter c rest :
  Ascii.eqb "i" c = false → Script.regularProfile (String c rest) = None.
Proof. intros H. unfold Script.regularProfile. by rewrite dropPrefix_first. Qed.

Lemma profile_other_letter c rest :
  Ascii.eqb "i" c = false → Step.profile (String c rest) = None.
Proof. intros H. unfold Step.profile. by rewrite dropPrefix_first. Qed.

(** X1 — what a username looks like.  Whatever the URL, a username returned
    by [extractInstagramUsername], in the script or in the step, is not empty
    and consists of letters, digits, underscores and dots only: it holds no
    slash, no query and no blank. *)
Theorem extracted_username_is_a_handle (url username : string) :
  (Script.extractInstagramUsername url = Some username →
     nonEmpty username = true ∧ allHandle username = true)
  ∧ (Step.extractInstagramUsername url = Some username →
     nonEmpty username = true ∧ allHandle username = true).
Proof.
  split.
  - unfold Script.extractInstagramUsername. destruct (nonEmpty url); [|done]. cbv zeta.
    destruct (firstMatch Script.regularProfile _) as [u|] eqn:E1.
    { intros [= <-]. apply firstMatch_some in E1 as (? & at_ & _ & H).
      by apply (regularProfile_shape at_). }
    destruct (firstMatch Script.profileWithLanguage _) as [u|] eqn:E2.
    { intros [= <-]. apply firstMatch_some in E2 as (? & at_ & _ & H).
      by apply (profileWithLanguage_shape at_). }
    rewrite locationPage_not_found by apply stripSlashes_no_slash. done.
  - unfold Step.extractInstagramUsername. destruct (nonEmpty url); [|done].
    intros (? & at_ & _ & H)%firstMatch_some. by apply (profile_shape at_).
Qed.

Lemma extracted_username_is_a_handle_witness :
  nonEmpty "joes.pizza" = true ∧ allHandle "joes.pizza" = true.
Proof.
  apply (proj1 (extracted_username_is_a_handle
                  "https://www.instagram.com/joes.pizza/?hl=en" "joes.pizza")).
  vm_compute. reflexivity.
Defined.

(** X2 — the pattern for location pages is never used.  The script strips
    the trailing slashes of the URL before it tries its patterns, and the
    third pattern needs the text to end in a slash: it matches no URL, so the
    result is that of the first two patterns alone. *)
Theorem location_page_pattern_never_matches (url : string) :
  firstMatch Script.locationPage (stripSlashes url) = None
  ∧ Script.extractInstagramUsername url
    = if nonEmpty url then
        match firstMatch Script.regularProfile (stripSlashes url) with
        | Some username => Some username
        | None => firstMatch Script.profileWithLanguage (stripSlashes url)
        end
      else None.
Proof.
  assert (H : firstMatch Script.locationPage (stripSlashes url) = None)
    by apply locationPage_not_found, stripSlashes_no_slash.
  split; [exact H|]. unfold Script.extractInstagramUsername. cbv zeta. rewrite H.
  destruct (nonEmpty url); [|done].
  destruct (firstMatch Script.regularProfile _); [done|].
  by destruct (firstMatch Script.profileWithLanguage _).
Qed.

Lemma append_assoc3 (a b c : string) : (a +:+ b) +:+ c = a +:+ b +:+ c.
Proof. induction a as [|x a IH]; [done|]. rewrite !append_cons. by rewrite IH. Qed.

Lemma append_nil_r (s : string) : s +:+ EmptyString = s.
Proof. induction s as [|x s IH]; [done|]. rewrite append_cons. by rewrite IH. Qed.

Lemma nonEmpty_app_r (s t : string) : nonEmpty t = true → nonEmpty (s +:+ t) = true.
Proof. intros H. by destruct s. Qed.

(** X3 — a profile URL parses back to its handle (script).  For a handle of
    class characters, behind any scheme and host prefix without the letter i
    ("https://www.", "http://", none), followed by any number of trailing
    slashes, the script's [extractInstagramUsername] returns the handle. *)
Theorem script_profile_url_round_trip (prefix handle : string) (n : nat) :
  lacks "i" prefix = true →
  nonEmpty handle = true →
  allHandle handle = true →
  Script.extractInstagramUsername (prefix +:+ "instagram.com/" +:+ handle +:+ slashes n)
  = Some handle.
Proof.
  intros Hp Hne Hall. unfold Script.extractInstagramUsername.
  rewrite nonEmpty_app_r by done. cbv zeta.
  assert (Hstrip : stripSlashes (prefix +:+ "instagram.com/" +:+ handle +:+ slashes n)
                   = prefix +:+ "instagram.com/" +:+ handle).
  { rewrite <-(append_assoc3 "instagram.com/"), <-(append_assoc3 prefix).
    rewrite stripSlashes_app_slashes. apply stripSlashes_keeps.
    rewrite endsWithSlash_app by (by apply nonEmpty_app_r).
    rewrite endsWithSlash_app by done. by apply allHandle_no_final_slash. }
  rewrite Hstrip.
  change ("instagram.com/" +:+ handle) with (String "i" ("nstagram.com/" +:+ handle)).
  rewrite (firstMatch_skip Script.regularProfile) by (done || apply regularProfile_other_letter).
  change (String "i" ("nstagram.com/" +:+ handle)) with ("instagram.com/" +:+ handle).
  assert (Hhere : Script.regularProfile ("instagram.com/" +:+ handle) = Some handle).
  { unfold Script.regularProfile. rewrite dropPrefix_app. simpl.
    rewrite <-(append_nil_r handle) at 1. rewrite handleRun_app by done.
    by rewrite Hne. }
  change ("instagram.com/" +:+ handle) with (String "i" ("nstagram.com/" +:+ handle)) in *.
  cbn [firstMatch]. by rewrite Hhere.
Qed.

Lemma script_profile_url_round_trip_witness :
  Script.extractInstagramUsername "https://www.instagram.com/joes.pizza//" = Some "joes.pizza".
Proof.
  apply (script_profile_url_round_trip "https://www." "joes.pizza" 2); reflexivity.
Defined.

(** X4 — a profile URL parses back to its handle (step).  The step's pattern
    is not anchored at the end: behind a prefix without the letter i it
    returns the handle whatever follows it, be it a slash, a query or a
    further path. *)
Theorem step_profile_url_round_trip (prefix handle rest : string) :
  lacks "i" prefix = true →
  nonEmpty handle = true →
  allHandle handle = true →
  stopsRun rest = true →
  Step.extractInstagramUsername (prefix +:+ "instagram.com/" +:+ handle +:+ rest)
  = Some handle.
Proof.
  intros Hp Hne Hall Hrest. unfold Step.extractInstagramUsername.
  rewrite nonEmpty_app_r by done.
  change ("instagram.com/" +:+ handle +:+ rest)
    with (String "i" ("nstagram.com/" +:+ handle +:+ rest)).
  rewrite (firstMatch_skip Step.profile) by (done || apply profile_other_letter).
  change (String "i" ("nstagram.com/" +:+ handle +:+ rest))
    with ("instagram.com/" +:+ handle +:+ rest).
  assert (Hhere : Step.profile ("instagram.com/" +:+ handle +:+ rest) = Some handle).
  { unfold Step.profile. rewrite dropPrefix_app. simpl.
    rewrite handleRun_app by done. by rewrite Hne. }
  change ("instagram.com/" +:+ handle +:+ rest)
    with (String "i" ("nstagram.com/" +:+ handle +:+ rest)) in *.
  cbn [firstMatch]. by rewrite Hhere.
Qed.

Lemma step_profile_url_round_trip_witness :
  Step.extractInstagramUsername "https://www.instagram.com/joes.pizza/?hl=en" = Some "joes.pizza".
Proof.
  apply (step_profile_url_round_trip "https://www." "joes.pizza" "/?hl=en"); reflexivity.
Defined.

(** ** The message *)

Lemma firstWord_lacks_blank s : lacks " " (firstWord s) = true.
Proof.
  induction s as [|c rest IH]; [done|]. cbn [firstWord].
  destruct (Ascii.eqb c " ") eqn:E; [done|]. cbn [lacks].
  rewrite Ascii.eqb_sym, E. done.
Qed.

Lemma firstWord_app first rest :
  lacks " " first = true → firstWord (first +:+ String " " rest) = first.
Proof.
  induction first as [|c first IH]; [done|]. cbn [lacks]. rewrite ?append_cons. cbn [firstWord].
  intros [Hc Hfirst]%andb_prop. apply negb_true_iff in Hc.
  rewrite Ascii.eqb_sym, Hc. by rewrite IH.
Qed.

Lemma firstWord_whole first : lacks " " first = true → firstWord first = first.
Proof.
  induction first as [|c first IH]; [done|]. cbn [lacks]. rewrite ?append_cons. cbn [firstWord].
  intros [Hc Hfirst]%andb_prop. apply negb_true_iff in Hc.
  rewrite Ascii.eqb_sym, Hc. by rewrite IH.
Qed.

(** X5 — the message uses the first word of the name only.  The word put
    into the message never holds a blank; a name is cut at its first blank,
    so that two restaurants whose names agree up to there get the same
    message, in the step (which takes the key of the restaurant) and in the
    script (which takes its [name] field). *)
Theorem message_uses_first_word_only (first rest : string) :
  lacks " " first = true →
  (∀ s, lacks " " (firstWord s) = true)
  ∧ Step.generateMessage (first +:+ " " +:+ rest) = pitch first
  ∧ Step.generateMessage first = pitch first
  ∧ (∀ restaurant, name restaurant = first +:+ " " +:+ rest →
       Script.generateMessage restaurant = pitch first).
Proof.
  intros Hfirst. split; [apply firstWord_lacks_blank|].
  unfold Step.generateMessage, Script.generateMessage.
  change (" " +:+ rest) with (String " " rest).
  rewrite firstWord_app, firstWord_whole by done.
  split; [done|]. split; [done|]. intros restaurant ->. by rewrite firstWord_app.
Qed.

Lemma message_uses_first_word_only_witness :
  Step.generateMessage ("Taco" +:+ " " +:+ "Stand") = pitch "Taco".
Proof.
  apply (message_uses_first_word_only "Taco" "Stand"). reflexivity.
Defined.

(** ** The counts and the buckets *)

Lemma hourKey_inj a b : hourKey a = hourKey b → a = b.
Proof.
  unfold hourKey. intros H. apply (inj pretty).
  revert H. generalize (pretty a) (pretty b). intros x.
  induction x as [|c x IH]; intros [|d y]; simpl; try done.
  - intros [= <- H]. by destruct y.
  - intros [= -> H]. by destruct x.
  - intros [= -> H]. by rewrite (IH y H).
Qed.

Lemma counts_readable disk now c :
  getMessageCounts_try disk now = Some c → hourly c ≤ daily c.
Proof.
  destruct disk as [| | |data]; try done.
  - by intros [= <-].
  - destruct (data !! today now) as [day|] eqn:Hday.
    + rewrite (counts_of_day data now day Hday). intros [= <-]. simpl.
      destruct (day !! currentHourKey now) as [names|] eqn:E; simpl; [|lia].
      by apply (dayTotal_bucket day (currentHourKey now)).
    + simpl. rewrite Hday. by intros [= <-].
Qed.

(** X6 — the hourly count never exceeds the daily count.  Whatever the
    history file holds and whatever the time, the hourly count returned by
    [getMessageCounts] is at most the daily count, in both files. *)
Theorem hourly_count_within_daily_count (disk : HistoryFile) (now : Now) :
  (∀ c, Step.getMessageCounts disk now = Step.Normal c → hourly c ≤ daily c)
  ∧ (∀ path, hourly (Script.getMessageCounts path disk now)
             ≤ daily (Script.getMessageCounts path disk now)).
Proof.
  split.
  - intros c. unfold Step.getMessageCounts.
    destruct (getMessageCounts_try disk now) as [c'|] eqn:E; [|done].
    intros [= <-]. by eapply counts_readable.
  - intros [|]; simpl; [lia|].
    destruct (getMessageCounts_try disk now) as [c'|] eqn:E; simpl; [|lia].
    by eapply counts_readable.
Qed.

Lemma hourly_count_within_daily_count_witness :
  hourly {| hourly := 25; daily := 25 |} ≤ daily {| hourly := 25; daily := 25 |}.
Proof.
  apply (proj1 (hourly_count_within_daily_count (Parsed fullAfternoon) afternoon)).
  vm_compute. reflexivity.
Defined.

Lemma save_shape writable disk now restaurantName disk' :
  saveMessagedRestaurant_try writable disk now restaurantName = Some disk' →
  ∃ data, (disk = Missing ∧ data = ∅ ∨ disk = Parsed data)
        ∧ disk' = Parsed (markMessaged data now restaurantName).
Proof.
  destruct disk as [| | |data]; simpl; try done; destruct writable; try done;
    intros [= <-]; eauto.
Qed.

Lemma counts_of_empty_or_parsed disk data now :
  disk = Missing ∧ data = ∅ ∨ disk = Parsed data →
  getMessageCounts_try disk now = getMessageCounts_try (Parsed data) now.
Proof. intros [[-> ->]| ->]; [|done]. simpl. by rewrite lookup_empty. Qed.

(** X7 — a send recorded under another date or another hour.  A record
    written under another date changes neither count read today.  A record
    written under another hour of the same date leaves the hourly count as it
    was and raises the daily count by at most one. *)
Theorem counts_ignore_other_buckets
    (writable : bool) (disk disk' : HistoryFile) (then_ now : Now) (restaurantName : string) :
  saveMessagedRestaurant_try writable disk then_ restaurantName = Some disk' →
  (today then_ ≠ today now →
     Step.getMessageCounts disk' now = Step.getMessageCounts disk now)
  ∧ (today then_ = today now → currentHour then_ ≠ currentHour now →
     ∃ c c', Step.getMessageCounts disk now = Step.Normal c
           ∧ Step.getMessageCounts disk' now = Step.Normal c'
           ∧ hourly c' = hourly c
           ∧ daily c ≤ daily c' ≤ daily c + 1).
Proof.
  intros Hsave. pose proof Hsave as (data & Hdisk & ->)%save_shape.
  unfold Step.getMessageCounts. rewrite (counts_of_empty_or_parsed disk data now Hdisk).
  split.
  - intros Hdate. simpl. unfold markMessaged. by rewrite lookup_insert_ne.
  - intros Hdate Hhour.
    assert (Hkey : currentHourKey then_ ≠ currentHourKey now).
    { intros H%hourKey_inj. done. }
    assert (∃ c, getMessageCounts_try (Parsed data) then_ = Some c) as [c0 Hc0].
    { simpl. destruct (data !! today then_); eauto. }
    destruct (counts_after_save_le true (Parsed data) then_ restaurantName _ c0 eq_refl Hc0)
      as (c1 & Hc1 & _ & Hd1 & _ & Hd1').
    set (day := default (∅ : gmap string (gmap string bool)) (data !! today then_)) in *.
    set (day' := <[currentHourKey then_ :=
                    setFlag (default ∅ (day !! currentHourKey then_)) restaurantName]> day).
    assert (Hday' : markMessaged data then_ restaurantName !! today now = Some day').
    { unfold markMessaged. rewrite <-Hdate. apply lookup_insert_eq. }
    assert (Hbefore : getMessageCounts_try (Parsed data) now
                      = Some {| hourly := from_option size 0 (day !! currentHourKey now);
                                daily := dayTotal day |}).
    { destruct (data !! today then_) as [d|] eqn:E.
      - rewrite Hdate in E. by rewrite (counts_of_day data now d E).
      - simpl. rewrite <-Hdate, E. subst day. simpl. rewrite lookup_empty. done. }
    assert (Hc0' : getMessageCounts_try (Parsed data) then_
                   = Some {| hourly := from_option size 0 (day !! currentHourKey then_);
                             daily := dayTotal day |}).
    { destruct (data !! today then_) as [d|] eqn:E.
      - by rewrite (counts_of_day data then_ d E).
      - simpl. rewrite E. subst day. simpl. rewrite lookup_empty. done. }
    rewrite Hc0 in Hc0'. injection Hc0' as ->.
    rewrite (counts_of_day _ then_ day') in Hc1
      by (unfold markMessaged; apply lookup_insert_eq).
    injection Hc1 as <-. simpl in Hd1, Hd1'.
    rewrite Hbefore, (counts_of_day _ now day' Hday').
    eexists _, _. split; [done|]. split; [done|]. simpl.
    subst day'. rewrite lookup_insert_ne by done. split; [done|lia].
Qed.

Lemma counts_ignore_other_buckets_witness :
  Step.getMessageCounts (Parsed (markMessaged oneSent {| today := "2025-03-11"; currentHour := 9 |}
                                   "Taco Stand")) afternoon
  = Step.getMessageCounts (Parsed oneSent) afternoon.
Proof.
  apply (proj1 (counts_ignore_other_buckets true (Parsed oneSent) _
                  {| today := "2025-03-11"; currentHour := 9 |} afternoon "Taco Stand" eq_refl)).
  vm_compute. discriminate.
Defined.

(** X8 — saving a name twice.  When the current hour bucket already holds the
    name with its flag set, saving it again writes the file as it was: a
    restaurant is never counted twice within an hour. *)
Theorem saving_again_changes_nothing (disk : HistoryFile) (now : Now) (restaurantName : string) :
  bucketOf disk now !! restaurantName = Some true →
  saveMessagedRestaurant_try true disk now restaurantName = Some disk
  ∧ Script.saveMessagedRestaurant Script.Bound true disk now restaurantName = disk
  ∧ Step.saveMessagedRestaurant true disk now restaurantName = Step.Normal disk.
Proof.
  intros Hflag.
  assert (H : saveMessagedRestaurant_try true disk now restaurantName = Some disk).
  { destruct disk as [| | |data]; simpl in *; try by rewrite lookup_empty in Hflag.
    do 2 f_equal. unfold markMessaged.
    destruct (data !! today now) as [day|] eqn:Hday; simpl in *;
      [|by rewrite !lookup_empty in Hflag].
    destruct (day !! currentHourKey now) as [names|] eqn:Hnames; simpl in *;
      [|by rewrite lookup_empty in Hflag].
    unfold setFlag. rewrite Hflag.
    rewrite (insert_id names) by done. rewrite (insert_id day) by done.
    by apply insert_id. }
  split; [exact H|]. unfold Script.saveMessagedRestaurant, Step.saveMessagedRestaurant.
  by rewrite H.
Qed.

Lemma saving_again_changes_nothing_witness :
  saveMessagedRestaurant_try true (Parsed oneSent) afternoon "Old Diner" = Some (Parsed oneSent).
Proof.
  apply (saving_again_changes_nothing (Parsed oneSent) afternoon "Old Diner"). reflexivity.
Defined.

(** X9 — a save marks one restaurant only.  After a save of one name that
    goes through, [isRestaurantMessaged] answers for every other name that is
    no property of [Object.prototype] what it answered before, in both files.
    (For an inherited name such as "constructor" the answer turns to true
    with the first bucket that is created.) *)
Theorem save_marks_no_other_restaurant
    (writable : bool) (disk disk' : HistoryFile) (now : Now) (restaurantName other : string) :
  saveMessagedRestaurant_try writable disk now restaurantName = Some disk' →
  other ≠ restaurantName →
  other ∉ inheritedKeys →
  Step.isRestaurantMessaged disk' other = Step.isRestaurantMessaged disk other
  ∧ Script.isRestaurantMessaged Script.Bound disk' other
    = Script.isRestaurantMessaged Script.Bound disk other.
Proof.
  intros Hsave Hne Hown.
  assert (Hinh : inherited other = false) by (unfold inherited; by rewrite bool_decide_eq_false).
  assert (H : isRestaurantMessaged_try disk' other = isRestaurantMessaged_try disk other).
  { pose proof (save_keeps_messaged writable disk now restaurantName disk' other) as Hkeep.
    pose proof (save_keeps_unrecorded writable disk now restaurantName disk' other) as Hnot.
    pose proof Hsave as (data & Hdisk & ->)%save_shape.
    unfold messagedOn in Hkeep.
    assert (∃ b, isRestaurantMessaged_try disk other = Some b) as [b Hb].
    { destruct Hdisk as [[-> _]| ->]; simpl; eauto. }
    rewrite Hb in *. simpl in *. destruct b.
    - by rewrite Hkeep.
    - destruct (scanHistory _ other) eqn:E; [|done]. exfalso.
      apply scanHistory_true in E as (d & h & Hheld).
      apply (heldAt_recordedAt _ _ _ _ Hinh) in Hheld.
      eapply Hnot; [|done|done|reflexivity|exact Hheld].
      apply unmessaged_unrecorded. unfold messagedOn. rewrite Hb. discriminate. }
  unfold Step.isRestaurantMessaged, Script.isRestaurantMessaged. by rewrite H.
Qed.

Lemma save_marks_no_other_restaurant_witness :
  Step.isRestaurantMessaged (Parsed (markMessaged oneSent afternoon "Taco Stand")) "Noodle Bar"
  = Step.isRestaurantMessaged (Parsed oneSent) "Noodle Bar".
Proof.
  refine (proj1 (save_marks_no_other_restaurant true (Parsed oneSent) _ afternoon
                   "Taco Stand" "Noodle Bar" eq_refl _ _)).
  - discriminate.
  - apply (bool_decide_unpack _). vm_compute. exact I.
Defined.

(** The exclusion is needed: the first save into an absent file makes the
    readers answer true for "constructor". *)
Example first_bucket_turns_inherited_names_true :
  Step.isRestaurantMessaged Missing "constructor" = Step.Normal false
  ∧ Step.isRestaurantMessaged (Parsed (markMessaged ∅ afternoon "Taco Stand")) "constructor"
    = Step.Normal true.
Proof. vm_compute. by split. Qed.

(** ** The caps of one run *)

Lemma twice_names (leads : Restaurants) restaurantName :
  restaurantName ∈ twice leads → restaurantName ∈ leads.*1.
Proof.
  unfold twice. induction leads as [|[n r] rest IH]; simpl; [done|].
  rewrite !elem_of_cons. intros [->|[->|H]]; [by left | by left | right; by apply IH].
Qed.

(** The attempts of the loop over one location: at most [batchLimit] of
    them went through, and they were made for restaurants of the location. *)
Lemma script_messageRestaurants_part w batchLimit restaurants t s :
  Script.locationDMCount t = 0 →
  ∃ part,
    Script.attempts (Script.messageRestaurants w batchLimit restaurants t s).2
    = Script.attempts s ++ part
    ∧ successes part ≤ batchLimit
    ∧ ∀ a, a ∈ part → forRestaurant a ∈ restaurants.*1.
Proof.
  intros Hzero.
  destruct (script_messageRestaurants_order w batchLimit restaurants t s)
    as (part & Hpart & Hsub).
  pose proof (script_messageRestaurants_tally w batchLimit restaurants t s) as Htally.
  destruct (Script.messageRestaurants w batchLimit restaurants t s) as [t' s'].
  simpl in Hpart. destruct Htally as (k & Hsucc & _ & Hloc & _ & Hk).
  exists part. split; [done|]. split.
  - rewrite Hpart, successes_app in Hsucc. destruct Hk as [->|[Hle _]]; lia.
  - intros a Ha.
    assert (Hin : forRestaurant a ∈ twice (selectEligible_spec (Script.disk s) restaurants)).
    { eapply elem_of_sublist; [|exact Hsub]. by apply list_elem_of_fmap_2. }
    apply twice_names in Hin. eapply elem_of_sublist; [exact Hin|].
    apply fmap_sublist, sublist_filter.
Qed.

Lemma script_messageLocations_parts w hourly batchLimit restaurantData : ∀ s,
  ∃ perLocation : list (list Attempt),
    Script.attempts (Script.messageLocations w hourly batchLimit restaurantData s)
    = Script.attempts s ++ concat perLocation
    ∧ Forall2 (λ (entry : string * Restaurants) (part : list Attempt),
                 successes part ≤ batchLimit
                 ∧ ∀ a, a ∈ part → forRestaurant a ∈ entry.2.*1)
              restaurantData perLocation.
Proof.
  induction restaurantData as [|[location restaurants] rest IH]; intros s.
  { exists []. simpl. rewrite app_nil_r. split; [done | constructor]. }
  cbn [Script.messageLocations].
  destruct (script_messageRestaurants_part w batchLimit restaurants
              {| Script.locationDMCount := 0; Script.currentHourlyCount := hourly |} s eq_refl)
    as (part & Hpart & Hsucc & Hfor).
  destruct (Script.messageRestaurants w batchLimit restaurants _ s) as [t1 s1].
  simpl in Hpart. destruct (IH s1) as (parts & Hparts & Hall).
  exists (part :: parts). split; [|by constructor].
  rewrite Hparts, Hpart. simpl. by rewrite app_assoc.
Qed.

(** X10 — the caps of one run of the script.  Whatever the history file
    holds, the attempts of a run of the script fall into one consecutive
    part per location of [restaurants.json], made for restaurants of that
    location, and at most 25 attempts of each part went through; at most
    100 went through in all, and the counter of the [InstagramAutomation]
    object equals the number of deliveries that went through. *)
Theorem script_run_caps (w : World) (restaurantData : LocationData) (onDisk : HistoryFile) :
  let s := (Script.main w restaurantData onDisk).2 in
  Script.dailyMessageCount s = successes (Script.attempts s)
  ∧ successes (Script.attempts s) ≤ 100
  ∧ ∃ perLocation : list (list Attempt),
      Script.attempts s = concat perLocation
      ∧ Forall2 (λ (entry : string * Restaurants) (part : list Attempt),
                   successes part ≤ 25
                   ∧ ∀ a, a ∈ part → forRestaurant a ∈ entry.2.*1)
                restaurantData perLocation.
Proof.
  unfold Script.main. cbv zeta.
  assert (Hnone : 0 = successes [] ∧ successes [] ≤ 100
    ∧ ∃ perLocation : list (list Attempt),
        [] = concat perLocation
        ∧ Forall2 (λ (entry : string * Restaurants) (part : list Attempt),
                     successes part ≤ 25
                     ∧ ∀ a, a ∈ part → forRestaurant a ∈ entry.2.*1)
                  restaurantData perLocation).
  { split; [done|]. split; [unfold successes; simpl; lia|].
    exists ((λ _, []) <$> restaurantData). split.
    - induction restaurantData as [|? ? IH]; [done|]. simpl. exact IH.
    - induction restaurantData as [|? ? IH]; [constructor|]. simpl. constructor; [|exact IH].
      split; [unfold successes; simpl; lia|]. intros ? Hnil. by apply elem_of_nil in Hnil. }
  case_decide; [apply Hnone|]. case_decide; [apply Hnone|].
  destruct (initResult w); [|apply Hnone]. destruct (loginResult w); [|apply Hnone].
  match goal with
  | |- context [Script.messageLocations w ?h ?b restaurantData ?s0] =>
      destruct (script_messageLocations_tally w h b restaurantData s0)
        as (Heq & Hcap & _); [done | simpl; unfold Script.MAX_DAILY_MESSAGES; lia |];
      destruct (script_messageLocations_parts w h b restaurantData s0)
        as (perLocation & Hparts & Hall)
  end.
  simpl in *. unfold Script.MAX_DAILY_MESSAGES in Hcap.
  split; [done|]. split; [lia|]. exists perLocation. split; [done|].
  eapply Forall2_impl; [exact Hall|]. simpl. intros entry part [Hle Hfor]. split; [lia|done].
Qed.

(** ** What the step reports *)

Lemma save_readable writable disk now restaurantName :
  readable disk = true →
  saveMessagedRestaurant_try writable disk now restaurantName
  = if writable
    then Some (Parsed (markMessaged (match disk with Parsed data => data | _ => ∅ end)
                         now restaurantName))
    else None.
Proof. by destruct disk, writable. Qed.

(** The loop of the step: one attempt per candidate at most, and the count
    of successes it keeps is the number of deliveries that went through and
    were written to the history. *)
Lemma step_sendAll_tally w candidates : ∀ p s,
  let '(p', s') := Step.sendAll w candidates p s in
  ∃ more, Step.attempts s' = Step.attempts s ++ more
    ∧ length more ≤ length candidates
    ∧ Step.successCount p' ≤ Step.successCount p + successes more
    ∧ Step.hourlyCount p' + Step.successCount p = Step.hourlyCount p + Step.successCount p'
    ∧ (readable (Step.disk s) = true → (∀ k, writable w k = true) →
         Step.successCount p' = Step.successCount p + successes more).
Proof.
  induction candidates as [|candidate rest IH]; intros p s.
  { simpl. exists []. rewrite app_nil_r. unfold successes. simpl.
    split; [done|]. split; [lia|]. split; [lia|]. split; [lia|]. intros _ _. lia. }
  assert (Hskip : ∀ p0 s0, Step.attempts s0 = Step.attempts s → Step.disk s0 = Step.disk s →
    p0 = p →
    let '(p', s') := Step.sendAll w rest p0 s0 in
    ∃ more, Step.attempts s' = Step.attempts s ++ more
      ∧ length more ≤ length (candidate :: rest)
      ∧ Step.successCount p' ≤ Step.successCount p + successes more
      ∧ Step.hourlyCount p' + Step.successCount p = Step.hourlyCount p + Step.successCount p'
      ∧ (readable (Step.disk s) = true → (∀ k, writable w k = true) →
           Step.successCount p' = Step.successCount p + successes more)).
  { intros p0 s0 Ha Hd ->. pose proof (IH p s0) as H.
    destruct (Step.sendAll w rest p s0) as [p' s'].
    destruct H as (more & Hm & Hl & Hs & Hh & Hw). exists more.
    rewrite <-Ha. split; [done|]. split; [simpl; lia|]. split; [done|]. split; [done|].
    by rewrite <-Hd. }
  cbn [Step.sendAll]. cbv zeta. case_decide as Hlimit.
  { exists []. rewrite app_nil_r. unfold successes. simpl.
    split; [done|]. split; [lia|]. split; [lia|]. split; [lia|]. intros _ _. lia. }
  destruct (Step.extractInstagramUsername (Step.instagramUrl candidate)) as [username|];
    [|by apply Hskip].
  unfold Step.sendMessage.
  set (a := {| forRestaurant := Step.name candidate; toUsername := username;
               text := Step.generateMessage (Step.name candidate);
               went := delivered w (length (Step.attempts s)) username |}).
  assert (Hwent : went a = delivered w (length (Step.attempts s)) username) by done.
  assert (Hgo : ∀ p0 s0, Step.attempts s0 = Step.attempts s ++ [a] →
    Step.successCount p0 ≤ Step.successCount p + (if went a then 1 else 0) →
    Step.hourlyCount p0 + Step.successCount p = Step.hourlyCount p + Step.successCount p0 →
    (readable (Step.disk s) = true → (∀ k, writable w k = true) →
       readable (Step.disk s0) = true
       ∧ Step.successCount p0 = Step.successCount p + (if went a then 1 else 0)) →
    let '(p', s') := Step.sendAll w rest p0 s0 in
    ∃ more, Step.attempts s' = Step.attempts s ++ more
      ∧ length more ≤ length (candidate :: rest)
      ∧ Step.successCount p' ≤ Step.successCount p + successes more
      ∧ Step.hourlyCount p' + Step.successCount p = Step.hourlyCount p + Step.successCount p'
      ∧ (readable (Step.disk s) = true → (∀ k, writable w k = true) →
           Step.successCount p' = Step.successCount p + successes more)).
  { intros p0 s0 Ha Hs0 Hh0 Hw0. pose proof (IH p0 s0) as Hrec.
    destruct (Step.sendAll w rest p0 s0) as [p' s'].
    destruct Hrec as (more & Hm & Hl & Hs & Hh & Hw). exists (a :: more).
    assert (Hsucc : successes (a :: more) = (if went a then 1 else 0) + successes more).
    { change (a :: more) with ([a] ++ more). rewrite successes_app. f_equal.
      unfold successes. rewrite filter_cons, filter_nil. by destruct (went a). }
    rewrite Hm, Ha, <-app_assoc. split; [done|]. split; [simpl; lia|].
    split; [lia|]. split; [lia|]. intros Hr Hall.
    destruct (Hw0 Hr Hall) as [Hr0 Heq0]. rewrite (Hw Hr0 Hall). lia. }
  destruct (delivered w (length (Step.attempts s)) username) eqn:Hok.
  - unfold Step.saveMessagedRestaurant. simpl.
    destruct (saveMessagedRestaurant_try _ _ _ _) as [disk'|] eqn:Hsave.
    + apply Hgo; simpl; rewrite ?Hwent; [done|lia|lia|].
      intros _ _. split; [|lia]. apply save_shape in Hsave as (? & _ & ->). done.
    + apply Hgo; simpl; rewrite ?Hwent; [done|lia|lia|].
      intros Hr Hall. rewrite save_readable, Hall in Hsave by done. discriminate.
  - apply Hgo; simpl; rewrite ?Hwent; [done|lia|lia|]. intros Hr _. split; [done|lia].
Qed.

(** The outcomes of the handler: an error report, the report that there is
    nobody to message, or the report of the loop. *)
Lemma step_handler_outcomes w leads onDisk :
  (∃ reason b, b ≠ Open
     ∧ Step.handler w leads onDisk
       = (Step.Failure reason 0,
          {| Step.disk := onDisk; Step.browser := b; Step.attempts := [] |}))
  ∨ Step.handler w leads onDisk
    = (Step.Summary 0 "No restaurants to message",
       {| Step.disk := onDisk; Step.browser := NotLaunched; Step.attempts := [] |})
  ∨ ∃ counts,
      getMessageCounts_try onDisk (clock w 0) = Some counts
      ∧ hourly counts < 25 ∧ daily counts < 100
      ∧ let batchLimit := (25 - hourly counts) `min` (100 - daily counts) in
        let loop :=
          Step.sendAll w (take batchLimit (toCandidate <$> selectEligible_spec onDisk leads))
            {| Step.successCount := 0; Step.hourlyCount := hourly counts |}
            (freshStepSession onDisk) in
        Step.handler w leads onDisk
        = (Step.Summary (Step.successCount loop.1)
             ("Successfully sent " +:+ pretty (Step.successCount loop.1) +:+ " DMs"),
           Step.withBrowser loop.2 (closeBrowser (Step.browser loop.2))).
Proof.
  unfold Step.handler, Step.campaign, Step.getMessageCounts. cbv zeta. simpl.
  destruct (getMessageCounts_try onDisk (clock w 0)) as [counts|] eqn:Hc;
    [|left; by exists (Step.Raised Step.loggerUnbound), NotLaunched].
  case_decide; [left; by exists Step.HourlyLimitReached, NotLaunched|].
  case_decide; [left; by exists Step.DailyLimitReached, NotLaunched|].
  rewrite step_collectCandidates_readable by (apply (readable_counts _ (clock w 0)); eauto).
  simpl.
  destruct (toCandidate <$> selectEligible_spec onDisk leads) as [|c cs] eqn:Hsel;
    [by right; left|].
  destruct (initResult w) as [|[]];
    [|left; by exists (Step.Raised Step.BrowserInitializationFailed), Closed
     |left; by exists (Step.Raised Step.BrowserInitializationFailed), NotLaunched].
  destruct (loginResult w); [|left; by exists (Step.Raised Step.LoginFailed), Closed].
  right; right. exists counts. split; [done|]. split; [lia|]. split; [lia|].
  change (Step.withBrowser _ Open) with (freshStepSession onDisk).
  by destruct (Step.sendAll w _ _ (freshStepSession onDisk)).
Qed.

(** X11 — an error report means that nothing was sent.  Whenever the step
    emits a report with an [error] field (a limit reached, an unreadable
    history, a browser that cannot start, a failed login), its count is 0,
    no call of [sendMessage] was made, the history file is as it was, and the
    browser is not left open. *)
Theorem step_error_report_means_nothing_sent
    (w : World) (leads : Restaurants) (onDisk : HistoryFile) (reason : Step.Reason) (n : nat) :
  (Step.handler w leads onDisk).1 = Step.Failure reason n →
  n = 0
  ∧ Step.attempts (Step.handler w leads onDisk).2 = []
  ∧ Step.disk (Step.handler w leads onDisk).2 = onDisk
  ∧ Step.browser (Step.handler w leads onDisk).2 ≠ Open.
Proof.
  destruct (step_handler_outcomes w leads onDisk)
    as [(r & b & Hb & ->)|[->|(counts & _ & _ & _ & ->)]]; simpl; try done.
  by intros [= _ <-].
Qed.

Lemma step_error_report_means_nothing_sent_witness :
  Step.attempts (Step.handler lockedOutWorld [tacoStand] Missing).2 = [].
Proof.
  apply (step_error_report_means_nothing_sent lockedOutWorld [tacoStand] Missing
           (Step.Raised Step.LoginFailed) 0).
  vm_compute. reflexivity.
Defined.

(** X12 — at the limit the step does not start.  When the history file shows
    25 or more sends in the current hour, the step reports that the hourly
    limit is reached; below that, with 100 or more sends today, that the
    daily limit is reached.  Either way the browser is never launched and
    nothing is sent or written. *)
Theorem step_stops_at_the_limit
    (w : World) (leads : Restaurants) (onDisk : HistoryFile) (counts : Counts) :
  getMessageCounts_try onDisk (clock w 0) = Some counts →
  (25 ≤ hourly counts →
     Step.handler w leads onDisk
     = (Step.Failure Step.HourlyLimitReached 0,
        {| Step.disk := onDisk; Step.browser := NotLaunched; Step.attempts := [] |}))
  ∧ (hourly counts < 25 → 100 ≤ daily counts →
     Step.handler w leads onDisk
     = (Step.Failure Step.DailyLimitReached 0,
        {| Step.disk := onDisk; Step.browser := NotLaunched; Step.attempts := [] |})).
Proof.
  intros Hc. unfold Step.handler, Step.campaign, Step.getMessageCounts. cbv zeta. simpl.
  rewrite Hc. split.
  - intros Hh. by rewrite decide_True.
  - intros Hh Hd. rewrite decide_False by lia. by rewrite decide_True.
Qed.

Lemma step_stops_at_the_limit_witness :
  Step.handler smoothWorld [tacoStand] (Parsed fullAfternoon)
  = (Step.Failure Step.HourlyLimitReached 0,
     {| Step.disk := Parsed fullAfternoon; Step.browser := NotLaunched; Step.attempts := [] |}).
Proof.
  apply (proj1 (step_stops_at_the_limit smoothWorld [tacoStand] (Parsed fullAfternoon)
                  {| hourly := 25; daily := 25 |} ltac:(vm_compute; reflexivity))).
  simpl. lia.
Defined.

(** X13 — what the reported count counts.  The count of a report without
    error is at most the number of deliveries that went through, and equals
    it when every write of the history goes through; the step makes at most
    one call of [sendMessage] per candidate and at most
    min(25 - hourly, 100 - daily) calls in a run, hence never more than 25. *)
Theorem step_report_counts_recorded_sends
    (w : World) (leads : Restaurants) (onDisk : HistoryFile) (n : nat) (message : string) :
  (Step.handler w leads onDisk).1 = Step.Summary n message →
  let sent := Step.attempts (Step.handler w leads onDisk).2 in
  n ≤ successes sent
  ∧ length sent ≤ 25
  ∧ (∀ counts, getMessageCounts_try onDisk (clock w 0) = Some counts →
       length sent ≤ (25 - hourly counts) `min` (100 - daily counts))
  ∧ ((∀ k, writable w k = true) → n = successes sent).
Proof.
  destruct (step_handler_outcomes w leads onDisk)
    as [(r & b & Hb & ->)|[->|(counts & Hc & Hh & Hd & ->)]]; simpl; try done.
  { intros [= <- _]. unfold successes. simpl. split; [lia|]. split; [lia|].
    split; [intros; lia | done]. }
  intros [= <- _].
  match goal with
  | |- context [Step.sendAll w ?l ?p ?s0] =>
      pose proof (step_sendAll_tally w l p s0) as H;
      pose proof (length_take (toCandidate <$> selectEligible_spec onDisk leads)
                    ((25 - hourly counts) `min` (100 - daily counts))) as Hlen;
      destruct (Step.sendAll w l p s0) as [p' s']
  end.
  destruct H as (more & Ha & Hl & Hs & _ & Hw). simpl in *. rewrite Ha. simpl.
  split; [lia|]. split; [lia|]. split.
  - intros c' Hc'. rewrite Hc in Hc'. injection Hc' as <-. lia.
  - intros Hall. rewrite Hw; [lia | | done].
    apply (readable_counts _ (clock w 0)). eauto.
Qed.

Lemma step_report_counts_recorded_sends_witness :
  2 ≤ successes (Step.attempts (Step.handler smoothWorld [tacoStand; noodleBar] Missing).2).
Proof.
  apply (step_report_counts_recorded_sends smoothWorld [tacoStand; noodleBar] Missing 2
           "Successfully sent 2 DMs").
  vm_compute. reflexivity.
Defined.

(** X14 — one attempt per restaurant.  The restaurants of a location being
    distinct (they are the keys of an object), a run of the step calls
    [sendMessage] at most once for any of them. *)
Theorem step_attempts_each_restaurant_once
    (w : World) (leads : Restaurants) (onDisk : HistoryFile) :
  NoDup leads.*1 →
  NoDup (forRestaurant <$> Step.attempts (Step.handler w leads onDisk).2).
Proof.
  intros Hnd. destruct (step_handler_keeps w leads onDisk) as (_ & _ & Hsub).
  eapply sublist_NoDup; [|exact Hsub].
  eapply sublist_NoDup; [exact Hnd|]. apply fmap_sublist, sublist_filter.
Qed.

Lemma step_attempts_each_restaurant_once_witness :
  NoDup (forRestaurant <$> Step.attempts (Step.handler smoothWorld leadsABC Missing).2).
Proof.
  apply (step_attempts_each_restaurant_once smoothWorld leadsABC Missing).
  vm_compute. repeat (apply NoDup_cons_2; [by (intros H; repeat (apply elem_of_cons in H as [H|H]; [discriminate|]); by apply not_elem_of_nil in H)|]).
  apply NoDup_nil_2.
Defined.

(** ** The daily counter file of the step *)

(** X15 — incrementing the daily counter.  On a counter file that is absent
    or parses and whose count of the day is below 2^53, an increment whose
    write goes through returns the count of the day plus one,
    [getDailyDMCount] then returns that number, and the counts of all other
    days are as before.  An increment that cannot read or write the file
    returns 0 and leaves the file as it was. *)
Theorem increment_then_get (disk : DailyCount.CountFile) (today : string) :
  (disk = DailyCount.NoCountFile ∨ (∃ data, disk = DailyCount.Counts data) →
   (DailyCount.getDailyDMCount disk today < DailyCount.exactBelow)%N →
   ∃ n disk',
     DailyCount.incrementDailyDMCount true disk today = Some (n, disk')
     ∧ n = (DailyCount.getDailyDMCount disk today + 1)%N
     ∧ DailyCount.getDailyDMCount disk' today = n
     ∧ ((∃ data, disk' = DailyCount.Counts data)
        ∧ ∀ other, other ≠ today →
            DailyCount.getDailyDMCount disk' other = DailyCount.getDailyDMCount disk other))
  ∧ DailyCount.incrementDailyDMCount false disk today = Some (0%N, disk)
  ∧ (∀ writable,
       DailyCount.incrementDailyDMCount writable DailyCount.UnreadableCounts today
       = Some (0%N, DailyCount.UnreadableCounts)
       ∧ DailyCount.incrementDailyDMCount writable DailyCount.InvalidCounts today
         = Some (0%N, DailyCount.InvalidCounts)).
Proof.
  split; [|split; [by destruct disk | done]].
  intros [->|[data ->]] Hsafe; unfold DailyCount.incrementDailyDMCount;
    cbn [DailyCount.getDailyDMCount] in *.
  - rewrite lookup_empty in *. cbn [default] in *. rewrite decide_True by done.
    eexists _, _. split; [done|]. split; [done|]. cbn [DailyCount.getDailyDMCount].
    rewrite lookup_insert_eq.
    split; [done|]. split; [by eexists|]. intros other Hne. by rewrite lookup_insert_ne.
  - rewrite decide_True by done.
    eexists _, _. split; [done|]. split; [done|]. cbn [DailyCount.getDailyDMCount].
    rewrite lookup_insert_eq.
    split; [done|]. split; [by eexists|]. intros other Hne. by rewrite lookup_insert_ne.
Qed.

Lemma increment_then_get_witness :
  ∃ n disk',
    DailyCount.incrementDailyDMCount true
      (DailyCount.Counts {[ "2025-03-10" := 7%N ]}) "2025-03-10" = Some (n, disk')
    ∧ n = 8%N.
Proof.
  destruct (proj1 (increment_then_get (DailyCount.Counts {[ "2025-03-10" := 7%N ]})
                     "2025-03-10")
              (or_intror (ex_intro _ _ eq_refl))) as (n & disk' & Hrun & Hn & _).
  - vm_compute. reflexivity.
  - exists n, disk'. split; [exact Hrun | exact Hn].
Defined.

(** X16 — increments add up.  When the count c of the day and the number k
    of increments satisfy c + k <= 2^53, k increments in a row on the same
    day, each written, return the numbers c + 1, ..., c + k; afterwards the
    count of the day is c + k and the counts of the other days are as
    before. *)
Theorem increments_add_up (k : nat) (disk : DailyCount.CountFile) (today : string) :
  disk = DailyCount.NoCountFile ∨ (∃ data, disk = DailyCount.Counts data) →
  (DailyCount.getDailyDMCount disk today + N.of_nat k ≤ DailyCount.exactBelow)%N →
  let c := DailyCount.getDailyDMCount disk today in
  ∃ returned disk',
    DailyCount.incrementTimes k disk today = Some (returned, disk')
    ∧ returned = (λ i, (c + N.of_nat i)%N) <$> seq 1 k
    ∧ DailyCount.getDailyDMCount disk' today = (c + N.of_nat k)%N
    ∧ ∀ other, other ≠ today →
        DailyCount.getDailyDMCount disk' other = DailyCount.getDailyDMCount disk other.
Proof.
  revert disk. induction k as [|k IH]; intros disk Hread Hsafe; cbv zeta.
  { exists [], disk. simpl. split; [done|]. split; [done|]. split; [lia|done]. }
  cbn [DailyCount.incrementTimes].
  destruct (proj1 (increment_then_get disk today) Hread)
    as (n & disk1 & Hrun & Hn & Hget & Hread1 & Hframe); [lia|].
  rewrite Hrun. simpl.
  destruct (IH disk1) as (ns & disk2 & Hrun2 & Hns & Hget2 & Hframe2);
    [by right | rewrite Hget, Hn; lia |].
  rewrite Hrun2. simpl. exists (n :: ns), disk2. split; [done|]. split; [|split].
  - rewrite Hns, Hget, Hn. cbn [seq fmap list_fmap]. f_equal.
    rewrite <-(fmap_S_seq 1 k), <-list_fmap_compose. apply list_fmap_ext.
    intros ? i _. simpl. lia.
  - rewrite Hget2, Hget, Hn. lia.
  - intros other Hne. rewrite Hframe2, Hframe by done. done.
Qed.

Lemma increments_add_up_witness :
  ∃ returned disk',
    DailyCount.incrementTimes 3 DailyCount.NoCountFile "2025-03-10" = Some (returned, disk')
    ∧ returned = [1; 2; 3]%N
    ∧ DailyCount.getDailyDMCount disk' "2025-03-10" = 3%N.
Proof.
  destruct (increments_add_up 3 DailyCount.NoCountFile "2025-03-10" (or_introl eq_refl))
    as (returned & disk' & Hrun & Hreturned & Hget & _).
  - vm_compute. discriminate.
  - exists returned, disk'. split; [exact Hrun|]. split; [exact Hreturned | exact Hget].
Defined.

(** At 2^53 the count no longer grows: the call returns the number it read. *)
Example increment_at_the_limit_of_exact_integers :
  DailyCount.incrementDailyDMCount true
    (DailyCount.Counts {[ "2025-03-10" := 9007199254740992%N ]}) "2025-03-10"
  = Some (9007199254740992%N, DailyCount.Counts {[ "2025-03-10" := 9007199254740992%N ]}).
Proof. vm_compute. reflexivity. Qed.

(** ** The migration to the database *)

Lemma markMessaged_days data now N k :
  is_Some (markMessaged data now N !! k) ↔ k = today now ∨ is_Some (data !! k).
Proof.
  unfold markMessaged. destruct (decide (today now = k)) as [<-|Hne].
  - rewrite lookup_insert_eq. split; [by left | by eauto].
  - rewrite lookup_insert_ne by done. split; [by right | by intros [->|]].
Qed.

Lemma replay_days saves data k :
  is_Some (foldl (λ data save, markMessaged data save.1 save.2) data saves !! k)
  ↔ is_Some (data !! k) ∨ ∃ save : Now * string, save ∈ saves ∧ today save.1 = k.
Proof.
  revert data. induction saves as [|save saves IH]; intros data; simpl.
  - split; [by left|]. intros [H|(save & Hin & _)]; [done|]. by apply elem_of_nil in Hin.
  - rewrite IH, markMessaged_days. split.
    + intros [[->|H]|(save' & Hin & Hk)].
      * right. exists save. split; [apply list_elem_of_here | done].
      * by left.
      * right. exists save'. split; [by apply list_elem_of_further | done].
    + intros [H|(save' & Hin & Hk)]; [by left; right|].
      apply elem_of_cons in Hin as [->|Hin]; [by left; left | right; eauto].
Qed.

Lemma replay_names saves data N :
  N ≠ "__proto__" →
  (∃ d h, recordedAt (foldl (λ data save, markMessaged data save.1 save.2) data saves) d h N)
  ↔ (∃ d h, recordedAt data d h N) ∨ ∃ save : Now * string, save ∈ saves ∧ save.2 = N.
Proof.
  intros Hproto. revert data. induction saves as [|save saves IH]; intros data; simpl.
  - split; [by left|]. intros [H|(save & Hin & _)]; [done|]. by apply elem_of_nil in Hin.
  - rewrite IH. split.
    + intros [(d & h & Hrec)|(save' & Hin & Hk)].
      * apply markMessaged_only in Hrec as [(_ & _ & ->)|Hrec]; [|by left; eauto].
        right. exists save. split; [apply list_elem_of_here | done].
      * right. exists save'. split; [by apply list_elem_of_further | done].
    + intros [(d & h & Hrec)|(save' & Hin & Hk)].
      * left. exists d, h. by apply markMessaged_keeps.
      * apply elem_of_cons in Hin as [->|Hin]; [|right; eauto].
        left. subst N. eexists _, _. by apply markMessaged_records.
Qed.

Lemma restaurantData_status messagedData location restaurantName restaurant :
  Migrate.dm_status (Migrate.restaurantData messagedData location restaurantName restaurant)
  = if Migrate.listed messagedData restaurantName then Migrate.dm_sent else Migrate.pending_dm.
Proof. by destruct restaurant. Qed.

Lemma restaurantData_key messagedData location restaurantName restaurant :
  Migrate.conflictKey (Migrate.restaurantData messagedData location restaurantName restaurant)
  = (restaurantName, location).
Proof. by destruct restaurant. Qed.

(** X17 — the migration reads the send history by its top-level keys.  For a
    history file as [saveMessagedRestaurant] writes it, and a restaurant name
    that is no property of [Object.prototype], the migrated row gets
    [dm_status] 'dm_sent' exactly when the name equals a date under which
    some send was saved, whereas [isRestaurantMessaged] answers true exactly
    when the name itself was saved.  With the flat layout of
    [saveMessagedRestaurants] the status is 'dm_sent' exactly for the names
    flagged true. *)
Theorem migration_status_follows_top_level_keys
    (saves : list (Now * string)) (flags : gmap string bool)
    (location restaurantName : string) (restaurant : Restaurant) :
  restaurantName ∉ inheritedKeys →
  (Migrate.dm_status
     (Migrate.restaurantData (Migrate.NestedHistory (replay saves))
        location restaurantName restaurant) = Migrate.dm_sent
   ↔ ∃ save : Now * string, save ∈ saves ∧ today save.1 = restaurantName)
  ∧ (scanHistory (replay saves) restaurantName = true
     ↔ ∃ save : Now * string, save ∈ saves ∧ save.2 = restaurantName)
  ∧ (Migrate.dm_status
       (Migrate.restaurantData (Migrate.FlatFlags flags)
          location restaurantName restaurant) = Migrate.dm_sent
     ↔ flags !! restaurantName = Some true).
Proof.
  intros Hown.
  assert (Hinh : inherited restaurantName = false).
  { unfold inherited. by rewrite bool_decide_eq_false. }
  split; [|split].
  - rewrite restaurantData_status. cbn [Migrate.listed]. rewrite Hinh.
    pose proof (replay_days saves ∅ restaurantName) as Hdays. fold (replay saves) in Hdays.
    rewrite lookup_empty in Hdays.
    destruct (replay saves !! restaurantName) as [day|].
    + split; [intros _|done]. destruct (proj1 Hdays) as [[? [=]]|H]; [by eauto|done].
    + split; [done|]. intros H. destruct (proj2 Hdays (or_intror H)) as [? [=]].
  - assert (Hproto : restaurantName ≠ "__proto__").
    { intros ->. apply Hown. apply (bool_decide_unpack _). vm_compute. exact I. }
    pose proof (replay_names saves ∅ restaurantName Hproto) as Hnames.
    fold (replay saves) in Hnames. rewrite scanHistory_true. split.
    + intros (d & h & Hheld). apply (heldAt_recordedAt _ _ _ _ Hinh) in Hheld.
      destruct (proj1 Hnames) as [(d' & h' & day & names & Hd & _)|H]; [by eauto| |done].
      by rewrite lookup_empty in Hd.
    + intros H. destruct (proj2 Hnames (or_intror H)) as (d & h & Hrec).
      exists d, h. by apply recordedAt_heldAt.
  - rewrite restaurantData_status. cbn [Migrate.listed]. rewrite Hinh.
    destruct (flags !! restaurantName) as [[]|]; split; congruence.
Qed.

Lemma migration_status_follows_top_level_keys_witness :
  Migrate.dm_status
    (Migrate.restaurantData (Migrate.NestedHistory (replay [(afternoon, "Taco Stand")]))
       "austin" "Taco Stand" tacoStand.2) ≠ Migrate.dm_sent
  ∧ scanHistory (replay [(afternoon, "Taco Stand")]) "Taco Stand" = true.
Proof.
  assert (Hown : "Taco Stand" ∉ inheritedKeys).
  { apply (bool_decide_unpack _). vm_compute. exact I. }
  pose proof (migration_status_follows_top_level_keys [(afternoon, "Taco Stand")] ∅
                "austin" "Taco Stand" tacoStand.2 Hown) as (Hstatus & Hscan & _).
  split.
  - intros H. apply Hstatus in H as (save & Hin & Hday).
    apply list_elem_of_singleton in Hin as ->. discriminate Hday.
  - apply Hscan. exists (afternoon, "Taco Stand"). split; [apply list_elem_of_here | done].
Defined.

Lemma migrateData_locations restaurantsData messagedData key :
  key ∈ Migrate.conflictKey <$> Migrate.migrateData restaurantsData messagedData →
  key.2 ∈ restaurantsData.*1.
Proof.
  unfold Migrate.migrateData. induction restaurantsData as [|[loc leads] rest IH]; simpl.
  - intros H. by apply elem_of_nil in H.
  - rewrite fmap_app, elem_of_app. intros [H|H].
    + apply list_elem_of_fmap in H as (row & -> & Hrow).
      apply list_elem_of_fmap in Hrow as ([n r] & -> & _).
      rewrite restaurantData_key. simpl. apply list_elem_of_here.
    + apply list_elem_of_further. by apply IH.
Qed.

(** X18 — the migration passes no conflict key twice.  When the location
    keys are pairwise distinct and so are the restaurant names within each
    location (as the keys of a parsed JSON object are), no two rows passed to
    [upsertRestaurant] share the columns (name, location) of its conflict
    target, so no row replaces another; there is one row per restaurant. *)
Theorem migration_rows_have_distinct_keys
    (restaurantsData : LocationData) (messagedData : Migrate.MessagedData) :
  NoDup restaurantsData.*1 →
  (∀ entry, entry ∈ restaurantsData → NoDup entry.2.*1) →
  NoDup (Migrate.conflictKey <$> Migrate.migrateData restaurantsData messagedData)
  ∧ length (Migrate.migrateData restaurantsData messagedData)
    = sum_list ((λ entry : string * Restaurants, length entry.2) <$> restaurantsData).
Proof.
  induction restaurantsData as [|[loc leads] rest IH]; intros Hlocs Hnames.
  { split; [constructor | done]. }
  apply NoDup_cons in Hlocs as [Hloc Hlocs].
  destruct IH as [IHkeys IHlen]; [done | by intros entry Hin; apply Hnames; right |].
  change (Migrate.migrateData ((loc, leads) :: rest) messagedData)
    with (((λ lead : string * Restaurant,
              Migrate.restaurantData messagedData loc lead.1 lead.2) <$> leads)
          ++ Migrate.migrateData rest messagedData).
  split.
  - rewrite fmap_app. apply NoDup_app. split; [|split; [|done]].
    + rewrite <-list_fmap_compose.
      rewrite (list_fmap_ext _ (λ lead : string * Restaurant, (lead.1, loc)) leads)
        by (intros ? [n r] _; apply restaurantData_key).
      assert ((λ lead : string * Restaurant, (lead.1, loc)) <$> leads
              = (λ n : string, (n, loc)) <$> leads.*1) as ->
        by (by rewrite <-list_fmap_compose).
      apply NoDup_fmap_2; [by intros ?? [=] |].
      apply (Hnames (loc, leads)), list_elem_of_here.
    + intros key Hkey Hrest. apply migrateData_locations in Hrest.
      apply list_elem_of_fmap in Hkey as (row & -> & Hrow).
      apply list_elem_of_fmap in Hrow as ([n r] & -> & _).
      rewrite restaurantData_key in Hrest. done.
  - rewrite length_app, length_fmap, IHlen. done.
Qed.

Lemma migration_rows_have_distinct_keys_witness :
  NoDup (Migrate.conflictKey <$> Migrate.migrateData twoCities (Migrate.FlatFlags ∅)).
Proof.
  refine (proj1 (migration_rows_have_distinct_keys twoCities (Migrate.FlatFlags ∅) _ _)).
  - apply (bool_decide_unpack _). vm_compute. exact I.
  - intros entry Hin. apply (bool_decide_unpack _).
    apply elem_of_cons in Hin as [->|Hin]; [vm_compute; exact I|].
    apply list_elem_of_singleton in Hin as ->. vm_compute. exact I.
Defined.

(** ** The restaurant store *)

Lemma getKey_setKey_eq {A} key (value : A) entries :
  getKey key (setKey key value entries) = Some value.
Proof.
  induction entries as [|[k v] rest IH]; simpl.
  - by rewrite decide_True.
  - destruct (decide (k = key)) as [->|Hne]; simpl.
    + by rewrite decide_True.
    + by rewrite decide_False.
Qed.

Lemma getKey_setKey_ne {A} key other (value : A) entries :
  other ≠ key → getKey other (setKey key value entries) = getKey other entries.
Proof.
  intros Hne. induction entries as [|[k v] rest IH]; simpl.
  - by rewrite decide_False.
  - destruct (decide (k = key)) as [->|Hk]; simpl.
    + by rewrite !decide_False.
    + destruct (decide (k = other)); [done | apply IH].
Qed.

Lemma getKey_None {A} key (entries : list (string * A)) :
  getKey key entries = None ↔ key ∉ entries.*1.
Proof.
  induction entries as [|[k v] rest IH]; simpl.
  - split; [intros _; apply not_elem_of_nil | done].
  - rewrite not_elem_of_cons. destruct (decide (k = key)) as [->|Hne].
    + split; [done | by intros [? _]].
    + rewrite IH. split; [by intros ?; split | by intros [_ ?]].
Qed.

Lemma getKey_elem {A} key (value : A) entries :
  getKey key entries = Some value → (key, value) ∈ entries.
Proof.
  induction entries as [|[k v] rest IH]; simpl; [done|].
  destruct (decide (k = key)) as [->|Hne].
  - intros [= ->]. apply list_elem_of_here.
  - intros H. apply list_elem_of_further. by apply IH.
Qed.

Lemma elem_getKey {A} key (value : A) entries :
  NoDup entries.*1 → (key, value) ∈ entries → getKey key entries = Some value.
Proof.
  induction entries as [|[k v] rest IH]; simpl; intros Hnd Hin.
  - by apply elem_of_nil in Hin.
  - apply NoDup_cons in Hnd as [Hk Hnd].
    apply elem_of_cons in Hin as [[= -> ->]|Hin]; [by rewrite decide_True|].
    destruct (decide (k = key)) as [->|Hne]; [|by apply IH].
    exfalso. apply Hk. apply list_elem_of_fmap. by exists (key, value).
Qed.

Lemma setKey_keys_present {A} key (value : A) entries :
  key ∈ entries.*1 → (setKey key value entries).*1 = entries.*1.
Proof.
  induction entries as [|[k v] rest IH]; simpl; intros Hin.
  - by apply elem_of_nil in Hin.
  - destruct (decide (k = key)) as [->|Hne]; simpl; [done|].
    apply elem_of_cons in Hin as [->|Hin]; [done|]. f_equal. by apply IH.
Qed.

Lemma setKey_keys_absent {A} key (value : A) entries :
  key ∉ entries.*1 → (setKey key value entries).*1 = entries.*1 ++ [key].
Proof.
  induction entries as [|[k v] rest IH]; simpl; intros Hin; [done|].
  apply not_elem_of_cons in Hin as [Hne Hin].
  rewrite decide_False by done. simpl. f_equal. by apply IH.
Qed.

Lemma setKey_NoDup {A} key (value : A) entries :
  NoDup entries.*1 → NoDup (setKey key value entries).*1.
Proof.
  intros Hnd. destruct (decide (key ∈ entries.*1)) as [Hin|Hout].
  - by rewrite setKey_keys_present.
  - rewrite setKey_keys_absent by done. apply NoDup_app. split; [done|].
    split; [|apply NoDup_singleton].
    intros k Hk Hk'. apply list_elem_of_singleton in Hk' as ->. done.
Qed.

Lemma setKey_length {A} key (value : A) entries :
  length (setKey key value entries) ≤ S (length entries).
Proof.
  induction entries as [|[k v] rest IH]; simpl; [lia|].
  destruct (decide (k = key)); simpl; lia.
Qed.

Lemma setKey_elem {A} key (value : A) entries k v :
  (k, v) ∈ setKey key value entries → (k = key ∧ v = value) ∨ (k, v) ∈ entries.
Proof.
  induction entries as [|[k' v'] rest IH]; simpl.
  - intros H. apply list_elem_of_singleton in H as [= -> ->]. by left.
  - destruct (decide (k' = key)) as [->|Hne]; intros H;
      apply elem_of_cons in H as [[= -> ->]|H].
    + by left.
    + right. by apply list_elem_of_further.
    + right. apply list_elem_of_here.
    + destruct (IH H) as [?|?]; [by left | right; by apply list_elem_of_further].
Qed.

Lemma assign_length {A} key (value : A) entries :
  length (assign key value entries) ≤ S (length entries).
Proof.
  unfold assign. destruct (getKey key entries); [apply setKey_length|].
  case_decide; [lia | apply setKey_length].
Qed.

Lemma assign_NoDup {A} key (value : A) entries :
  NoDup entries.*1 → NoDup (assign key value entries).*1.
Proof.
  intros Hnd. unfold assign. destruct (getKey key entries); [by apply setKey_NoDup|].
  case_decide; [done | by apply setKey_NoDup].
Qed.

Lemma assign_elem {A} key (value : A) entries k v :
  (k, v) ∈ assign key value entries → (k = key ∧ v = value) ∨ (k, v) ∈ entries.
Proof.
  unfold assign. destruct (getKey key entries); [apply setKey_elem|].
  case_decide; [by right | apply setKey_elem].
Qed.

Lemma assign_other {A} key other (value : A) entries :
  other ≠ key → getKey other (assign key value entries) = getKey other entries.
Proof.
  intros Hne. unfold assign. destruct (getKey key entries); [by apply getKey_setKey_ne|].
  case_decide; [done | by apply getKey_setKey_ne].
Qed.

Lemma assign_found {A} key (value : A) entries :
  key ≠ "__proto__" → getKey key (assign key value entries) = Some value.
Proof.
  intros Hne. unfold assign. destruct (getKey key entries); [apply getKey_setKey_eq|].
  rewrite decide_False by done. apply getKey_setKey_eq.
Qed.

(** What a call of [addRestaurant] that returns does to the file. *)
Lemma addRestaurant_cases toLowerCase writable disk restaurant location disk' :
  Scrape.addRestaurant toLowerCase writable disk restaurant location = Some disk' →
  disk' = saveRestaurants writable disk
            (setKey (toLowerCase location)
               (assign (name restaurant) restaurant
                  (Scrape.getRestaurantsByLocation toLowerCase disk location))
               (loadRestaurants disk)).
Proof.
  unfold Scrape.addRestaurant, Scrape.getRestaurantsByLocation.
  destruct (getKey (toLowerCase location) (loadRestaurants disk)) as [entries|]; simpl.
  - by intros [= <-].
  - destruct (inherited (toLowerCase location)); [done | by intros [= <-]].
Qed.

(** X19 — a saved restaurant is found again.  After a call of
    [addRestaurant] whose write goes through, for a restaurant not named
    [__proto__], [getRestaurantsByLocation] holds the restaurant under its
    name for every spelling of the location with the same lower-case form;
    the other restaurants of the location and all other locations are as
    before.  A call whose write fails leaves the file as it was. *)
Theorem added_restaurant_is_found (toLowerCase : string → string)
    (disk disk' : StoreFile) (restaurant : Restaurant) (location : string) :
  Scrape.addRestaurant toLowerCase true disk restaurant location = Some disk' →
  name restaurant ≠ "__proto__" →
  (∀ spelling, toLowerCase spelling = toLowerCase location →
     getKey (name restaurant) (Scrape.getRestaurantsByLocation toLowerCase disk' spelling)
     = Some restaurant
     ∧ ∀ other, other ≠ name restaurant →
         getKey other (Scrape.getRestaurantsByLocation toLowerCase disk' spelling)
         = getKey other (Scrape.getRestaurantsByLocation toLowerCase disk spelling))
  ∧ (∀ elsewhere, toLowerCase elsewhere ≠ toLowerCase location →
       Scrape.getRestaurantsByLocation toLowerCase disk' elsewhere
       = Scrape.getRestaurantsByLocation toLowerCase disk elsewhere)
  ∧ (∀ unsaved,
       Scrape.addRestaurant toLowerCase false disk restaurant location = Some unsaved →
       unsaved = disk).
Proof.
  intros Hadd Hname. apply addRestaurant_cases in Hadd. simpl in Hadd. subst disk'.
  split; [|split].
  - intros spelling Hsame. unfold Scrape.getRestaurantsByLocation at 1 3. simpl.
    rewrite Hsame, getKey_setKey_eq. simpl. split; [by apply assign_found|].
    intros other Hne. rewrite assign_other by done.
    unfold Scrape.getRestaurantsByLocation. by rewrite Hsame.
  - intros elsewhere Hne. unfold Scrape.getRestaurantsByLocation. simpl.
    by rewrite getKey_setKey_ne.
  - intros unsaved Hfail. by apply addRestaurant_cases in Hfail.
Qed.

Lemma added_restaurant_is_found_witness :
  getKey "Taco Stand"
    (Scrape.getRestaurantsByLocation asciiLower
       (Stored [("austin", [("Taco Stand", scraped "Taco Stand")])]) "AUSTIN")
  = Some (scraped "Taco Stand").
Proof.
  refine (proj1 (proj1 (added_restaurant_is_found asciiLower NoStore _
                          (scraped "Taco Stand") "Austin" eq_refl _) "AUSTIN" eq_refl)).
  discriminate.
Defined.

(** ** The scrape step *)

Lemma setKey_grows {A} key (value : A) entries :
  length entries ≤ length (setKey key value entries).
Proof.
  induction entries as [|[k v] rest IH]; simpl; [lia|].
  destruct (decide (k = key)); simpl; lia.
Qed.

Lemma assign_grows {A} key (value : A) entries :
  length entries ≤ length (assign key value entries).
Proof.
  unfold assign. destruct (getKey key entries); [apply setKey_grows|].
  case_decide; [lia | apply setKey_grows].
Qed.

Lemma assign_keeps {A} key (value : A) entries other :
  is_Some (getKey other entries) → is_Some (getKey other (assign key value entries)).
Proof.
  intros Hheld. destruct (decide (other = key)) as [->|Hne]; [|by rewrite assign_other].
  unfold assign. destruct Hheld as [held Hheld]. rewrite Hheld.
  rewrite getKey_setKey_eq. by eexists.
Qed.

(** The last push found the array shorter than the maximum. *)
Lemma searchRestaurants_length outcomes maxRestaurants restaurants :
  length restaurants = 0 ∨ countBelow (length restaurants - 1) maxRestaurants = true →
  let found := Scrape.searchRestaurants outcomes maxRestaurants restaurants in
  length found = 0 ∨ countBelow (length found - 1) maxRestaurants = true.
Proof.
  cbv zeta. revert restaurants.
  induction outcomes as [|outcome rest IH]; intros restaurants Hle; simpl.
  - done.
  - destruct (countBelow (length restaurants) maxRestaurants) eqn:Hroom; [|done].
    destruct outcome as [restaurant|]; [|by apply IH].
    case_decide; [by apply IH|]. apply IH. right. rewrite length_app. simpl.
    by replace (length restaurants + 1 - 1) with (length restaurants) by lia.
Qed.

Lemma countBelow_mono n m x : n ≤ m → countBelow m x = true → countBelow n x = true.
Proof.
  intros Hle. destruct x as [| |q|]; simpl; try done.
  rewrite !bool_decide_eq_true. intros Hm.
  eapply Qcle_lt_trans; [|exact Hm]. unfold ofCount. apply (proj1 (Z2Qc_inj_le _ _)). lia.
Qed.

Lemma countBelow_minusCount n m x :
  countBelow n (minusCount x m) = true → countBelow (m + n) x = true.
Proof.
  destruct x as [| |q|]; simpl; try done.
  rewrite !bool_decide_eq_true. unfold ofCount. intros Hlt.
  rewrite Nat2Z.inj_add, Z2Qc_inj_add.
  apply (Qcplus_lt_mono_l _ _ (Qc_of_Z (Z.of_nat m))) in Hlt.
  replace (Qc_of_Z (Z.of_nat m) + (q - Qc_of_Z (Z.of_nat m)))%Qc with q in Hlt; [done|].
  unfold Qcminus. by rewrite (Qcplus_comm q), Qcplus_assoc, Qcplus_opp_r, Qcplus_0_l.
Qed.

Lemma notPositive_minusCount x n : notPositive (minusCount x n) = atMostCount x n.
Proof.
  destruct x as [| |q|]; simpl; try done.
  apply bool_decide_ext. unfold ofCount. change (Z.of_nat 0) with 0%Z. rewrite Z2Qc_inj_0.
  split; intros Hle.
  - apply (Qcplus_le_mono_r _ _ (Qc_of_Z (Z.of_nat n))) in Hle.
    rewrite Qcplus_0_l in Hle. unfold Qcminus in Hle.
    by rewrite <-Qcplus_assoc, (Qcplus_comm (- _)), Qcplus_opp_r, Qcplus_0_r in Hle.
  - apply (Qcplus_le_mono_r _ _ (Qc_of_Z (Z.of_nat n))).
    rewrite Qcplus_0_l. unfold Qcminus.
    by rewrite <-Qcplus_assoc, (Qcplus_comm (- _)), Qcplus_opp_r, Qcplus_0_r.
Qed.

Lemma searchRestaurants_found outcomes maxRestaurants restaurants restaurant :
  restaurant ∈ Scrape.searchRestaurants outcomes maxRestaurants restaurants →
  restaurant ∈ restaurants
  ∨ (Some restaurant ∈ outcomes ∧ name restaurant ≠ "Unknown Restaurant").
Proof.
  revert restaurants. induction outcomes as [|outcome rest IH]; intros restaurants; simpl.
  - by left.
  - destruct (countBelow (length restaurants) maxRestaurants); [|by left].
    destruct outcome as [found|].
    + case_decide as Hname.
      * intros H. destruct (IH _ H) as [?|[? ?]]; [by left|].
        right. split; [by apply list_elem_of_further | done].
      * intros H. destruct (IH _ H) as [Hin|[? ?]].
        -- apply elem_of_app in Hin as [?|Hin]; [by left|].
           apply list_elem_of_singleton in Hin as ->. right.
           split; [apply list_elem_of_here | done].
        -- right. split; [by apply list_elem_of_further | done].
    + intros H. destruct (IH _ H) as [?|[? ?]]; [by left|].
      right. split; [by apply list_elem_of_further | done].
Qed.

(** One call of [addRestaurant], seen through [getRestaurantsByLocation]. *)
Lemma addRestaurant_effect toLowerCase writable disk restaurant location disk' :
  Scrape.addRestaurant toLowerCase writable disk restaurant location = Some disk' →
  (Scrape.getRestaurantsByLocation toLowerCase disk' location
   = Scrape.getRestaurantsByLocation toLowerCase disk location
   ∨ Scrape.getRestaurantsByLocation toLowerCase disk' location
     = assign (name restaurant) restaurant
         (Scrape.getRestaurantsByLocation toLowerCase disk location))
  ∧ ∀ elsewhere, toLowerCase elsewhere ≠ toLowerCase location →
      Scrape.getRestaurantsByLocation toLowerCase disk' elsewhere
      = Scrape.getRestaurantsByLocation toLowerCase disk elsewhere.
Proof.
  intros Hadd. apply addRestaurant_cases in Hadd. subst disk'.
  destruct writable; simpl; [|by split; [left|]].
  split.
  - right. unfold Scrape.getRestaurantsByLocation at 1. simpl. by rewrite getKey_setKey_eq.
  - intros elsewhere Hne. unfold Scrape.getRestaurantsByLocation. simpl.
    by rewrite getKey_setKey_ne.
Qed.

Lemma addAll_effect toLowerCase writable k disk restaurants location disk' :
  Scrape.addAll toLowerCase writable k disk restaurants location = Some disk' →
  length (Scrape.getRestaurantsByLocation toLowerCase disk location)
  ≤ length (Scrape.getRestaurantsByLocation toLowerCase disk' location)
  ∧ length (Scrape.getRestaurantsByLocation toLowerCase disk' location)
    ≤ length (Scrape.getRestaurantsByLocation toLowerCase disk location) + length restaurants
  ∧ (∀ key restaurant,
       (key, restaurant) ∈ Scrape.getRestaurantsByLocation toLowerCase disk' location →
       (key, restaurant) ∈ Scrape.getRestaurantsByLocation toLowerCase disk location
       ∨ (restaurant ∈ restaurants ∧ key = name restaurant))
  ∧ ∀ elsewhere, toLowerCase elsewhere ≠ toLowerCase location →
      Scrape.getRestaurantsByLocation toLowerCase disk' elsewhere
      = Scrape.getRestaurantsByLocation toLowerCase disk elsewhere.
Proof.
  revert k disk. induction restaurants as [|restaurant rest IH]; intros k disk; simpl.
  - intros [= <-]. split; [lia|]. split; [lia|]. split; [by left | done].
  - destruct (Scrape.addRestaurant toLowerCase (writable k) disk restaurant location)
      as [disk1|] eqn:Hadd; simpl; [|done].
    intros Hrest. destruct (IH _ _ Hrest) as (Hlow & Hup & Hfrom & Hframe).
    destruct (addRestaurant_effect _ _ _ _ _ _ Hadd) as [Hone Hframe1].
    pose proof (assign_length (name restaurant) restaurant
                  (Scrape.getRestaurantsByLocation toLowerCase disk location)) as Hle.
    pose proof (assign_grows (name restaurant) restaurant
                  (Scrape.getRestaurantsByLocation toLowerCase disk location)) as Hge.
    split; [|split; [|split]].
    + destruct Hone as [Heq|Heq]; rewrite Heq in Hlow; lia.
    + destruct Hone as [Heq|Heq]; rewrite Heq in Hup; lia.
    + intros key r Hin. destruct (Hfrom key r Hin) as [Hin1|[Hin1 ->]].
      * destruct Hone as [Heq|Heq]; rewrite Heq in Hin1; [by left|].
        apply assign_elem in Hin1 as [[-> ->]|?]; [|by left].
        right. split; [apply list_elem_of_here | done].
      * right. split; [by apply list_elem_of_further | done].
    + intros elsewhere Hne. by rewrite Hframe, Hframe1.
Qed.

Lemma addAll_keeps toLowerCase writable k disk restaurants location disk' key :
  Scrape.addAll toLowerCase writable k disk restaurants location = Some disk' →
  is_Some (getKey key (Scrape.getRestaurantsByLocation toLowerCase disk location)) →
  is_Some (getKey key (Scrape.getRestaurantsByLocation toLowerCase disk' location)).
Proof.
  revert k disk. induction restaurants as [|restaurant rest IH]; intros k disk; simpl.
  - by intros [= <-].
  - destruct (Scrape.addRestaurant toLowerCase (writable k) disk restaurant location)
      as [disk1|] eqn:Hadd; simpl; [|done].
    intros Hrest Hheld. apply (IH _ _ Hrest).
    destruct (addRestaurant_effect _ _ _ _ _ _ Hadd) as [[->| ->] _]; [done|].
    by apply assign_keeps.
Qed.

(** X20 — the scrape step keeps to [maxRestaurants], whatever number that
    is.  Whatever the page yields and whichever writes fail, every name the
    location holds before a run of the handler it holds after it, so that the
    number of names does not fall; when that number has risen, the number
    held after the run less one is below [maxRestaurants] (so a maximum of
    2.5 admits a third restaurant, and a maximum that is not a number admits
    none); other locations are untouched.  When [maxRestaurants] is at most
    the number held, the file is not written and the event reports the number
    held. *)
Theorem scrape_respects_max (toLowerCase : string → string) (start : Scrape.BrowserStart)
    (outcomes : list (option Restaurant)) (writable : nat → bool)
    (disk disk' : StoreFile) (location : string) (maxRestaurants : JsNumber)
    (ending : Scrape.Ending) :
  Scrape.handler toLowerCase start outcomes writable disk location maxRestaurants
  = Some (ending, disk') →
  let held := Scrape.getRestaurantsByLocation toLowerCase disk location in
  let kept := Scrape.getRestaurantsByLocation toLowerCase disk' location in
  (∀ key, is_Some (getKey key held) → is_Some (getKey key kept))
  ∧ length held ≤ length kept
  ∧ (length held < length kept → countBelow (length kept - 1) maxRestaurants = true)
  ∧ (∀ elsewhere, toLowerCase elsewhere ≠ toLowerCase location →
       Scrape.getRestaurantsByLocation toLowerCase disk' elsewhere
       = Scrape.getRestaurantsByLocation toLowerCase disk elsewhere)
  ∧ (atMostCount maxRestaurants (length held) = true → start = Scrape.PageReady →
       disk' = disk
       ∧ ending = Scrape.Emits (Scrape.Scraped (length held) "No new restaurants needed")).
Proof.
  intros Hrun. cbv zeta. unfold Scrape.handler in Hrun.
  destruct start.
  - injection Hrun as <- <-. split; [done|]. split; [lia|]. split; [lia|]. by split.
  - injection Hrun as <- <-. split; [done|]. split; [lia|]. split; [lia|]. by split.
  - cbv zeta in Hrun. rewrite notPositive_minusCount in Hrun.
    destruct (atMostCount maxRestaurants _) eqn:Hneeded.
    + injection Hrun as <- <-. split; [done|]. split; [lia|]. split; [lia|]. by split.
    + destruct (Scrape.addAll _ _ _ _ _ _) as [disk1|] eqn:Hall; simpl in Hrun; [|done].
      injection Hrun as <- <-.
      destruct (addAll_effect _ _ _ _ _ _ _ Hall) as (Hlow & Hup & _ & Hframe).
      split; [intros key; by apply (addAll_keeps _ _ _ _ _ _ _ _ Hall)|].
      split; [done|]. split; [|by split].
      intros Hrisen.
      match type of Hup with
      | context [Scrape.searchRestaurants ?o ?m []] =>
          destruct (searchRestaurants_length o m [] (or_introl eq_refl)) as [Hnone|Hfound]
      end.
      * rewrite Hnone in Hup. lia.
      * apply countBelow_minusCount in Hfound. eapply countBelow_mono; [|exact Hfound]. lia.
Qed.

Lemma scrape_respects_max_witness :
  countBelow
    (length (Scrape.getRestaurantsByLocation asciiLower
               (Stored [("austin", [("A", scraped "A"); ("B", scraped "B");
                                    ("C", scraped "C")])])
               "Austin") - 1)
    (Finite (Qc_of_Z 5 / Qc_of_Z 2)) = true.
Proof.
  refine (proj1 (proj2 (proj2 (scrape_respects_max asciiLower Scrape.PageReady
                         [Some (scraped "A"); None; Some (scraped "B"); Some (scraped "C");
                          Some (scraped "D")]
                         (λ _, true) NoStore
                         (Stored [("austin", [("A", scraped "A"); ("B", scraped "B");
                                              ("C", scraped "C")])])
                         "Austin" (Finite (Qc_of_Z 5 / Qc_of_Z 2))
                         (Scrape.Emits (Scrape.Scraped 3 "Successfully scraped 3 restaurants"))
                         eq_refl))) _).
  simpl. lia.
Defined.

(** X21 — the scrape step stores only what the page gave.  Every restaurant
    the location holds after a run was held before it, or is one of the
    restaurants extracted from the page during the run, is not named
    'Unknown Restaurant', and is stored under its own name. *)
Theorem scrape_stores_only_what_the_page_gave (toLowerCase : string → string)
    (start : Scrape.BrowserStart) (outcomes : list (option Restaurant))
    (writable : nat → bool) (disk disk' : StoreFile) (location : string)
    (maxRestaurants : JsNumber) (ending : Scrape.Ending) (key : string) (restaurant : Restaurant) :
  Scrape.handler toLowerCase start outcomes writable disk location maxRestaurants
  = Some (ending, disk') →
  (key, restaurant) ∈ Scrape.getRestaurantsByLocation toLowerCase disk' location →
  (key, restaurant) ∈ Scrape.getRestaurantsByLocation toLowerCase disk location
  ∨ (Some restaurant ∈ outcomes
     ∧ name restaurant ≠ "Unknown Restaurant"
     ∧ key = name restaurant).
Proof.
  unfold Scrape.handler. intros Hrun Hin.
  destruct start; [by injection Hrun as <- <-; left..|].
  cbv zeta in Hrun. destruct (notPositive _); [by injection Hrun as <- <-; left|].
  destruct (Scrape.addAll _ _ _ _ _ _) as [disk1|] eqn:Hall; simpl in Hrun; [|done].
  injection Hrun as <- <-.
  destruct (addAll_effect _ _ _ _ _ _ _ Hall) as (_ & _ & Hfrom & _).
  destruct (Hfrom key restaurant Hin) as [?|[Hfound ->]]; [by left|].
  apply searchRestaurants_found in Hfound as [Hnil|[? ?]]; [by apply elem_of_nil in Hnil|].
  by right.
Qed.

Lemma scrape_stores_only_what_the_page_gave_witness :
  ("A", scraped "A") ∈ Scrape.getRestaurantsByLocation asciiLower NoStore "Austin"
  ∨ (Some (scraped "A") ∈ [Some (scraped "A"); Some (scraped "Unknown Restaurant")]
     ∧ name (scraped "A") ≠ "Unknown Restaurant"
     ∧ "A" = name (scraped "A")).
Proof.
  apply (scrape_stores_only_what_the_page_gave asciiLower Scrape.PageReady
           [Some (scraped "A"); Some (scraped "Unknown Restaurant")] (λ _, true)
           NoStore (Stored [("austin", [("A", scraped "A")])]) "Austin" (integer 5)
           (Scrape.Emits (Scrape.Scraped 1 "Successfully scraped 1 restaurants"))).
  - reflexivity.
  - apply list_elem_of_here.
Defined.

Lemma wellKeyed_location data location :
  wellKeyed data →
  NoDup (default [] (getKey location data)).*1
  ∧ keyedByName (default [] (getKey location data)).
Proof.
  intros [_ Hall]. destruct (getKey location data) as [entries|] eqn:Hget; simpl.
  - apply getKey_elem in Hget. by apply Hall in Hget.
  - split; [constructor|]. intros ?? H. by apply elem_of_nil in H.
Qed.

Lemma wellKeyed_setKey data location entries :
  wellKeyed data → NoDup entries.*1 → keyedByName entries →
  wellKeyed (setKey location entries data).
Proof.
  intros [Hnd Hall] Hnd' Hkeyed. split; [by apply setKey_NoDup|].
  intros l es Hin. apply setKey_elem in Hin as [[-> ->]|Hin]; [done | by apply Hall in Hin].
Qed.

Lemma addRestaurant_wellKeyed toLowerCase writable disk restaurant location disk' :
  wellKeyed (loadRestaurants disk) →
  Scrape.addRestaurant toLowerCase writable disk restaurant location = Some disk' →
  wellKeyed (loadRestaurants disk').
Proof.
  intros Hwell Hadd. apply addRestaurant_cases in Hadd. subst disk'.
  destruct writable; simpl; [|done].
  destruct (wellKeyed_location _ (toLowerCase location) Hwell) as [Hnd Hkeyed].
  apply wellKeyed_setKey; [done | by apply assign_NoDup |].
  intros k v Hin. apply assign_elem in Hin as [[-> ->]|Hin]; [done | by apply Hkeyed].
Qed.

Lemma addAll_wellKeyed toLowerCase writable k disk restaurants location disk' :
  wellKeyed (loadRestaurants disk) →
  Scrape.addAll toLowerCase writable k disk restaurants location = Some disk' →
  wellKeyed (loadRestaurants disk').
Proof.
  revert k disk. induction restaurants as [|restaurant rest IH]; intros k disk Hwell; simpl.
  - by intros [= <-].
  - destruct (Scrape.addRestaurant toLowerCase (writable k) disk restaurant location)
      as [disk1|] eqn:Hadd; simpl; [|done].
    apply IH. by eapply addRestaurant_wellKeyed.
Qed.

(** X22 — the scrape step keeps the file well keyed.  When the location keys
    of the file and the names within each location are pairwise distinct and
    every restaurant is stored under the name it carries, the same holds
    after a run of the handler; the file the step builds from nothing is
    such a file. *)
Theorem scrape_keeps_store_well_keyed (toLowerCase : string → string)
    (start : Scrape.BrowserStart) (outcomes : list (option Restaurant))
    (writable : nat → bool) (disk disk' : StoreFile) (location : string)
    (maxRestaurants : JsNumber) (ending : Scrape.Ending) :
  wellKeyed (loadRestaurants disk) →
  Scrape.handler toLowerCase start outcomes writable disk location maxRestaurants
  = Some (ending, disk') →
  wellKeyed (loadRestaurants disk').
Proof.
  unfold Scrape.handler. intros Hwell Hrun.
  destruct start; [by injection Hrun as <- <-..|].
  cbv zeta in Hrun. destruct (notPositive _); [by injection Hrun as <- <-|].
  destruct (Scrape.addAll _ _ _ _ _ _) as [disk1|] eqn:Hall; simpl in Hrun; [|done].
  injection Hrun as <- <-. by eapply addAll_wellKeyed.
Qed.

Lemma scrape_keeps_store_well_keyed_witness :
  wellKeyed [("austin", [("A", scraped "A"); ("B", scraped "B")])].
Proof.
  apply (scrape_keeps_store_well_keyed asciiLower Scrape.PageReady
           [Some (scraped "A"); Some (scraped "B"); Some (scraped "A")] (λ _, true)
           NoStore (Stored [("austin", [("A", scraped "A"); ("B", scraped "B")])])
           "Austin" (integer 3)
           (Scrape.Emits (Scrape.Scraped 3 "Successfully scraped 3 restaurants"))).
  - split; [constructor|]. intros ?? H. by apply elem_of_nil in H.
  - reflexivity.
Defined.

(** ** The enrichment step *)

Lemma instagramAt_profile s :
  match Enrich.instagramAt s with
  | Some matched =>
      ∃ run, matched = "instagram.com/" +:+ run ∧ Step.profile s = Some run
             ∧ allHandle run = true ∧ nonEmpty run = true
  | None => Step.profile s = None
  end.
Proof.
  unfold Enrich.instagramAt, Step.profile.
  destruct (dropPrefix "instagram.com/" s) as [after|]; [|done]. cbn [mbind option_bind].
  pose proof (handleRun_allHandle after) as Hall.
  destruct (handleRun after) as [run tl]. simpl in Hall.
  destruct (nonEmpty run) eqn:Hne; [|done]. by exists run.
Qed.

Lemma instagramRegex_profile s matched :
  Enrich.instagramRegex s = Some matched →
  ∃ run, matched = "instagram.com/" +:+ run ∧ firstMatch Step.profile s = Some run
         ∧ allHandle run = true ∧ nonEmpty run = true.
Proof.
  unfold Enrich.instagramRegex.
  induction s as [|c rest IH]; cbn [firstMatch]; pose proof (instagramAt_profile EmptyString) as H0.
  - destruct (Enrich.instagramAt EmptyString) as [m|]; [|done].
    intros [= <-]. destruct H0 as (run & -> & Hp & Hall & Hne). exists run. by rewrite Hp.
  - pose proof (instagramAt_profile (String c rest)) as H.
    destruct (Enrich.instagramAt (String c rest)) as [m|].
    + intros [= <-]. destruct H as (run & -> & Hp & Hall & Hne). exists run. by rewrite Hp.
    + rewrite H. apply IH.
Qed.

Lemma instagramRegex_nonEmpty s matched :
  Enrich.instagramRegex s = Some matched → nonEmpty s = true.
Proof. by destruct s. Qed.

Lemma snippet_link_parses run :
  allHandle run = true → nonEmpty run = true →
  Step.extractInstagramUsername ("https://" +:+ "instagram.com/" +:+ run) = Some run.
Proof.
  intros Hall Hne. unfold Step.extractInstagramUsername.
  rewrite nonEmpty_app_r by done.
  change ("instagram.com/" +:+ run) with (String "i" ("nstagram.com/" +:+ run)).
  rewrite (firstMatch_skip Step.profile) by (done || apply profile_other_letter).
  assert (Hhere : Step.profile ("instagram.com/" +:+ run) = Some run).
  { unfold Step.profile. rewrite dropPrefix_app. simpl.
    rewrite <-(append_nil_r run) at 1. rewrite handleRun_app by done. by rewrite Hne. }
  change ("instagram.com/" +:+ run) with (String "i" ("nstagram.com/" +:+ run)) in Hhere.
  cbn [firstMatch]. by rewrite Hhere.
Qed.

Lemma fromOrganic_parses results url :
  Enrich.fromOrganic results = Some url →
  nonEmpty url = true
  ∧ ∃ username, Step.extractInstagramUsername url = Some username
                ∧ allHandle username = true ∧ nonEmpty username = true.
Proof.
  induction results as [|result rest IH]; cbn [Enrich.fromOrganic]; [done|].
  destruct (Enrich.matchIn (Enrich.link result)) as [m|] eqn:Hlink.
  - intros Hurl. rewrite Hurl in Hlink. cbn in Hlink.
    pose proof (instagramRegex_nonEmpty _ _ Hlink) as Hne.
    apply instagramRegex_profile in Hlink as (run & _ & Hp & Hall & Hrun).
    split; [done|]. exists run. unfold Step.extractInstagramUsername. by rewrite Hne, Hp.
  - destruct (Enrich.matchIn (Enrich.snippet result)) as [m|] eqn:Hsnippet; [|apply IH].
    intros [= <-]. destruct (Enrich.snippet result) as [text|]; [|done]. cbn in Hsnippet.
    apply instagramRegex_profile in Hsnippet as (run & -> & _ & Hall & Hrun).
    split; [done|]. exists run. split; [by apply snippet_link_parses | done].
Qed.

(** X23 — a link taken from the organic results can be messaged.  When the
    loop over the organic results of the search answer finds a link, the
    enrichment stores it as the Instagram link of the restaurant, and the
    messaging step extracts a username from it: a non-empty run of the
    characters [A-Za-z0-9_.]. *)
Theorem enriched_link_yields_username (data : Enrich.SearchData)
    (results : list Enrich.SearchResult) (url : string) (restaurant : Restaurant) :
  Enrich.organic_results data = Some results →
  Enrich.fromOrganic results = Some url →
  instagramLink (Enrich.withSocialMedia restaurant
                   (Enrich.findSocialMediaLinks (Enrich.Answer data))) = Some url
  ∧ ∃ username, Step.extractInstagramUsername url = Some username
                ∧ allHandle username = true ∧ nonEmpty username = true.
Proof.
  intros Hresults Hfound.
  destruct (fromOrganic_parses _ _ Hfound) as [Hne Hparse]. split; [|done].
  destruct restaurant. unfold instagramLink, Enrich.findSocialMediaLinks. simpl.
  rewrite Hresults, Hfound. destruct url; [done|]. by rewrite decide_False.
Qed.

Lemma enriched_link_yields_username_witness :
  ∃ username,
    Step.extractInstagramUsername "https://instagram.com/tacostand" = Some username
    ∧ allHandle username = true ∧ nonEmpty username = true.
Proof.
  refine (proj2 (enriched_link_yields_username
                   {| Enrich.organic_results :=
                        Some [ {| Enrich.link := Some "https://example.com/tacos";
                                  Enrich.snippet := Some "Follow instagram.com/tacostand!" |} ];
                      Enrich.social_profiles := None |}
                   _ "https://instagram.com/tacostand" (scraped "Taco Stand")
                   eq_refl _)).
  vm_compute. reflexivity.
Defined.

Lemma socialMedia_withSocialMedia restaurant found :
  socialMedia (Enrich.withSocialMedia restaurant found) = Some found.
Proof. by destruct restaurant. Qed.

Lemma getKey_is_Some {A} key (entries : list (string * A)) :
  key ∈ entries.*1 → ∃ value, getKey key entries = Some value.
Proof.
  intros Hin. destruct (getKey key entries) as [value|] eqn:Hget; [by exists value|].
  by apply getKey_None in Hget.
Qed.

(** The loop of the enrichment when every restaurant to enrich is addressed
    by a name of its own that the object owns. *)
Lemma enrichAll_spec search restaurantsToEnrich :
  ∀ k entries enrichedCount,
  NoDup (name <$> restaurantsToEnrich) →
  (∀ restaurant, restaurant ∈ restaurantsToEnrich → name restaurant ∈ entries.*1) →
  ∃ entries',
    Enrich.enrichAll search k restaurantsToEnrich entries enrichedCount
    = Some (entries', enrichedCount + length restaurantsToEnrich)
    ∧ entries'.*1 = entries.*1
    ∧ (∀ key, key ∉ name <$> restaurantsToEnrich → getKey key entries' = getKey key entries)
    ∧ ∀ i restaurant stored,
        restaurantsToEnrich !! i = Some restaurant →
        getKey (name restaurant) entries = Some stored →
        getKey (name restaurant) entries'
        = Some (Enrich.withSocialMedia stored
                  (Enrich.findSocialMediaLinks (search (k + i) (name restaurant)))).
Proof.
  induction restaurantsToEnrich as [|restaurant rest IH]; intros k entries n Hnd Hown.
  { exists entries. simpl. split; [by rewrite Nat.add_0_r|]. split; [done|].
    split; [done|]. intros i r stored Hi. by rewrite lookup_nil in Hi. }
  apply NoDup_cons in Hnd as [Hfresh Hnd]. cbn [Enrich.enrichAll].
  destruct (getKey_is_Some (name restaurant) entries) as [stored Hstored];
    [apply Hown, list_elem_of_here|].
  rewrite Hstored.
  set (found := Enrich.findSocialMediaLinks (search k (name restaurant))).
  set (entries1 := setKey (name restaurant) (Enrich.withSocialMedia stored found) entries).
  assert (Hkeys1 : entries1.*1 = entries.*1).
  { apply setKey_keys_present, Hown, list_elem_of_here. }
  destruct (IH (S k) entries1 (S n) Hnd) as (entries' & Hrun & Hkeys & Hframe & Hset).
  { intros r Hr. rewrite Hkeys1. by apply Hown, list_elem_of_further. }
  exists entries'. split; [|split; [|split]].
  - rewrite Hrun. do 2 f_equal. simpl. lia.
  - by rewrite Hkeys.
  - intros key Hkey. apply not_elem_of_cons in Hkey as [Hne Hkey].
    rewrite Hframe by done. by apply getKey_setKey_ne.
  - intros [|i] r stored' Hi Hget; simpl in Hi.
    + injection Hi as <-. rewrite Hstored in Hget. injection Hget as <-.
      rewrite Hframe by done. rewrite Nat.add_0_r. apply getKey_setKey_eq.
    + assert (Hne : name r ≠ name restaurant).
      { intros Heq. apply Hfresh. rewrite <-Heq. apply list_elem_of_fmap.
        exists r. split; [done|]. by eapply list_elem_of_lookup_2. }
      rewrite (Hset i r stored' Hi); [by rewrite Nat.add_succ_r|].
      unfold entries1. by rewrite getKey_setKey_ne.
Qed.

Lemma lacking_names entries :
  keyedByName entries →
  name <$> (snd <$> filter (λ entry, Enrich.needsEnrichment entry = true) entries)
  = fst <$> filter (λ entry, Enrich.needsEnrichment entry = true) entries.
Proof.
  intros Hkeyed. rewrite <-list_fmap_compose. apply list_fmap_ext.
  intros i [k r] Hi. simpl. apply Hkeyed.
  apply list_elem_of_lookup_2 in Hi. by apply list_elem_of_filter in Hi as [_ ?].
Qed.

(** The two ways a run of the enrichment goes on a well-keyed file. *)
Lemma enrich_handler_cases toLowerCase search writable disk location :
  wellKeyed (loadRestaurants disk) →
  let entries := Scrape.getRestaurantsByLocation toLowerCase disk location in
  let lacking := filter (λ entry, Enrich.needsEnrichment entry = true) entries in
  (lacking = []
   ∧ Enrich.handler toLowerCase search writable disk location
     = Some ({| Enrich.count := 0; Enrich.message := "No restaurants to enrich" |}, disk))
  ∨ (lacking ≠ []
     ∧ getKey (toLowerCase location) (loadRestaurants disk) = Some entries
     ∧ ∃ entries',
         Enrich.handler toLowerCase search writable disk location
         = Some ({| Enrich.count := length lacking;
                    Enrich.message := "Successfully enriched " +:+ pretty (length lacking)
                                      +:+ " restaurants" |},
                 saveRestaurants writable disk
                   (setKey (toLowerCase location) entries' (loadRestaurants disk)))
         ∧ entries'.*1 = entries.*1
         ∧ (∀ key stored, getKey key entries = Some stored →
              Enrich.needsEnrichment (key, stored) = false →
              getKey key entries' = Some stored)
         ∧ ∀ i key stored, lacking !! i = Some (key, stored) →
             getKey key entries'
             = Some (Enrich.withSocialMedia stored
                       (Enrich.findSocialMediaLinks (search i key)))).
Proof.
  intros Hwell entries lacking.
  destruct (wellKeyed_location _ (toLowerCase location) Hwell) as [Hnd Hkeyed].
  fold (Scrape.getRestaurantsByLocation toLowerCase disk location) in Hnd, Hkeyed.
  fold entries in Hnd, Hkeyed.
  unfold Enrich.handler.
  fold (Scrape.getRestaurantsByLocation toLowerCase disk location). fold entries.
  fold lacking. rewrite length_fmap.
  destruct (decide (length lacking = 0)) as [Hnone|Hsome].
  { left. split; [by apply length_zero_iff_nil | done]. }
  right. split; [by intros Heq; rewrite Heq in Hsome|].
  assert (Hget : getKey (toLowerCase location) (loadRestaurants disk) = Some entries).
  { unfold entries, Scrape.getRestaurantsByLocation.
    destruct (getKey (toLowerCase location) (loadRestaurants disk)) as [es|] eqn:E; [done|].
    exfalso. apply Hsome. unfold lacking, entries, Scrape.getRestaurantsByLocation.
    by rewrite E. }
  split; [done|].
  assert (Hsub : sublist lacking entries) by apply sublist_filter.
  destruct (enrichAll_spec search (snd <$> lacking) 0 entries 0)
    as (entries' & Hrun & Hkeys & Hframe & Hset).
  { unfold lacking. rewrite lacking_names by done.
    eapply sublist_NoDup; [exact Hnd | apply fmap_sublist, sublist_filter]. }
  { intros r Hr. apply list_elem_of_fmap in Hr as ([k r'] & -> & Hin). simpl.
    apply list_elem_of_filter in Hin as [_ Hin]. rewrite (Hkeyed _ _ Hin).
    apply list_elem_of_fmap. by exists (k, r'). }
  exists entries'. rewrite Hrun, length_fmap. simpl. split; [done|]. split; [done|]. split.
  - intros key stored Hstored Hhas. rewrite Hframe; [done|].
    unfold lacking. rewrite lacking_names by done. intros Hin.
    apply list_elem_of_fmap in Hin as ([k r] & -> & Hin). simpl in *.
    apply list_elem_of_filter in Hin as [Hneeds Hin].
    apply (elem_getKey _ _ _ Hnd) in Hin. rewrite Hstored in Hin. injection Hin as ->.
    unfold Enrich.needsEnrichment in *. simpl in *. congruence.
  - intros i key stored Hi.
    assert (Hin : (key, stored) ∈ entries).
    { apply list_elem_of_lookup_2 in Hi. by apply list_elem_of_filter in Hi as [_ ?]. }
    pose proof (Hkeyed _ _ Hin) as Hname.
    specialize (Hset i stored stored). rewrite list_lookup_fmap, Hi, Hname in Hset.
    apply Hset; [done|]. by apply elem_getKey.
Qed.

Lemma name_withSocialMedia restaurant found :
  name (Enrich.withSocialMedia restaurant found) = name restaurant.
Proof. by destruct restaurant. Qed.

Lemma needsEnrichment_false key restaurant :
  Enrich.needsEnrichment (key, restaurant) = false ↔ is_Some (socialMedia restaurant).
Proof.
  unfold Enrich.needsEnrichment. simpl.
  destruct (socialMedia restaurant); split; (done || by intros [? [=]] || eauto).
Qed.

(** Where the entries of the location come from after a run that wrote. *)
Lemma enriched_entries search entries entries' key restaurant :
  NoDup entries.*1 →
  entries'.*1 = entries.*1 →
  (∀ key stored, getKey key entries = Some stored →
     Enrich.needsEnrichment (key, stored) = false → getKey key entries' = Some stored) →
  (∀ i key stored,
     filter (λ entry, Enrich.needsEnrichment entry = true) entries !! i = Some (key, stored) →
     getKey key entries'
     = Some (Enrich.withSocialMedia stored (Enrich.findSocialMediaLinks (search i key)))) →
  (key, restaurant) ∈ entries' →
  ∃ stored, (key, stored) ∈ entries
    ∧ ((restaurant = stored ∧ is_Some (socialMedia stored))
       ∨ ∃ found, restaurant = Enrich.withSocialMedia stored found).
Proof.
  intros Hnd Hkeys Hkept Hset Hin.
  assert (Hnd' : NoDup entries'.*1) by by rewrite Hkeys.
  pose proof (elem_getKey _ _ _ Hnd' Hin) as Hget.
  destruct (getKey_is_Some key entries) as [stored Hstored].
  { rewrite <-Hkeys. apply list_elem_of_fmap. by exists (key, restaurant). }
  exists stored. split; [by apply getKey_elem|].
  destruct (Enrich.needsEnrichment (key, stored)) eqn:Hneeds.
  - right. assert (Hlacking : (key, stored)
                     ∈ filter (λ entry, Enrich.needsEnrichment entry = true) entries).
    { apply list_elem_of_filter. split; [done | by apply getKey_elem]. }
    apply list_elem_of_lookup_1 in Hlacking as [i Hi].
    rewrite (Hset i key stored Hi) in Hget. injection Hget as <-. eauto.
  - left. rewrite (Hkept key stored Hstored Hneeds) in Hget. injection Hget as <-.
    split; [done | by apply (needsEnrichment_false key)].
Qed.

(** X24 — the enrichment fills every gap, once.  On a well-keyed file and
    with the write going through, a run of the handler returns, reports as
    its count the number of restaurants of the location that had no
    [socialMedia] property, and leaves every restaurant of the location with
    one; a further run for the location then finds nothing to enrich,
    whatever the searches would answer, and leaves the file alone. *)
Theorem enrichment_fills_every_gap (toLowerCase : string → string)
    (search : nat → string → Enrich.Response) (disk : StoreFile) (location : string) :
  wellKeyed (loadRestaurants disk) →
  ∃ emitted disk',
    Enrich.handler toLowerCase search true disk location = Some (emitted, disk')
    ∧ Enrich.count emitted
      = length (filter (λ entry, Enrich.needsEnrichment entry = true)
                  (Scrape.getRestaurantsByLocation toLowerCase disk location))
    ∧ (∀ key restaurant,
         (key, restaurant) ∈ Scrape.getRestaurantsByLocation toLowerCase disk' location →
         is_Some (socialMedia restaurant))
    ∧ ∀ again,
        Enrich.handler toLowerCase again true disk' location
        = Some ({| Enrich.count := 0; Enrich.message := "No restaurants to enrich" |}, disk').
Proof.
  intros Hwell.
  destruct (wellKeyed_location _ (toLowerCase location) Hwell) as [Hnd Hkeyed].
  assert (Hfull : ∀ entries : Restaurants,
            filter (λ entry, Enrich.needsEnrichment entry = true) entries = [] →
            ∀ key restaurant, (key, restaurant) ∈ entries → is_Some (socialMedia restaurant)).
  { intros entries Hnone key restaurant Hin. apply (needsEnrichment_false key).
    destruct (Enrich.needsEnrichment (key, restaurant)) eqn:Hneeds; [|done].
    assert (H : (key, restaurant)
                  ∈ filter (λ entry, Enrich.needsEnrichment entry = true) entries)
      by by apply list_elem_of_filter.
    rewrite Hnone in H. by apply elem_of_nil in H. }
  destruct (enrich_handler_cases toLowerCase search true disk location Hwell)
    as [[Hnone Hrun]|(Hsome & Hget & entries' & Hrun & Hkeys & Hkept & Hset)].
  - exists {| Enrich.count := 0; Enrich.message := "No restaurants to enrich" |}, disk.
    split; [done|]. split; [by rewrite Hnone|]. split; [by apply Hfull|].
    intros again.
    destruct (enrich_handler_cases toLowerCase again true disk location Hwell)
      as [[_ Hrun']|(Hsome & _)]; done.
  - eexists _, _. split; [exact Hrun|]. split; [done|].
    set (disk' := saveRestaurants true disk
                    (setKey (toLowerCase location) entries' (loadRestaurants disk))).
    assert (Hafter : Scrape.getRestaurantsByLocation toLowerCase disk' location = entries').
    { unfold Scrape.getRestaurantsByLocation, disk'. simpl. by rewrite getKey_setKey_eq. }
    assert (Hall : ∀ key restaurant, (key, restaurant) ∈ entries' →
              is_Some (socialMedia restaurant) ∧ name restaurant = key).
    { intros key restaurant Hin.
      destruct (enriched_entries search _ _ _ _ Hnd Hkeys Hkept Hset Hin)
        as (stored & Hstored & [[-> Hhas]|[found ->]]).
      - split; [done | by apply Hkeyed].
      - rewrite socialMedia_withSocialMedia, name_withSocialMedia.
        split; [by eexists | by apply Hkeyed]. }
    split; [by intros key restaurant Hin; rewrite Hafter in Hin; apply Hall in Hin as [? _]|].
    intros again.
    assert (Hwell' : wellKeyed (loadRestaurants disk')).
    { apply wellKeyed_setKey; [done | by rewrite Hkeys |].
      intros key restaurant Hin. by apply Hall in Hin as [_ ?]. }
    destruct (enrich_handler_cases toLowerCase again true disk' location Hwell')
      as [[_ Hrun']|(Hsome' & _)]; [done|].
    exfalso. apply Hsome'. rewrite Hafter.
    destruct (filter _ entries') as [|[key restaurant] rest] eqn:Hfilter; [done|].
    assert (Hin : (key, restaurant)
                    ∈ filter (λ entry, Enrich.needsEnrichment entry = true) entries').
    { rewrite Hfilter. apply list_elem_of_here. }
    apply list_elem_of_filter in Hin as [Hneeds Hin]. apply Hall in Hin as [Hhas _].
    apply (needsEnrichment_false key) in Hhas. congruence.
Qed.

Lemma enrichment_fills_every_gap_witness :
  ∃ emitted disk',
    Enrich.handler asciiLower (λ _ _, Enrich.NoApiKey) true
      (Stored [("austin", [("A", scraped "A"); tacoStand])]) "Austin"
    = Some (emitted, disk')
    ∧ Enrich.count emitted = 1.
Proof.
  destruct (enrichment_fills_every_gap asciiLower (λ _ _, Enrich.NoApiKey)
              (Stored [("austin", [("A", scraped "A"); tacoStand])]) "Austin")
    as (emitted & disk' & Hrun & Hcount & _).
  - split; [apply (bool_decide_unpack _); vm_compute; exact I|].
    intros location entries Hin. apply list_elem_of_singleton in Hin as [= -> ->].
    split; [apply (bool_decide_unpack _); vm_compute; exact I|].
    intros key restaurant Hin.
    apply elem_of_cons in Hin as [[= -> ->]|Hin]; [reflexivity|].
    apply list_elem_of_singleton in Hin as [= -> ->]. reflexivity.
  - exists emitted, disk'. split; [exact Hrun | exact Hcount].
Defined.

(** X25 — the enrichment changes links only.  On a well-keyed file a run of
    the handler keeps the location keys of the file and the names of the
    location in their order, leaves all other locations and every restaurant
    that already had a [socialMedia] property as they were, and keeps the
    file well keyed.  When the write goes through, the [i]-th restaurant
    without the property gets exactly the links of the [i]-th search and is
    otherwise unchanged; when the write fails the file stays as it was,
    while the count reported is the same. *)
Theorem enrichment_changes_links_only (toLowerCase : string → string)
    (search : nat → string → Enrich.Response) (writable : bool)
    (disk disk' : StoreFile) (location : string) (emitted : Enrich.Emitted) :
  wellKeyed (loadRestaurants disk) →
  Enrich.handler toLowerCase search writable disk location = Some (emitted, disk') →
  let before := Scrape.getRestaurantsByLocation toLowerCase disk location in
  let after := Scrape.getRestaurantsByLocation toLowerCase disk' location in
  let lacking := filter (λ entry, Enrich.needsEnrichment entry = true) before in
  Enrich.count emitted = length lacking
  ∧ (loadRestaurants disk').*1 = (loadRestaurants disk).*1
  ∧ after.*1 = before.*1
  ∧ wellKeyed (loadRestaurants disk')
  ∧ (∀ elsewhere, toLowerCase elsewhere ≠ toLowerCase location →
       Scrape.getRestaurantsByLocation toLowerCase disk' elsewhere
       = Scrape.getRestaurantsByLocation toLowerCase disk elsewhere)
  ∧ (∀ key stored, getKey key before = Some stored → is_Some (socialMedia stored) →
       getKey key after = Some stored)
  ∧ (writable = true → ∀ i key stored, lacking !! i = Some (key, stored) →
       getKey key after
       = Some (Enrich.withSocialMedia stored (Enrich.findSocialMediaLinks (search i key))))
  ∧ (writable = false → disk' = disk).
Proof.
  intros Hwell Hrun. cbv zeta.
  destruct (wellKeyed_location _ (toLowerCase location) Hwell) as [Hnd Hkeyed].
  destruct (enrich_handler_cases toLowerCase search writable disk location Hwell)
    as [[Hnone Hrun']|(Hsome & Hget & entries' & Hrun' & Hkeys & Hkept & Hset)];
    rewrite Hrun' in Hrun; injection Hrun as <- <-.
  { rewrite Hnone. split; [done|]. split; [done|]. split; [done|]. split; [done|].
    split; [done|]. split; [done|]. split; [|done].
    intros _ i key stored Hi. by rewrite lookup_nil in Hi. }
  destruct writable; simpl.
  - assert (Hafter : Scrape.getRestaurantsByLocation toLowerCase
                       (Stored (setKey (toLowerCase location) entries' (loadRestaurants disk)))
                       location = entries').
    { unfold Scrape.getRestaurantsByLocation. simpl. by rewrite getKey_setKey_eq. }
    rewrite Hafter. split; [done|]. split; [|split; [done|split; [|split; [|split; [|done]]]]].
    + apply setKey_keys_present. apply list_elem_of_fmap.
      exists (toLowerCase location, Scrape.getRestaurantsByLocation toLowerCase disk location).
      split; [done | by apply getKey_elem].
    + apply wellKeyed_setKey; [done | by rewrite Hkeys |].
      intros key restaurant Hin.
      destruct (enriched_entries search _ _ _ _ Hnd Hkeys Hkept Hset Hin)
        as (stored & Hstored & [[-> _]|[found ->]]); [by apply Hkeyed|].
      rewrite name_withSocialMedia. by apply Hkeyed.
    + intros elsewhere Hne. unfold Scrape.getRestaurantsByLocation. simpl.
      by rewrite getKey_setKey_ne.
    + intros key stored Hstored Hhas. apply Hkept; [done|].
      by apply needsEnrichment_false.
  - split; [done|]. split; [done|]. split; [done|]. split; [done|]. split; [done|].
    split; [done|]. done.
Qed.

Lemma enrichment_changes_links_only_witness :
  getKey "Taco Stand"
    (Scrape.getRestaurantsByLocation asciiLower
       (Stored [("austin", [("A", Enrich.withSocialMedia (scraped "A")
                                    (Enrich.findSocialMediaLinks Enrich.NoApiKey));
                            tacoStand])]) "Austin")
  = Some tacoStand.2.
Proof.
  refine (proj1 (proj2 (proj2 (proj2 (proj2 (proj2
            (enrichment_changes_links_only asciiLower (λ _ _, Enrich.NoApiKey) true
               (Stored [("austin", [("A", scraped "A"); tacoStand])]) _ "Austin"
               {| Enrich.count := 1;
                  Enrich.message := "Successfully enriched 1 restaurants" |}
               _ eq_refl)))))) "Taco Stand" tacoStand.2 eq_refl _).
  - split; [apply (bool_decide_unpack _); vm_compute; exact I|].
    intros location entries Hin. apply list_elem_of_singleton in Hin as [= -> ->].
    split; [apply (bool_decide_unpack _); vm_compute; exact I|].
    intros key restaurant Hin.
    apply elem_of_cons in Hin as [[= -> ->]|Hin]; [reflexivity|].
    apply list_elem_of_singleton in Hin as [= -> ->]. reflexivity.
  - by eexists.
Defined.

(** ** The scraper script *)

Lemma assign_getKey_cases {A} key other (value found : A) entries :
  getKey other (assign key value entries) = Some found →
  (other = key ∧ found = value) ∨ getKey other entries = Some found.
Proof.
  destruct (decide (other = key)) as [->|Hne]; [|rewrite assign_other by done; by right].
  unfold assign. destruct (getKey key entries) as [old|] eqn:Hold.
  - rewrite getKey_setKey_eq. intros [= <-]. by left.
  - case_decide; [by rewrite Hold|]. rewrite getKey_setKey_eq. intros [= <-]. by left.
Qed.

Lemma formatted_other key restaurants (formatted : Restaurants) :
  key ∉ name <$> restaurants →
  getKey key
    (foldl (λ formatted restaurant,
              if nonEmpty (name restaurant)
              then assign (name restaurant) restaurant formatted
              else formatted) formatted restaurants)
  = getKey key formatted.
Proof.
  revert formatted. induction restaurants as [|restaurant rest IH]; intros formatted Hout;
    simpl; [done|].
  apply not_elem_of_cons in Hout as [Hne Hout]. rewrite IH by done.
  destruct (nonEmpty (name restaurant)); [by apply assign_other | done].
Qed.

Lemma formatted_from key found restaurants (formatted : Restaurants) :
  getKey key
    (foldl (λ formatted restaurant,
              if nonEmpty (name restaurant)
              then assign (name restaurant) restaurant formatted
              else formatted) formatted restaurants) = Some found →
  getKey key formatted = Some found
  ∨ (found ∈ restaurants ∧ name found = key ∧ nonEmpty key = true).
Proof.
  revert formatted. induction restaurants as [|restaurant rest IH]; intros formatted;
    simpl; [by left|].
  intros H. destruct (IH _ H) as [Hacc|(Hin & Hname & Hne)].
  - destruct (nonEmpty (name restaurant)) eqn:Hnamed; [|by left].
    apply assign_getKey_cases in Hacc as [[-> ->]|?]; [|by left].
    right. split; [apply list_elem_of_here | done].
  - right. split; [by apply list_elem_of_further | done].
Qed.

(** X29 — the scraper script replaces a location.  After a call of
    [saveResults] whose write goes through, for a location whose lower-case
    form is not [__proto__], the file holds under every spelling of the
    location exactly the restaurants of the call: each one stored is one of
    the list under its own non-empty name, of several with one name the last
    is kept, and a name that is not in the list is not found any more,
    whatever the location held before.  Other locations are as before, and a
    call whose write fails leaves the file as it was. *)
Theorem saved_results_replace_the_location (toLowerCase : string → string)
    (disk : StoreFile) (location : string) (restaurants : list Restaurant) :
  toLowerCase location ≠ "__proto__" →
  let disk' := ScrapeScript.saveResults toLowerCase true disk location restaurants in
  (∀ spelling, toLowerCase spelling = toLowerCase location →
     ScrapeScript.getExistingRestaurants toLowerCase disk' spelling
     = ScrapeScript.formattedData restaurants)
  ∧ (∀ elsewhere, toLowerCase elsewhere ≠ toLowerCase location →
       ScrapeScript.getExistingRestaurants toLowerCase disk' elsewhere
       = ScrapeScript.getExistingRestaurants toLowerCase disk elsewhere)
  ∧ (∀ key, key ∉ name <$> restaurants →
       getKey key (ScrapeScript.getExistingRestaurants toLowerCase disk' location) = None)
  ∧ (∀ key found,
       getKey key (ScrapeScript.getExistingRestaurants toLowerCase disk' location)
       = Some found →
       found ∈ restaurants ∧ name found = key ∧ nonEmpty key = true)
  ∧ (∀ earlier restaurant later,
       restaurants = earlier ++ restaurant :: later →
       name restaurant ∉ name <$> later →
       nonEmpty (name restaurant) = true → name restaurant ≠ "__proto__" →
       getKey (name restaurant)
         (ScrapeScript.getExistingRestaurants toLowerCase disk' location)
       = Some restaurant)
  ∧ ScrapeScript.saveResults toLowerCase false disk location restaurants = disk.
Proof.
  intros Hkey. cbv zeta.
  assert (Hafter : ∀ spelling, toLowerCase spelling = toLowerCase location →
            ScrapeScript.getExistingRestaurants toLowerCase
              (ScrapeScript.saveResults toLowerCase true disk location restaurants) spelling
            = ScrapeScript.formattedData restaurants).
  { intros spelling Hsame. unfold ScrapeScript.getExistingRestaurants,
      ScrapeScript.saveResults. simpl. rewrite Hsame. by rewrite assign_found. }
  split; [done|]. rewrite (Hafter location eq_refl). split; [|split; [|split; [|split]]].
  - intros elsewhere Hne. unfold ScrapeScript.getExistingRestaurants,
      ScrapeScript.saveResults. simpl. by rewrite assign_other.
  - intros key Hout. unfold ScrapeScript.formattedData. by rewrite formatted_other.
  - intros key found Hfound. unfold ScrapeScript.formattedData in Hfound.
    by apply formatted_from in Hfound as [?|?].
  - intros earlier restaurant later -> Hlast Hnamed Hproto.
    unfold ScrapeScript.formattedData. rewrite foldl_app. simpl.
    rewrite formatted_other by done. rewrite Hnamed. by apply assign_found.
  - done.
Qed.

Lemma saved_results_replace_the_location_witness :
  getKey "Old Diner"
    (ScrapeScript.getExistingRestaurants asciiLower
       (ScrapeScript.saveResults asciiLower true
          (Stored [("austin", [("Old Diner", scraped "Old Diner")])])
          "Austin" [scraped "Taco Stand"]) "Austin")
  = None.
Proof.
  refine (proj1 (proj2 (proj2
            (saved_results_replace_the_location asciiLower
               (Stored [("austin", [("Old Diner", scraped "Old Diner")])])
               "Austin" [scraped "Taco Stand"] _))) "Old Diner" _).
  - discriminate.
  - apply (bool_decide_unpack _). vm_compute. exact I.
Defined.

(** ** Witnesses for the limits and the browser *)

Lemma step_handler_within_limits_witness :
  ∃ c', getMessageCounts_try (Step.disk (Step.handler smoothWorld leadsABC Missing).2)
          afternoon = Some c'
      ∧ hourly c' ≤ HOURLY_LIMIT ∧ daily c' ≤ DAILY_LIMIT.
Proof.
  apply (step_handler_within_limits smoothWorld leadsABC Missing afternoon
           {| hourly := 0; daily := 0 |}).
  - intros k. reflexivity.
  - reflexivity.
  - vm_compute. lia.
  - vm_compute. lia.
Defined.

Lemma script_main_completed_closes_witness :
  Script.browser (Script.main smoothWorld twoCities Missing).2 = Closed.
Proof.
  apply (script_main_completed_closes smoothWorld twoCities Missing).
  vm_compute. reflexivity.
Defined.
